(** * Window groups: storage, window manager and the switch commands

    A shallow embedding of the Raycast extension's TypeScript sources
    (types.ts, storage.ts, windowManager.ts, create-group.tsx,
    switch-group.tsx, manage-groups.tsx) together with the AppleScript
    programs that windowManager.ts sends to System Events.

    Conventions of the embedding:
    - a JavaScript string is a [string] (a sequence of 8-bit characters);
      [trim] and [toLowerCase] act on the ASCII range;
    - an [async] function is a state-passing function over the world of the
      external collaborators, returning either a value or a thrown error;
    - the collaborators the extension calls but does not implement
      (LocalStorage, JSON, the clock, runAppleScript) are the fields of the
      [Platform] interface; [Mac] is one concrete platform, whose
      runAppleScript interprets the scripts over a model of System Events. *)

From Stdlib Require Import Ascii Bool Arith Lia.
From Stdlib Require String.
From stdpp Require Import base option list strings gmap pretty.

(** ** JavaScript strings *)

Module JS.

Definition quote : ascii := Eval cbv in ascii_of_nat 34.
Definition backslash : ascii := Eval cbv in ascii_of_nat 92.
Definition LF : ascii := Eval cbv in ascii_of_nat 10.
Definition CR : ascii := Eval cbv in ascii_of_nat 13.
Definition TAB : ascii := Eval cbv in ascii_of_nat 9.

(** White space removed by [String.prototype.trim] (ASCII range). *)
Definition isSpace (c : ascii) : bool :=
  let n := nat_of_ascii c in
  (n =? 32) || ((9 <=? n) && (n <=? 13)).

Fixpoint trimStart (s : string) : string :=
  match s with
  | EmptyString => EmptyString
  | String c r => if isSpace c then trimStart r else s
  end.

Fixpoint trimEnd (s : string) : string :=
  match s with
  | EmptyString => EmptyString
  | String c r =>
      match trimEnd r with
      | EmptyString => if isSpace c then EmptyString else String c EmptyString
      | r' => String c r'
      end
  end.

Definition trim (s : string) : string := trimEnd (trimStart s).

Definition lowerChar (c : ascii) : ascii :=
  let n := nat_of_ascii c in
  if (65 <=? n) && (n <=? 90) then ascii_of_nat (n + 32) else c.

Fixpoint toLowerCase (s : string) : string :=
  match s with
  | EmptyString => EmptyString
  | String c r => String (lowerChar c) (toLowerCase r)
  end.

Fixpoint startsWith (p s : string) : bool :=
  match p, s with
  | EmptyString, _ => true
  | String a p', String b s' => Ascii.eqb a b && startsWith p' s'
  | String _ _, EmptyString => false
  end.

(** [s.split(sep)] for a non-empty separator: [skip] counts the characters
    of a separator occurrence still to be dropped, [cur] is the piece being
    collected. *)
Fixpoint splitFrom (sep : string) (skip : nat) (cur : string) (s : string)
  : list string :=
  match s with
  | EmptyString => [cur]
  | String c r =>
      match skip with
      | S k => splitFrom sep k cur r
      | O =>
          if startsWith sep s
          then cur :: splitFrom sep (String.length sep - 1) EmptyString r
          else splitFrom sep 0 (cur +:+ String c EmptyString) r
      end
  end.

Definition split (sep s : string) : list string :=
  splitFrom sep 0 EmptyString s.

(** [s.replace] of every double quote by a backslash and a double quote. *)
Fixpoint escapeQuotes (s : string) : string :=
  match s with
  | EmptyString => EmptyString
  | String c r =>
      if Ascii.eqb c quote
      then String backslash (String quote (escapeQuotes r))
      else String c (escapeQuotes r)
  end.

(** [[...new Set(xs)]]: the distinct elements in order of first occurrence. *)
Fixpoint unique (seen xs : list string) : list string :=
  match xs with
  | [] => []
  | x :: r =>
      if bool_decide (x ∈ seen) then unique seen r
      else x :: unique (x :: seen) r
  end.

Fixpoint includesChar (c : ascii) (s : string) : bool :=
  match s with
  | EmptyString => false
  | String d r => Ascii.eqb c d || includesChar c r
  end.

(** Falsy strings: [!data] holds for [undefined] and for the empty string. *)
Definition truthy (data : option string) : bool :=
  match data with
  | None => false
  | Some s => negb (String.eqb s EmptyString)
  end.

End JS.

(** ** types.ts *)

Record WindowInfo := {
  appName : string;
  windowTitle : string;
  windowId : string;
  bundleId : option string
}.

Record WindowGroup := {
  id : string;
  name : string;
  windows : list WindowInfo;
  createdAt : string;
  updatedAt : string
}.

(** At run time the parsed blob may lack its [groups] property, which is why
    [loadGroups] guards it with [|| []]. *)
Record GroupsStorage := { groups : option (list WindowGroup) }.

Global Instance WindowInfo_eq_dec : EqDecision WindowInfo.
Proof. solve_decision. Defined.
Global Instance WindowGroup_eq_dec : EqDecision WindowGroup.
Proof. solve_decision. Defined.

(** ** Asynchronous computations over the external world *)

Definition Error := string.

Inductive Outcome (A : Type) : Type :=
| Returned (a : A)
| Thrown (e : Error).
Arguments Returned {A} a.
Arguments Thrown {A} e.

(** The AppleScript programs of windowManager.ts, one constructor per script
    template, carrying the text interpolated into the template's holes: the
    escaped application name and window title, and for the script of
    [minimizeAllExcept] the escaped keys, one per string literal of its keep
    list. *)
Inductive Script :=
| GetOpenWindowsScript
| MinimizeAllExceptScript (keepListStr : list string)
| SetVisibleScript (escapedApp : string)
| RestoreWindowScript (escapedApp escapedTitle : string).

Class Platform := {
  World : Type;
  runAppleScript : Script -> World -> Outcome string * World;
  LocalStorage_getItem : string -> World -> Outcome (option string) * World;
  LocalStorage_setItem : string -> string -> World -> Outcome unit * World;
  JSON_parse : string -> Outcome GroupsStorage;
  JSON_stringify : GroupsStorage -> string;
  Date_now : World -> string * World;
  Date_toISOString : World -> string * World
}.

Section Async.
Context `{Platform}.

Definition Async (A : Type) : Type := World -> Outcome A * World.

Definition ret {A} (a : A) : Async A := fun σ => (Returned a, σ).

Definition throw {A} (e : Error) : Async A := fun σ => (Thrown e, σ).

Definition bind {A B} (m : Async A) (k : A -> Async B) : Async B :=
  fun σ =>
    match m σ with
    | (Returned a, σ') => k a σ'
    | (Thrown e, σ') => (Thrown e, σ')
    end.

Definition tryCatch {A} (body : Async A) (handler : Error -> Async A) : Async A :=
  fun σ =>
    match body σ with
    | (Returned a, σ') => (Returned a, σ')
    | (Thrown e, σ') => handler e σ'
    end.

Definition lift {A} (o : Outcome A) : Async A := fun σ => (o, σ).

Definition clock (f : World -> string * World) : Async string :=
  fun σ => let '(s, σ') := f σ in (Returned s, σ').
End Async.

Declare Scope async_scope.
Delimit Scope async_scope with async.
Notation "x <- m ;; k" := (bind m (fun x => k))
  (at level 100, m at next level, right associativity) : async_scope.
Notation "m ;;; k" := (bind m (fun _ => k))
  (at level 100, right associativity) : async_scope.
Open Scope async_scope.

(** ** storage.ts *)

Section Storage.
Context `{Platform}.

Definition STORAGE_KEY : string := "window-groups".

Definition loadGroups : Async (list WindowGroup) :=
  tryCatch
    (data <- LocalStorage_getItem STORAGE_KEY ;;
     match data with
     | Some text =>
         if JS.truthy data
         then storage <- lift (JSON_parse text) ;;
              ret (default [] (groups storage))
         else ret []
     | None => ret []
     end)
    (fun error => ret []).

Definition saveGroups (gs : list WindowGroup) : Async unit :=
  tryCatch
    (let storage := {| groups := Some gs |} in
     LocalStorage_setItem STORAGE_KEY (JSON_stringify storage))
    (fun error => throw error).

Definition createGroup (groupName : string) (groupWindows : list WindowInfo)
  : Async WindowGroup :=
  gs <- loadGroups ;;
  newId <- clock Date_now ;;
  created <- clock Date_toISOString ;;
  updated <- clock Date_toISOString ;;
  let newGroup :=
    {| id := newId; name := groupName; windows := groupWindows;
       createdAt := created; updatedAt := updated |} in
  saveGroups (gs ++ [newGroup]) ;;;
  ret newGroup.

Definition deleteGroup (target : string) : Async unit :=
  gs <- loadGroups ;;
  let filteredGroups := filter (fun g => id g ≠ target) gs in
  saveGroups filteredGroups.
End Storage.


(** ** windowManager.ts *)

Record SwitchResult := { shown : nat; notFound : list WindowInfo }.

Section WindowManager.
Context `{Platform}.

Definition RAYCAST : string := "com.raycast.macos".

(** The body of the [for (const line of lines)] loop of [getOpenWindows]:
    the window pushed for [line], if any. *)
Definition parseLine (line : string) : option WindowInfo :=
  match JS.split "|||" line with
  | p0 :: p1 :: p2 :: _ =>
      let appName := JS.trim p0 in
      let windowTitle := JS.trim p1 in
      let bundleId := JS.trim p2 in
      if String.eqb bundleId RAYCAST then None
      else Some {| appName := appName; windowTitle := windowTitle;
                   windowId := appName +:+ "::" +:+ windowTitle;
                   bundleId := Some bundleId |}
  | _ => None
  end.

Definition getOpenWindows : Async (list WindowInfo) :=
  tryCatch
    (result <- runAppleScript GetOpenWindowsScript ;;
     let lines :=
       filter (fun l => 0 < String.length l)
              (JS.split (String JS.LF EmptyString) (JS.trim result)) in
     ret (omap parseLine lines))
    (fun error => ret []).

(** The identifier built for every window to keep. *)
Definition keepKey (w : WindowInfo) : string :=
  appName w +:+ "|||" +:+ windowTitle w.

Definition minimizeAllExcept (keepWindows : list WindowInfo) : Async unit :=
  let keepSet := keepKey <$> keepWindows in
  let keepListStr := JS.escapeQuotes <$> keepSet in
  tryCatch
    (runAppleScript (MinimizeAllExceptScript keepListStr) ;;; ret tt)
    (fun error => throw error).

(** First loop of [restoreWindows]: make every target application visible. *)
Fixpoint showApps (uniqueApps : list string) : Async unit :=
  match uniqueApps with
  | [] => ret tt
  | app :: rest =>
      tryCatch
        (runAppleScript (SetVisibleScript (JS.escapeQuotes app)) ;;; ret tt)
        (fun _ => ret tt) ;;;
      showApps rest
  end.

Definition countShown (acc : SwitchResult) : SwitchResult :=
  {| shown := S (shown acc); notFound := notFound acc |}.

Definition pushNotFound (window : WindowInfo) (acc : SwitchResult) : SwitchResult :=
  {| shown := shown acc; notFound := notFound acc ++ [window] |}.

(** One iteration of the second loop: unminimize and raise one window. *)
Definition restoreOne (window : WindowInfo) (acc : SwitchResult) : Async SwitchResult :=
  let escapedApp := JS.escapeQuotes (appName window) in
  let escapedTitle := JS.escapeQuotes (windowTitle window) in
  tryCatch
    (result <- runAppleScript (RestoreWindowScript escapedApp escapedTitle) ;;
     if String.eqb (JS.trim result) "found"
     then ret (countShown acc)
     else ret (pushNotFound window acc))
    (fun _ => ret (pushNotFound window acc)).

Fixpoint restoreEach (savedWindows : list WindowInfo) (acc : SwitchResult)
  : Async SwitchResult :=
  match savedWindows with
  | [] => ret acc
  | window :: rest => acc' <- restoreOne window acc ;; restoreEach rest acc'
  end.

Definition restoreWindows (savedWindows : list WindowInfo) : Async SwitchResult :=
  let uniqueApps := JS.unique [] (appName <$> savedWindows) in
  showApps uniqueApps ;;;
  restoreEach savedWindows {| shown := 0; notFound := [] |}.
End WindowManager.

(** ** switch-group.tsx and create-group.tsx *)

Inductive ToastStyle := Animated | Success | Failure.

(** A toast as it stands when the command ends (style and title; the message
    text is not represented). *)
Record Toast := { toastStyle : ToastStyle; toastTitle : string }.

Section Commands.
Context `{Platform}.

(** The two awaited calls inside the [try] of [switchToGroup]. *)
Definition switchTo (group : WindowGroup) : Async SwitchResult :=
  minimizeAllExcept (windows group) ;;;
  restoreWindows (windows group).

(** [switchToGroup] returns the final toast and the value of the
    [activeGroupId] state, which starts as [active]. *)
Definition switchToGroup (group : WindowGroup) (active : option string)
  : Async (Toast * option string) :=
  tryCatch
    (result <- switchTo group ;;
     let active' := Some (id group) in
     if shown result =? 0
     then ret ({| toastStyle := Failure; toastTitle := "No Windows Found" |}, active')
     else if 0 <? length (notFound result)
     then ret ({| toastStyle := Success; toastTitle := "Partially Switched" |}, active')
     else ret ({| toastStyle := Success; toastTitle := "Success" |}, active'))
    (fun error => ret ({| toastStyle := Failure; toastTitle := "Error" |}, active)).

Definition getWindowKey (window : WindowInfo) : string :=
  appName window +:+ "::" +:+ windowTitle window.

(** [handleSubmit] of the confirmation form; the result is the toast shown.
    The navigation that follows a success ([pop] and the [onComplete]
    callback of the caller) is not represented. *)
Definition handleSubmit (valuesName : string) (selectedWindows : list WindowInfo)
  : Async Toast :=
  let name' := JS.trim valuesName in
  if String.eqb name' EmptyString
  then ret {| toastStyle := Failure; toastTitle := "Group name is required" |}
  else
    existingGroups <- loadGroups ;;
    if existsb (fun g => String.eqb (JS.toLowerCase (name g)) (JS.toLowerCase name'))
               existingGroups
    then ret {| toastStyle := Failure;
                toastTitle := "A group with this name already exists" |}
    else
      tryCatch
        (let windowsToSave :=
           (fun w => {| appName := appName w; windowTitle := windowTitle w;
                        windowId := windowId w; bundleId := bundleId w |})
             <$> selectedWindows in
         createGroup name' windowsToSave ;;;
         ret {| toastStyle := Success; toastTitle := "Group Created" |})
        (fun error =>
           ret {| toastStyle := Failure; toastTitle := "Error Creating Group" |}).
End Commands.

(** ** System Events, as the scripts of windowManager.ts see it

    A process owns its windows front to back: the first window of the list is
    the frontmost one of its application, and the action AXRaise moves a
    window to the first place.  Names, titles and bundle identifiers are
    texts.

    The window server may refuse a request, and the scripts wrap their
    requests in [try] blocks for that reason.  A window tells whether a
    script can read its name, whether its attribute AXMinimized can be read,
    whether it can be set, and whether the window can be raised; a process
    tells whether a script can read its name, its bundle identifier and its
    windows, whether its [visible] property can be set and whether it can be
    made frontmost.  These answers belong to the window or the process: a
    request that was refused is refused again as long as nothing else
    changes them.  The filter [every process whose ...] and the look-up of a
    process or of a window by its name are System Events' own and do not
    depend on these answers.  Besides a refused request, what can fail is
    the look-up of a process or of a window by name, and the compilation of
    a script whose interpolated text is not the body of a string literal. *)

Module SystemEvents.

Record Window := {
  winName : string;
  AXMinimized : bool;
  titleReadable : bool;
  attributeReadable : bool;
  attributeSettable : bool;
  raisable : bool
}.

Record Process := {
  procName : string;
  bundleIdentifier : string;
  visible : bool;
  backgroundOnly : bool;
  frontmost : bool;
  procWindows : list Window;
  nameReadable : bool;
  bundleReadable : bool;
  windowsReadable : bool;
  showable : bool;
  frontable : bool
}.

Definition Desktop := list Process.

Definition setMinimized (b : bool) (w : Window) : Window :=
  {| winName := winName w; AXMinimized := b;
     titleReadable := titleReadable w;
     attributeReadable := attributeReadable w;
     attributeSettable := attributeSettable w;
     raisable := raisable w |}.

Definition setWindows (ws : list Window) (p : Process) : Process :=
  {| procName := procName p; bundleIdentifier := bundleIdentifier p;
     visible := visible p; backgroundOnly := backgroundOnly p;
     frontmost := frontmost p; procWindows := ws;
     nameReadable := nameReadable p; bundleReadable := bundleReadable p;
     windowsReadable := windowsReadable p; showable := showable p;
     frontable := frontable p |}.

Definition setVisible (b : bool) (p : Process) : Process :=
  {| procName := procName p; bundleIdentifier := bundleIdentifier p;
     visible := b; backgroundOnly := backgroundOnly p;
     frontmost := frontmost p; procWindows := procWindows p;
     nameReadable := nameReadable p; bundleReadable := bundleReadable p;
     windowsReadable := windowsReadable p; showable := showable p;
     frontable := frontable p |}.

Definition setFrontmost (b : bool) (p : Process) : Process :=
  {| procName := procName p; bundleIdentifier := bundleIdentifier p;
     visible := visible p; backgroundOnly := backgroundOnly p;
     frontmost := b; procWindows := procWindows p;
     nameReadable := nameReadable p; bundleReadable := bundleReadable p;
     windowsReadable := windowsReadable p; showable := showable p;
     frontable := frontable p |}.

(** AppleScript compares texts ignoring case unless told to consider it; none
    of the scripts has a [considering case] block. *)
Definition textEq (a b : string) : bool :=
  String.eqb (JS.toLowerCase a) (JS.toLowerCase b).

(** The text denoted by the body of an AppleScript string literal.  A
    backslash escapes a double quote, a backslash, n, r or t; any other use
    of a backslash, or a double quote of its own, leaves a script that does
    not compile. *)
Definition unescape (d : ascii) : option ascii :=
  if Ascii.eqb d JS.quote then Some JS.quote
  else if Ascii.eqb d JS.backslash then Some JS.backslash
  else if Ascii.eqb d "n" then Some JS.LF
  else if Ascii.eqb d "r" then Some JS.CR
  else if Ascii.eqb d "t" then Some JS.TAB
  else None.

Fixpoint readLiteral (body : string) : option string :=
  match body with
  | EmptyString => Some EmptyString
  | String c rest =>
      if Ascii.eqb c JS.backslash then
        match rest with
        | String d rest' =>
            match unescape d, readLiteral rest' with
            | Some ch, Some text => Some (String ch text)
            | _, _ => None
            end
        | EmptyString => None
        end
      else if Ascii.eqb c JS.quote then None
      else String c <$> readLiteral rest
  end.

(** [tell process app]: the first process of that name runs [body]. *)
Fixpoint tellProcess {R} (app : string) (body : Process -> R * Process)
  (d : Desktop) : option (R * Desktop) :=
  match d with
  | [] => None
  | p :: rest =>
      if textEq (procName p) app
      then let '(r, p') := body p in Some (r, p' :: rest)
      else match tellProcess app body rest with
           | Some (r, rest') => Some (r, p :: rest')
           | None => None
           end
  end.

(** [first window whose name is title]: the windows in front of it, the
    window, and the windows behind it. *)
Fixpoint firstWindow (title : string) (ws : list Window)
  : option (list Window * Window * list Window) :=
  match ws with
  | [] => None
  | w :: rest =>
      if textEq (winName w) title then Some ([], w, rest)
      else match firstWindow title rest with
           | Some (before, t, after) => Some (w :: before, t, after)
           | None => None
           end
  end.

(** [set isMinimized to false], then inside a [try] of its own
    [set isMinimized to value of attribute "AXMinimized" of w]: what the
    minimizing scripts and the snapshot script take the attribute to be. *)
Definition seenMinimized (w : Window) : bool :=
  attributeReadable w && AXMinimized w.

(** [set value of attribute "AXMinimized" of w to b] inside a [try]: a
    refusal is an error that the [try] catches, and the window stays as it
    is. *)
Definition request (b : bool) (w : Window) : Window :=
  if attributeSettable w then setMinimized b w else w.

(** [every process whose visible is true and background only is false]. *)
Definition userFacing (p : Process) : bool :=
  visible p && negb (backgroundOnly p).

(** [set procName to name of proc], [set procBundle to bundle identifier of
    proc] and [set procWindows to every window of proc] inside the [try]
    around a process: the process is skipped unless all three are
    answered. *)
Definition scriptable (p : Process) : bool :=
  nameReadable p && bundleReadable p && windowsReadable p.

(** The [getOpenWindows] script.  The [try] around a window skips one whose
    name cannot be read. *)
Definition listed (w : Window) : bool :=
  titleReadable w && negb (textEq (winName w) EmptyString)
  && negb (seenMinimized w).

Definition windowLine (p : Process) (w : Window) : string :=
  procName p +:+ "|||" +:+ winName w +:+ "|||" +:+ bundleIdentifier p
    +:+ String JS.LF EmptyString.

Definition windowList (d : Desktop) : string :=
  foldr String.append EmptyString
    (p ← filter (fun p => userFacing p && scriptable p = true) d;
     windowLine p <$> filter (fun w => listed w = true) (procWindows p)).

(** The [minimizeAllExcept] script.  The [try] around a window skips one
    whose name cannot be read, and one that refuses to have its attribute
    set stays as it is. *)
Definition shouldKeep (keepList : list string) (winKey : string) : bool :=
  existsb (fun k => textEq k winKey) keepList.

Definition minimizeWindow (keepList : list string) (p : Process) (w : Window)
  : Window :=
  let winKey := procName p +:+ "|||" +:+ winName w in
  if negb (titleReadable w) then w
  else if shouldKeep keepList winKey then w
  else if seenMinimized w then w else request true w.

Definition minimizeProcess (keepList : list string) (p : Process) : Process :=
  if userFacing p && scriptable p
     && negb (textEq (bundleIdentifier p) "com.raycast.macos")
  then setWindows (minimizeWindow keepList p <$> procWindows p) p
  else p.

Definition minimizeOthers (keepList : list string) (d : Desktop) : Desktop :=
  minimizeProcess keepList <$> d.

(** The script of the first loop of [restoreWindows]; its own [try] swallows
    the error of a missing process and the refusal of the request. *)
Definition madeVisible (p : Process) : Process :=
  if showable p then setVisible true p else p.

Definition makeVisible (app : string) (d : Desktop) : Desktop :=
  match tellProcess app (fun p => (tt, madeVisible p)) d with
  | Some (_, d') => d'
  | None => d
  end.

(** The script of the second loop: inside [tell process app], set frontmost,
    then look the window up, unminimize it if it is minimized and raise it.
    The unminimizing has a [try] of its own, so that a refusal to read or to
    set the attribute is skipped; a refusal to raise the window is an error
    that the outer [try] answers with notfound, after the unminimizing. *)
Definition unminimized (w : Window) : Window :=
  if seenMinimized w then request false w else w.

Definition raiseWindow (title : string) (p : Process) : string * Process :=
  let p1 := setFrontmost true p in
  match firstWindow title (procWindows p1) with
  | Some (before, targetWindow, after) =>
      if raisable targetWindow
      then ("found",
            setWindows (unminimized targetWindow :: before ++ after) p1)
      else ("notfound",
            setWindows (before ++ unminimized targetWindow :: after) p1)
  | None => ("notfound", p1)
  end.

(** What [process app] and [first window whose name is title] denote. *)
Definition processNamed (app : string) (d : Desktop) : option Process :=
  List.find (fun p => textEq (procName p) app) d.

Definition windowNamed (title : string) (p : Process) : option Window :=
  List.find (fun w => textEq (winName w) title) (procWindows p).

(** [set frontmost to true] is outside every [try] of the script: a missing
    process and a process that refuses to come to the front end the script
    with an error, before anything is changed. *)
Definition restoreWindow (app title : string) (d : Desktop)
  : Outcome string * Desktop :=
  match processNamed app d with
  | Some p =>
      if frontable p
      then match tellProcess app (raiseWindow title) (setFrontmost false <$> d) with
           | Some (result, d') => (Returned result, d')
           | None => (Thrown "System Events got an error: cannot get the process", d)
           end
      else (Thrown "System Events got an error: cannot set frontmost", d)
  | None => (Thrown "System Events got an error: cannot get the process", d)
  end.

Definition syntaxError : Error := "AppleScript syntax error".

Definition run (script : Script) (d : Desktop) : Outcome string * Desktop :=
  match script with
  | GetOpenWindowsScript => (Returned (windowList d), d)
  | MinimizeAllExceptScript keepListStr =>
      match mapM readLiteral keepListStr with
      | Some keepList => (Returned EmptyString, minimizeOthers keepList d)
      | None => (Thrown syntaxError, d)
      end
  | SetVisibleScript escapedApp =>
      match readLiteral escapedApp with
      | Some app => (Returned EmptyString, makeVisible app d)
      | None => (Thrown syntaxError, d)
      end
  | RestoreWindowScript escapedApp escapedTitle =>
      match readLiteral escapedApp, readLiteral escapedTitle with
      | Some app, Some title => restoreWindow app title d
      | _, _ => (Thrown syntaxError, d)
      end
  end.

End SystemEvents.


(** ** JSON texts

    The blob kept in LocalStorage is the JSON text of a [GroupsStorage].
    [stringify] writes a value the way JSON.stringify does (no white space);
    [parse] reads objects, arrays, strings and the three literals; numbers do
    not occur in the extension's blob and are not read. *)

Module JSON.

#[local] Unset Elimination Schemes.
Inductive Value :=
| Null
| Bool (b : bool)
| Str (s : string)
| Arr (items : list Value)
| Obj (members : list (string * Value)).
#[local] Set Elimination Schemes.

Definition hexDigit (n : nat) : ascii :=
  ascii_of_nat (if n <? 10 then 48 + n else 87 + n).

Definition hexValue (c : ascii) : option nat :=
  let n := nat_of_ascii c in
  if (48 <=? n) && (n <=? 57) then Some (n - 48)
  else if (97 <=? n) && (n <=? 102) then Some (n - 87)
  else if (65 <=? n) && (n <=? 70) then Some (n - 55)
  else None.

Definition escapeChar (c : ascii) : string :=
  let n := nat_of_ascii c in
  if Ascii.eqb c JS.quote then String JS.backslash (String JS.quote EmptyString)
  else if Ascii.eqb c JS.backslash then String JS.backslash (String JS.backslash EmptyString)
  else if n =? 8 then String JS.backslash "b"
  else if n =? 9 then String JS.backslash "t"
  else if n =? 10 then String JS.backslash "n"
  else if n =? 12 then String JS.backslash "f"
  else if n =? 13 then String JS.backslash "r"
  else if n <? 32
  then String JS.backslash
         (String "u" (String "0" (String "0"
            (String (hexDigit (n / 16)) (String (hexDigit (n mod 16)) EmptyString)))))
  else String c EmptyString.

Fixpoint escape (s : string) : string :=
  match s with
  | EmptyString => EmptyString
  | String c r => escapeChar c +:+ escape r
  end.

Definition quoted (s : string) : string :=
  String JS.quote (escape s +:+ String JS.quote EmptyString).

Fixpoint print (v : Value) : string :=
  match v with
  | Null => "null"
  | Bool true => "true"
  | Bool false => "false"
  | Str s => quoted s
  | Arr items =>
      "[" +:+
      (fix each (l : list Value) : string :=
         match l with
         | [] => EmptyString
         | [x] => print x
         | x :: r => print x +:+ "," +:+ each r
         end) items +:+ "]"
  | Obj members =>
      "{" +:+
      (fix each (l : list (string * Value)) : string :=
         match l with
         | [] => EmptyString
         | [(k, x)] => quoted k +:+ ":" +:+ print x
         | (k, x) :: r => quoted k +:+ ":" +:+ print x +:+ "," +:+ each r
         end) members +:+ "}"
  end.

Definition isWs (c : ascii) : bool :=
  let n := nat_of_ascii c in
  (n =? 32) || (n =? 9) || (n =? 10) || (n =? 13).

Fixpoint skipWs (s : string) : string :=
  match s with
  | String c r => if isWs c then skipWs r else s
  | EmptyString => EmptyString
  end.

(** The characters of a string literal after its opening quote, and the text
    that follows the closing quote. *)
Fixpoint readChars (s : string) : option (string * string) :=
  match s with
  | EmptyString => None
  | String c r =>
      if Ascii.eqb c JS.quote then Some (EmptyString, r)
      else if Ascii.eqb c JS.backslash then
        match r with
        | String d r' =>
            let simple (ch : ascii) :=
              '(text, rest) ← readChars r'; Some (String ch text, rest) in
            if Ascii.eqb d JS.quote then simple JS.quote
            else if Ascii.eqb d JS.backslash then simple JS.backslash
            else if Ascii.eqb d "/" then simple "/"%char
            else if Ascii.eqb d "b" then simple (ascii_of_nat 8)
            else if Ascii.eqb d "t" then simple JS.TAB
            else if Ascii.eqb d "n" then simple JS.LF
            else if Ascii.eqb d "f" then simple (ascii_of_nat 12)
            else if Ascii.eqb d "r" then simple JS.CR
            else if Ascii.eqb d "u" then
              match r' with
              | String h1 (String h2 (String h3 (String h4 r''))) =>
                  match hexValue h1, hexValue h2, hexValue h3, hexValue h4 with
                  | Some 0, Some 0, Some a, Some b =>
                      '(text, rest) ← readChars r'';
                      Some (String (ascii_of_nat (16 * a + b)) text, rest)
                  | _, _, _, _ => None
                  end
              | _ => None
              end
            else None
        | EmptyString => None
        end
      else if nat_of_ascii c <? 32 then None
      else '(text, rest) ← readChars r; Some (String c text, rest)
  end.

Definition expect (c : ascii) (s : string) : option string :=
  match skipWs s with
  | String d r => if Ascii.eqb c d then Some r else None
  | EmptyString => None
  end.

Fixpoint readValue (fuel : nat) (s : string) : option (Value * string) :=
  match fuel with
  | O => None
  | S fuel' =>
      match skipWs s with
      | EmptyString => None
      | String c r =>
          if Ascii.eqb c JS.quote then
            '(text, rest) ← readChars r; Some (Str text, rest)
          else if Ascii.eqb c "[" then
            match expect "]" r with
            | Some rest => Some (Arr [], rest)
            | None => '(items, rest) ← readItems fuel' r; Some (Arr items, rest)
            end
          else if Ascii.eqb c "{" then
            match expect "}" r with
            | Some rest => Some (Obj [], rest)
            | None => '(members, rest) ← readMembers fuel' r; Some (Obj members, rest)
            end
          else if JS.startsWith "null" (String c r) then Some (Null, String.substring 3 (String.length r) r)
          else if JS.startsWith "true" (String c r) then Some (Bool true, String.substring 3 (String.length r) r)
          else if JS.startsWith "false" (String c r) then Some (Bool false, String.substring 4 (String.length r) r)
          else None
      end
  end
with readItems (fuel : nat) (s : string) : option (list Value * string) :=
  match fuel with
  | O => None
  | S fuel' =>
      '(v, rest) ← readValue fuel' s;
      match expect "," rest with
      | Some rest' => '(items, rest'') ← readItems fuel' rest'; Some (v :: items, rest'')
      | None => rest' ← expect "]" rest; Some ([v], rest')
      end
  end
with readMembers (fuel : nat) (s : string) : option (list (string * Value) * string) :=
  match fuel with
  | O => None
  | S fuel' =>
      afterQuote ← expect JS.quote s;
      '(key, rest) ← readChars afterQuote;
      afterColon ← expect ":" rest;
      '(v, rest1) ← readValue fuel' afterColon;
      match expect "," rest1 with
      | Some rest' => '(members, rest'') ← readMembers fuel' rest'; Some ((key, v) :: members, rest'')
      | None => rest' ← expect "}" rest1; Some ([(key, v)], rest')
      end
  end.

(** Property access: the last member of that name wins. *)
Fixpoint member (key : string) (members : list (string * Value)) : option Value :=
  match members with
  | [] => None
  | (k, v) :: r =>
      match member key r with
      | Some v' => Some v'
      | None => if String.eqb k key then Some v else None
      end
  end.

Definition get (key : string) (v : Value) : option Value :=
  match v with
  | Obj members => member key members
  | _ => None
  end.

Definition getString (key : string) (v : Value) : option string :=
  match get key v with Some (Str s) => Some s | _ => None end.

Definition fromWindow (w : WindowInfo) : Value :=
  Obj ([("appName", Str (appName w)); ("windowTitle", Str (windowTitle w));
        ("windowId", Str (windowId w))]
       ++ match bundleId w with Some b => [("bundleId", Str b)] | None => [] end).

Definition fromGroup (g : WindowGroup) : Value :=
  Obj [("name", Str (name g)); ("windows", Arr (fromWindow <$> windows g));
       ("id", Str (id g)); ("createdAt", Str (createdAt g));
       ("updatedAt", Str (updatedAt g))].

Definition fromStorage (st : GroupsStorage) : Value :=
  match groups st with
  | Some gs => Obj [("groups", Arr (fromGroup <$> gs))]
  | None => Obj []
  end.

Definition toWindow (v : Value) : option WindowInfo :=
  a ← getString "appName" v;
  t ← getString "windowTitle" v;
  i ← getString "windowId" v;
  Some {| appName := a; windowTitle := t; windowId := i;
          bundleId := getString "bundleId" v |}.

Definition toGroup (v : Value) : option WindowGroup :=
  i ← getString "id" v;
  n ← getString "name" v;
  ws ← match get "windows" v with Some (Arr l) => mapM toWindow l | _ => None end;
  c ← getString "createdAt" v;
  u ← getString "updatedAt" v;
  Some {| id := i; name := n; windows := ws; createdAt := c; updatedAt := u |}.

(** A blob that is an object is read as a [GroupsStorage]; anything in it
    that is not of the declared shape is outside the typed embedding and is
    reported as a fault. *)
Definition toStorage (v : Value) : option GroupsStorage :=
  match v with
  | Obj _ =>
      match get "groups" v with
      | None | Some Null | Some (Bool false) => Some {| groups := None |}
      | Some (Arr l) => gs ← mapM toGroup l; Some {| groups := Some gs |}
      | Some _ => None
      end
  | _ => None
  end.

Definition stringify (st : GroupsStorage) : string := print (fromStorage st).

Definition parse (text : string) : Outcome GroupsStorage :=
  match readValue (S (String.length text)) text with
  | Some (v, rest) =>
      match skipWs rest with
      | EmptyString =>
          match toStorage v with
          | Some st => Returned st
          | None => Thrown "TypeError"
          end
      | _ => Thrown "SyntaxError"
      end
  | None => Thrown "SyntaxError"
  end.

End JSON.


(** ** A concrete platform

    The world of the [Mac] platform: the desktop that System Events exposes,
    the extension's LocalStorage (which answers only while it is online) and
    a millisecond clock that advances at every reading.  The calendar form
    of an instant is not modelled: [toISOString] renders the instant by its
    millisecond count. *)

Record MacWorld := {
  desktop : SystemEvents.Desktop;
  localStorage : gmap string string;
  storageOnline : bool;
  ticks : nat
}.

Definition withDesktop (d : SystemEvents.Desktop) (σ : MacWorld) : MacWorld :=
  {| desktop := d; localStorage := localStorage σ;
     storageOnline := storageOnline σ; ticks := ticks σ |}.

Definition withStorage (m : gmap string string) (σ : MacWorld) : MacWorld :=
  {| desktop := desktop σ; localStorage := m;
     storageOnline := storageOnline σ; ticks := ticks σ |}.

Definition tick (σ : MacWorld) : MacWorld :=
  {| desktop := desktop σ; localStorage := localStorage σ;
     storageOnline := storageOnline σ; ticks := S (ticks σ) |}.

Definition storageError : Error := "LocalStorage is not available".

Definition macRun (script : Script) (σ : MacWorld) : Outcome string * MacWorld :=
  let '(o, d) := SystemEvents.run script (desktop σ) in (o, withDesktop d σ).

Definition macGetItem (key : string) (σ : MacWorld)
  : Outcome (option string) * MacWorld :=
  if storageOnline σ then (Returned (localStorage σ !! key), σ)
  else (Thrown storageError, σ).

Definition macSetItem (key value : string) (σ : MacWorld)
  : Outcome unit * MacWorld :=
  if storageOnline σ
  then (Returned tt, withStorage (<[key := value]> (localStorage σ)) σ)
  else (Thrown storageError, σ).

Global Instance Mac : Platform := {|
  World := MacWorld;
  runAppleScript := macRun;
  LocalStorage_getItem := macGetItem;
  LocalStorage_setItem := macSetItem;
  JSON_parse := JSON.parse;
  JSON_stringify := JSON.stringify;
  Date_now := fun σ => (pretty (ticks σ), tick σ);
  Date_toISOString := fun σ => ("T" +:+ pretty (ticks σ), tick σ)
|}.

(** A platform whose window server does not answer the visibility requests
    of [restoreWindows] (each such runAppleScript call is rejected) and is
    the [Mac] platform otherwise. *)
Definition timedOut : Error := "Command timed out".

Definition noVisibilityRun (script : Script) (σ : MacWorld)
  : Outcome string * MacWorld :=
  match script with
  | SetVisibleScript _ => (Thrown timedOut, σ)
  | _ => macRun script σ
  end.

Definition NoVisibility : Platform := {|
  World := MacWorld;
  runAppleScript := noVisibilityRun;
  LocalStorage_getItem := macGetItem;
  LocalStorage_setItem := macSetItem;
  JSON_parse := JSON.parse;
  JSON_stringify := JSON.stringify;
  Date_now := fun σ => (pretty (ticks σ), tick σ);
  Date_toISOString := fun σ => ("T" +:+ pretty (ticks σ), tick σ)
|}.

(** ** Vocabulary of the statements *)

(** Contracts of the collaborators. *)
Definition KeyValueStore `{Platform} : Prop :=
  forall key value σ σ',
    LocalStorage_setItem key value σ = (Returned tt, σ') ->
    LocalStorage_getItem key σ' = (Returned (Some value), σ').

Definition JSONFaithful `{Platform} (gs : list WindowGroup) : Prop :=
  JSON_parse (JSON_stringify {| groups := Some gs |})
    = Returned {| groups := Some gs |}
  /\ JSON_stringify {| groups := Some gs |} <> EmptyString.

(** The ways in which loading the stored groups can fail to deliver data. *)
Inductive LoadFails `{Platform} (σ σ' : World) : Prop :=
| getItem_throws e :
    LocalStorage_getItem STORAGE_KEY σ = (Thrown e, σ') -> LoadFails σ σ'
| nothing_stored data :
    LocalStorage_getItem STORAGE_KEY σ = (Returned data, σ') ->
    JS.truthy data = false -> LoadFails σ σ'
| parse_throws text e :
    LocalStorage_getItem STORAGE_KEY σ = (Returned (Some text), σ') ->
    JSON_parse text = Thrown e -> LoadFails σ σ'.

(** Window identity as the specification words it. *)
Definition sameWindow (r w : WindowInfo) : Prop :=
  appName r = appName w /\ windowTitle r = windowTitle w.

Definition keysIdentify (r w : WindowInfo) : Prop :=
  getWindowKey r = getWindowKey w <-> sameWindow r w.

(** The outcome of the query of one reference in the second loop of
    [restoreWindows], and the outcomes of a whole run of the loop. *)
Definition queryWindow `{Platform} (window : WindowInfo) (σ : World) : bool * World :=
  match runAppleScript
          (RestoreWindowScript (JS.escapeQuotes (appName window))
                               (JS.escapeQuotes (windowTitle window))) σ with
  | (Returned result, σ') => (String.eqb (JS.trim result) "found", σ')
  | (Thrown _, σ') => (false, σ')
  end.

Fixpoint restoreTrace `{Platform} (savedWindows : list WindowInfo) (σ : World)
  : list (WindowInfo * bool) :=
  match savedWindows with
  | [] => []
  | window :: rest =>
      let '(found, σ') := queryWindow window σ in
      (window, found) :: restoreTrace rest σ'
  end.

(** Whether some request of the first loop of [restoreWindows] is rejected. *)
Fixpoint showAppsFaulted `{Platform} (uniqueApps : list string) (σ : World) : bool :=
  match uniqueApps with
  | [] => false
  | app :: rest =>
      match runAppleScript (SetVisibleScript (JS.escapeQuotes app)) σ with
      | (Thrown _, _) => true
      | (Returned _, σ') => showAppsFaulted rest σ'
      end
  end.

(** The propagation of whole-phase faults as the specification words it: a
    fault of the exclusionary minimize, or of the visibility pass that
    follows it, makes the switch fail as a whole. *)
Definition phaseFaultsPropagate `{Platform} (group : WindowGroup) (σ : World) : Prop :=
  ((exists e σ', minimizeAllExcept (windows group) σ = (Thrown e, σ')) \/
   (exists σm, minimizeAllExcept (windows group) σ = (Returned tt, σm) /\
      showAppsFaulted (JS.unique [] (appName <$> windows group)) σm = true)) ->
  exists e σ', switchTo group σ = (Thrown e, σ').

(** The capture invariant as the specification words it. *)
Definition capturedNonEmpty (captured : list WindowInfo) : Prop :=
  Forall (fun w => appName w <> EmptyString /\ windowTitle w <> EmptyString)
         captured.

(** Texts that a script literal hands to System Events as they are. *)
Definition plain (s : string) : Prop := JS.includesChar JS.backslash s = false.

Definition plainRef (r : WindowInfo) : Prop :=
  plain (appName r) /\ plain (windowTitle r).

(** The windows on screen: the windows, not minimized, of the visible
    processes, each as (application name, window title). *)
Definition visibleWindows (d : SystemEvents.Desktop) : list (string * string) :=
  p ← filter (fun p => SystemEvents.visible p = true) d;
  (fun w => (SystemEvents.procName p, SystemEvents.winName w))
    <$> filter (fun w => SystemEvents.AXMinimized w = false)
               (SystemEvents.procWindows p).

(** ** The switch, read on the desktop

    What the three phases of a switch do to the desktop of the [Mac]
    platform. *)

Module Reading.
Import SystemEvents.

(** The text that System Events receives for a text that was interpolated
    into a string literal with its double quotes escaped; none when the
    script does not compile. *)
Definition delivered (s : string) : option string :=
  readLiteral (JS.escapeQuotes s).

(** The reference as the script of the second loop of [restoreWindows]
    delivers it. *)
Definition deliveredRef (r : WindowInfo) : option WindowInfo :=
  app ← delivered (appName r);
  title ← delivered (windowTitle r);
  Some {| appName := app; windowTitle := title;
          windowId := windowId r; bundleId := bundleId r |}.

Definition showAll (uniqueApps : list string) (d : Desktop) : Desktop :=
  foldl (fun d app => makeVisible app d) d uniqueApps.

(** One iteration of the second loop for a reference whose names System
    Events receives as they are: the answer and the desktop left. *)
Definition restoreStep (r : WindowInfo) (d : Desktop) : bool * Desktop :=
  match restoreWindow (appName r) (windowTitle r) d with
  | (Returned result, d') => (String.eqb (JS.trim result) "found", d')
  | (Thrown _, d') => (false, d')
  end.

Definition restoreAll (savedWindows : list WindowInfo) (d : Desktop) : Desktop :=
  foldl (fun d r => snd (restoreStep r d)) d savedWindows.

(** The same for any reference: a script that does not compile answers
    nothing and changes nothing. *)
Definition stepRef (r : WindowInfo) (d : Desktop) : bool * Desktop :=
  match deliveredRef r with
  | Some r' => restoreStep r' d
  | None => (false, d)
  end.

Definition restoreAllRefs (savedWindows : list WindowInfo) (d : Desktop) : Desktop :=
  foldl (fun d r => snd (stepRef r d)) d savedWindows.

(** The window a reference denotes on a desktop: the first window of that
    title in the first process of that name. *)
Definition lookupWindow (app title : string) (d : Desktop) : option Window :=
  processNamed app d ≫= windowNamed title.

(** A reference is present when it denotes a window. *)
Definition present (r : WindowInfo) (d : Desktop) : bool :=
  bool_decide (is_Some (lookupWindow (appName r) (windowTitle r) d)).

(** The window that the script of a reference gets to: the window the
    reference denotes, if its process comes to the front. *)
Definition target (r : WindowInfo) (d : Desktop) : option Window :=
  p ← processNamed (appName r) d;
  if frontable p then windowNamed (windowTitle r) p else None.

(** The script of a reference answers found: it gets to a window, and the
    window lets itself be raised. *)
Definition found (r : WindowInfo) (d : Desktop) : bool :=
  match target r d with
  | Some w => raisable w
  | None => false
  end.

Definition foundRef (r : WindowInfo) (d : Desktop) : bool :=
  match deliveredRef r with
  | Some r' => found r' d
  | None => false
  end.

(** A window grants the requests by which a script unminimizes it. *)
Definition unminimizable (w : Window) : bool :=
  attributeReadable w && attributeSettable w.

(** The window a reference denotes is not minimized, or it refuses to be
    unminimized. *)
Definition shownUp (app title : string) (d : Desktop) : Prop :=
  exists w, lookupWindow app title d = Some w /\
            (AXMinimized w = false \/ unminimizable w = false).

(** The window a reference denotes is the frontmost one of its application. *)
Definition inFront (app title : string) (d : Desktop) : Prop :=
  exists p w, processNamed app d = Some p /\ windowNamed title p = Some w /\
              head (procWindows p) = Some w.

(** The key the script of [minimizeAllExcept] builds for a window. *)
Definition winKey (p : Process) (w : Window) : string :=
  procName p +:+ "|||" +:+ winName w.

(** Process [p'] is process [p0] after the switch, and if [p0] was visible,
    not background-only, not Raycast and let its name, bundle identifier and
    windows be read, every window of [p'] whose key is none of [keys], even
    ignoring letter case, is minimized, refuses to have its attribute set or
    does not let its name be read. *)
Definition othersMinimized (keys : list string) (p0 p' : Process) : Prop :=
  procName p' = procName p0 /\
  bundleIdentifier p' = bundleIdentifier p0 /\
  backgroundOnly p' = backgroundOnly p0 /\
  scriptable p' = scriptable p0 /\
  (userFacing p0 = true ->
   scriptable p0 = true ->
   textEq (bundleIdentifier p0) RAYCAST = false ->
   forall w, w ∈ procWindows p' ->
             shouldKeep keys (winKey p' w) = false ->
             AXMinimized w = true \/ attributeSettable w = false \/
             titleReadable w = false).

(** One script keeps the identity of a process and adds to its windows, or
    changes among them, only windows whose key is kept. *)
Definition gentle (keys : list string) (p p' : Process) : Prop :=
  procName p' = procName p /\
  bundleIdentifier p' = bundleIdentifier p /\
  backgroundOnly p' = backgroundOnly p /\
  scriptable p' = scriptable p /\
  forall w, w ∈ procWindows p' ->
            w ∈ procWindows p \/ shouldKeep keys (winKey p w) = true.

(** Process [p'] has the name, the bundle identifier, the visibility and the
    background-only flag of process [p], and its windows in some order;
    nothing is said of which application is frontmost. *)
Definition restacked (p p' : Process) : Prop :=
  procName p' = procName p /\
  bundleIdentifier p' = bundleIdentifier p /\
  visible p' = visible p /\
  backgroundOnly p' = backgroundOnly p /\
  procWindows p' ≡ₚ procWindows p.

(** The unminimizing of the second loop has nothing left to do on the
    window that the script of a reference gets to. *)
Definition settledAt (r : WindowInfo) (d : Desktop) : Prop :=
  forall w, target r d = Some w -> unminimized w = w.

Definition allShown (ws : list WindowInfo) (d : Desktop) : Prop :=
  forall r, r ∈ ws -> settledAt r d.

(** The process a name denotes, if any, is visible. *)
Definition appVisible (app : string) (d : Desktop) : Prop :=
  forall p, processNamed app d = Some p -> visible p = true.

(** The processes that the references denote, by the names that System
    Events receives, are visible. *)
Definition targetsVisible (savedWindows : list WindowInfo) (d : Desktop) : Prop :=
  forall r app p, r ∈ savedWindows ->
                  delivered (appName r) = Some app ->
                  processNamed app d = Some p -> visible p = true.

(** The invariant of a switch as the specification words it. *)
Definition switchInvariant (group : WindowGroup) (res : SwitchResult)
  (d : Desktop) : Prop :=
  (forall p w, p ∈ d -> w ∈ procWindows p ->
     winKey p w ∉ (keepKey <$> windows group) ->
     AXMinimized w = true) /\
  (forall p w r, p ∈ d -> w ∈ procWindows p ->
     r ∈ windows group -> r ∉ notFound res -> keepKey r = winKey p w ->
     AXMinimized w = false /\ head (procWindows p) = Some w).

(** The idempotence of a switch as the specification words it. *)
Definition switchIdempotent (group : WindowGroup) (σ : @World Mac) : Prop :=
  forall res1 σ1 res2 σ2,
    switchTo group σ = (Returned res1, σ1) ->
    switchTo group σ1 = (Returned res2, σ2) ->
    (forall x, x ∈ visibleWindows (desktop σ2) <-> x ∈ visibleWindows (desktop σ1)) /\
    shown res2 = shown res1 /\ notFound res2 = notFound res1.

End Reading.

(** ** Sample worlds used to exercise the statements *)

Module Sample.
Import SystemEvents.

Definition ref (app title : string) : WindowInfo :=
  {| appName := app; windowTitle := title;
     windowId := app +:+ "::" +:+ title; bundleId := None |}.

Definition group (groupName : string) (ws : list WindowInfo) : WindowGroup :=
  {| id := "1700000000000"; name := groupName; windows := ws;
     createdAt := "2023-11-14T22:13:20.000Z";
     updatedAt := "2023-11-14T22:13:20.000Z" |}.

(** A window and a process that grant every request. *)
Definition win (title : string) : Window :=
  {| winName := title; AXMinimized := false; titleReadable := true;
     attributeReadable := true; attributeSettable := true; raisable := true |}.

Definition app (appName bundle : string) (shownOnScreen : bool)
  (ws : list Window) : Process :=
  {| procName := appName; bundleIdentifier := bundle;
     visible := shownOnScreen; backgroundOnly := false; frontmost := false;
     procWindows := ws; nameReadable := true; bundleReadable := true;
     windowsReadable := true; showable := true; frontable := true |}.

Definition world (d : Desktop) (online : bool) : @World Mac :=
  {| desktop := d; localStorage := ∅; storageOnline := online; ticks := 0 |}.

Definition offline : @World Mac := world [] false.

Definition empty : @World Mac := world [] true.

(** A world in which the group named Work has been created. *)
Definition afterWork : @World Mac :=
  snd (createGroup "Work" [ref "Cursor" "main.ts"] empty).

Definition work : WindowGroup :=
  {| id := "0"; name := "Work"; windows := [ref "Cursor" "main.ts"];
     createdAt := "T1"; updatedAt := "T2" |}.

Definition play : WindowGroup :=
  {| id := "7"; name := "Play"; windows := [ref "Music" "Library"];
     createdAt := "T8"; updatedAt := "T9" |}.

(** A world whose storage holds the groups Work and Play. *)
Definition twoGroups : @World Mac :=
  snd (saveGroups [work; play] empty).

(** The Dev group of the specification's scenarios and a desktop for it. *)
Definition dev : WindowGroup :=
  group "Dev" [ref "Cursor" "main.ts"; ref "Terminal" "bash"].

Definition devDesktop : Desktop :=
  [app "Cursor" "com.todesktop.cursor" true [win "main.ts"];
   app "Terminal" "com.apple.Terminal" true [win "bash"];
   app "Notes" "com.apple.Notes" true [win "Untitled"]].

(** The same desktop with Terminal not running, and one with neither
    application of the Dev group running. *)
Definition noTerminal : Desktop :=
  [app "Cursor" "com.todesktop.cursor" true [win "main.ts"];
   app "Notes" "com.apple.Notes" true [win "Untitled"]].

Definition notesOnly : Desktop :=
  [app "Notes" "com.apple.Notes" true [win "Untitled"]].

(** A desktop with a Raycast window and a window whose title differs from
    the reference of the group [readme] in letter case only. *)
Definition mixedCase : @World Mac :=
  world [app "Raycast" "com.raycast.macos" true [win "Raycast"];
         app "Cursor" "com.todesktop.cursor" true [win "README.md"; win "main.ts"]]
        true.

Definition readme : WindowGroup := group "Docs" [ref "Cursor" "readme.md"].

(** A Finder window whose title is a single space. *)
Definition blankTitle : @World Mac :=
  world [app "Finder" "com.apple.finder" true [win " "]] true.

(** Two windows whose application names and titles differ and whose keys
    coincide. *)
Definition scopedA : WindowInfo := ref "Qt::Creator" "main.cpp".
Definition scopedB : WindowInfo := ref "Qt" "Creator::main.cpp".

(** A desktop on which Notes is hidden, and a group that names one of the
    three Cursor windows twice over and one of the two Notes windows. *)
Definition hiddenNotes : @World Mac :=
  world [app "Cursor" "com.todesktop.cursor" true
           [win "main.ts"; win "utils.ts"; win "notes.md"];
         app "Notes" "com.apple.Notes" false [win "Shopping"; win "Todo"]]
        true.

Definition focus : WindowGroup :=
  group "Focus" [ref "Cursor" "main.ts"; ref "Cursor" "utils.ts";
                 ref "Notes" "Shopping"].

(** A group whose title holds two backslashes in a row, which a script
    literal reads as one, and a desktop with a window so titled. *)
Definition escaped : WindowGroup := group "Temp" [ref "Finder" "C:\\temp"].

Definition oneBackslash : @World Mac :=
  world [app "Finder" "com.apple.finder" true [win "C:\temp"]] true.

(** A group whose title cannot be written as a script literal. *)
Definition paths : WindowGroup := group "Paths" [ref "Finder" "C:\Users"].

End Sample.

(** * The rest of the extension *)

(** ** storage.ts: updateGroup and getGroup *)

(** A [Partial<WindowGroup>]: the properties that are present. *)
Record GroupUpdates := {
  newId : option string;
  newName : option string;
  newWindows : option (list WindowInfo);
  newCreatedAt : option string;
  newUpdatedAt : option string
}.

(** The object literal of [updateGroup]: the group, then the updates spread
    over it, then [updatedAt] set to the present instant. *)
Definition applyUpdates (g : WindowGroup) (updates : GroupUpdates) (now : string)
  : WindowGroup :=
  {| id := default (id g) (newId updates);
     name := default (name g) (newName updates);
     windows := default (windows g) (newWindows updates);
     createdAt := default (createdAt g) (newCreatedAt updates);
     updatedAt := now |}.

Section MoreStorage.
Context `{Platform}.

Definition groupNotFound : Error := "Group not found".

Definition updateGroup (target : string) (updates : GroupUpdates) : Async unit :=
  gs <- loadGroups ;;
  match list_find (fun g => id g = target) gs with
  | None => throw groupNotFound
  | Some (index, g) =>
      now <- clock Date_toISOString ;;
      saveGroups (<[index := applyUpdates g updates now]> gs)
  end.

Definition getGroup (target : string) : Async (option WindowGroup) :=
  gs <- loadGroups ;;
  ret (snd <$> list_find (fun g => id g = target) gs).
End MoreStorage.

(** ** windowManager.ts: minimizeAllWindows, restoreAllWindows, isAppRunning

    The scripts of these three functions, and runAppleScript on them. *)

Inductive UtilityScript :=
| MinimizeAllScript
| RestoreAllScript
| ExistsProcessScript (escapedApp : string).

Class ScriptRunner `{Platform} := {
  runUtilityScript : UtilityScript -> World -> Outcome string * World
}.

Section MoreWindowManager.
Context `{ScriptRunner}.

Definition minimizeAllWindows : Async unit :=
  tryCatch (runUtilityScript MinimizeAllScript ;;; ret tt)
           (fun error => throw error).

Definition restoreAllWindows : Async unit :=
  tryCatch (runUtilityScript RestoreAllScript ;;; ret tt)
           (fun error => throw error).

Definition isAppRunning (app : string) : Async bool :=
  let escapedApp := JS.escapeQuotes app in
  tryCatch
    (result <- runUtilityScript (ExistsProcessScript escapedApp) ;;
     ret (String.eqb (JS.trim result) "true"))
    (fun _ => ret false).
End MoreWindowManager.

(** The three scripts on System Events. *)
Module Utility.
Import SystemEvents.

(** The script of [minimizeAllWindows].  It reads no name: the [try]
    around a process skips one whose bundle identifier or windows cannot be
    read, and a window that refuses to have its attribute set stays as it
    is. *)
Definition minimizeAny (w : Window) : Window :=
  if seenMinimized w then w else request true w.

Definition minimizeWhole (p : Process) : Process :=
  if userFacing p && bundleReadable p
     && negb (textEq (bundleIdentifier p) "com.raycast.macos")
     && windowsReadable p
  then setWindows (minimizeAny <$> procWindows p) p
  else p.

Definition minimizeEverything (d : Desktop) : Desktop := minimizeWhole <$> d.

(** The script of [restoreAllWindows]: every process that is not
    background-only, Raycast apart, is made visible and its minimized windows
    are unminimized.  The [try] around a process skips one whose bundle
    identifier cannot be read or that refuses to be made visible, before any
    of its windows is touched, and ends with a process that is made visible
    but whose windows cannot be read; the [try] around a window skips one
    whose attribute cannot be read or set. *)
Definition restoreWhole (p : Process) : Process :=
  if negb (backgroundOnly p) && bundleReadable p
     && negb (textEq (bundleIdentifier p) "com.raycast.macos")
     && showable p
  then if windowsReadable p
       then setWindows (unminimized <$> procWindows p) (setVisible true p)
       else setVisible true p
  else p.

Definition restoreEverything (d : Desktop) : Desktop := restoreWhole <$> d.

(** The script of [isAppRunning]: the text of [exists process app]. *)
Definition processExists (app : string) (d : Desktop) : string :=
  match processNamed app d with Some _ => "true" | None => "false" end.

Definition run (script : UtilityScript) (d : Desktop) : Outcome string * Desktop :=
  match script with
  | MinimizeAllScript => (Returned EmptyString, minimizeEverything d)
  | RestoreAllScript => (Returned EmptyString, restoreEverything d)
  | ExistsProcessScript escapedApp =>
      match readLiteral escapedApp with
      | Some app => (Returned (processExists app d), d)
      | None => (Thrown syntaxError, d)
      end
  end.

End Utility.

Definition macRunUtility (script : UtilityScript) (σ : MacWorld)
  : Outcome string * MacWorld :=
  let '(o, d) := Utility.run script (desktop σ) in (o, withDesktop d σ).

Global Instance MacRunner : ScriptRunner (H := Mac) := {|
  runUtilityScript := macRunUtility
|}.

(** ** switch-group.tsx and manage-groups.tsx: the other actions *)

Section MoreCommands.
Context `{ScriptRunner}.

(** [showAllWindows] of switch-group.tsx and [handleShowAll] of
    manage-groups.tsx are the same function: the final toast and the value
    of the [activeGroupId] state, which starts as [active]. *)
Definition showAllWindows (active : option string) : Async (Toast * option string) :=
  tryCatch
    (restoreAllWindows ;;;
     ret ({| toastStyle := Success; toastTitle := "All Windows Restored" |}, None))
    (fun error => ret ({| toastStyle := Failure; toastTitle := "Error" |}, active)).

(** [handleSwitchToGroup] of manage-groups.tsx. *)
Definition handleSwitchToGroup (group : WindowGroup) (active : option string)
  : Async (Toast * option string) :=
  tryCatch
    (minimizeAllExcept (windows group) ;;;
     result <- restoreWindows (windows group) ;;
     let active' := Some (id group) in
     if shown result =? 0
     then ret ({| toastStyle := Failure; toastTitle := "No Windows Found" |}, active')
     else if 0 <? length (notFound result)
     then ret ({| toastStyle := Success; toastTitle := "Partially Switched" |}, active')
     else ret ({| toastStyle := Success; toastTitle := "Switched Successfully" |}, active'))
    (fun error =>
       ret ({| toastStyle := Failure; toastTitle := "Error Switching" |}, active)).

(** [handleDeleteGroup] of manage-groups.tsx.  The answer to the
    confirmation alert is [confirmed]; [active] and [listed] are the
    [activeGroupId] and [groups] states when the action starts, and the
    result is the toast shown, if any, with the two states at the end. *)
Definition handleDeleteGroup (group : WindowGroup) (confirmed : bool)
  (active : option string) (listed : list WindowGroup)
  : Async (option Toast * option string * list WindowGroup) :=
  if confirmed then
    deleteGroup (id group) ;;;
    let active' :=
      if bool_decide (active = Some (id group)) then None else active in
    loadedGroups <- loadGroups ;;
    ret (Some {| toastStyle := Success; toastTitle := "Group Deleted" |},
         active', loadedGroups)
  else ret (None, active, listed).
End MoreCommands.

(** ** create-group.tsx: the windows offered and the selection *)

(** The keys of the windows of the existing groups, as the two nested loops
    of [loadOpenWindows] collect them. *)
Definition usedKeys (existingGroups : list WindowGroup) : gset string :=
  foldl (fun used group =>
           foldl (fun used w => used ∪ {[ appName w +:+ "::" +:+ windowTitle w ]})
                 used (windows group))
        ∅ existingGroups.

Section CreateGroup.
Context `{Platform}.

(** [loadOpenWindows]: the value given to the [openWindows] state. *)
Definition loadOpenWindows : Async (list WindowInfo) :=
  snapshot <- getOpenWindows ;;
  existingGroups <- loadGroups ;;
  let used := usedKeys existingGroups in
  ret (filter (fun w => appName w +:+ "::" +:+ windowTitle w ∉ used) snapshot).
End CreateGroup.

(** [toggleWindow]: the new value of the [selectedWindows] state. *)
Definition toggleWindow (window : WindowInfo) (selectedWindows : gset string)
  : gset string :=
  let key := getWindowKey window in
  if bool_decide (key ∈ selectedWindows)
  then selectedWindows ∖ {[ key ]}
  else selectedWindows ∪ {[ key ]}.

Definition getSelectedWindowsList (openWindows : list WindowInfo)
  (selectedWindows : gset string) : list WindowInfo :=
  filter (fun w => getWindowKey w ∈ selectedWindows) openWindows.

(** ** More sample worlds *)

Module MoreSample.
Import SystemEvents.

(** The updates that rename a group. *)
Definition rename (newName : string) : GroupUpdates :=
  {| newId := None; newName := Some newName; newWindows := None;
     newCreatedAt := None; newUpdatedAt := Some "1999-12-31T23:59:59.000Z" |}.

(** A world whose stored blob is not a JSON text. *)
Definition corrupted : @World Mac :=
  {| desktop := []; localStorage := {[ STORAGE_KEY := "{groups:" ]};
     storageOnline := true; ticks := 0 |}.

End MoreSample.

(** A text that does not begin with white space. *)
Definition startsClean (s : string) : Prop :=
  match s with
  | EmptyString => True
  | String c _ => JS.isSpace c = false
  end.

(** ** Vocabulary of the statements about the whole desktop *)

Module Whole.
Import SystemEvents Reading.

(** The processes that the script of [restoreAllWindows] restores: those
    that are not background-only and not Raycast, let their bundle
    identifier be read and let themselves be made visible. *)
Definition restorable (p : Process) : bool :=
  negb (backgroundOnly p) && bundleReadable p
  && negb (textEq (bundleIdentifier p) RAYCAST) && showable p.

(** Process [p'] is process [p] after [restoreAllWindows]: it has the
    windows it had, by their titles; if restorable it is
    visible and, if its windows can be read, every window of it is
    unminimized or refuses to be; its windows are as before if they cannot
    be read, and the process is as before if it is not restorable. *)
Definition restored (p p' : Process) : Prop :=
  procName p' = procName p /\
  bundleIdentifier p' = bundleIdentifier p /\
  backgroundOnly p' = backgroundOnly p /\
  winName <$> procWindows p' ≡ₚ winName <$> procWindows p /\
  if restorable p
  then visible p' = true /\
       if windowsReadable p
       then forall w, w ∈ procWindows p' ->
                      AXMinimized w = false \/ unminimizable w = false
       else procWindows p' = procWindows p
  else p' = p.

(** A window that lets its attribute AXMinimized be read and set; a process
    that lets its bundle identifier and its windows be read and itself be
    made visible, and whose windows are such; a desktop of such
    processes. *)
Definition grants (w : Window) : Prop :=
  attributeReadable w = true /\ attributeSettable w = true.

Definition compliantProcess (p : Process) : Prop :=
  bundleReadable p = true /\ windowsReadable p = true /\ showable p = true /\
  forall w, w ∈ procWindows p -> grants w.

Definition compliant (d : Desktop) : Prop :=
  forall p, p ∈ d -> compliantProcess p.

(** A process that is visible and has no minimized window, and a desktop
    of such processes. *)
Definition shownProcess (p : Process) : Prop :=
  visible p = true /\ forall w, w ∈ procWindows p -> AXMinimized w = false.

Definition fullyShown (d : Desktop) : Prop :=
  forall p, p ∈ d -> shownProcess p.

(** What one script of a switch may do to a process: it keeps the process
    and its windows, up to their order and their minimized flags. *)
Definition soft (p p' : Process) : Prop :=
  procName p' = procName p /\
  bundleIdentifier p' = bundleIdentifier p /\
  backgroundOnly p' = backgroundOnly p /\
  bundleReadable p' = bundleReadable p /\
  windowsReadable p' = windowsReadable p /\
  showable p' = showable p /\
  (visible p = true -> visible p' = true) /\
  setMinimized false <$> procWindows p' ≡ₚ setMinimized false <$> procWindows p /\
  (restorable p = false -> showable p = true -> visible p = true ->
   forall w, w ∈ procWindows p' -> AXMinimized w = false \/ w ∈ procWindows p).

(** Process [p] is the fully shown, compliant process [p0] in the course of
    a switch: still visible, with the same windows up to their order and
    their minimized flags, none of them minimized if [p0] is not
    restorable. *)
Definition dimmed (p0 p : Process) : Prop :=
  shownProcess p0 /\
  compliantProcess p0 /\
  procName p = procName p0 /\
  bundleIdentifier p = bundleIdentifier p0 /\
  backgroundOnly p = backgroundOnly p0 /\
  bundleReadable p = bundleReadable p0 /\
  windowsReadable p = windowsReadable p0 /\
  showable p = showable p0 /\
  visible p = true /\
  setMinimized false <$> procWindows p ≡ₚ setMinimized false <$> procWindows p0 /\
  (restorable p0 = false -> forall w, w ∈ procWindows p -> AXMinimized w = false).

End Whole.

Module OfferSample.

(** The desktop of the Dev scenario, with the group Work stored. *)
Definition busy : @World Mac := withDesktop Sample.devDesktop Sample.afterWork.

End OfferSample.

(** ** Vocabulary of the statement about the snapshot *)

Module Snapshot.
Import SystemEvents.

(** A text of the ASCII range. *)
Fixpoint asciiOnly (s : string) : bool :=
  match s with
  | EmptyString => true
  | String c r => (nat_of_ascii c <? 128) && asciiOnly r
  end.

(** A text of the ASCII range that [trim] leaves as it is and that holds
    neither a vertical bar nor a line feed, the characters the snapshot's
    lines are built from. *)
Definition tidy (s : string) : Prop :=
  asciiOnly s = true /\
  JS.trim s = s /\
  JS.includesChar "|" s = false /\
  JS.includesChar JS.LF s = false.

(** The processes that the snapshot script walks and reads. *)
Definition walked (p : Process) : bool := userFacing p && scriptable p.

(** Every text that the script writes out is tidy. *)
Definition tame (d : Desktop) : Prop :=
  forall p, p ∈ d -> walked p = true ->
    tidy (procName p) /\ tidy (bundleIdentifier p) /\
    forall w, w ∈ procWindows p -> listed w = true -> tidy (winName w).

(** The record of window [w] of process [p]. *)
Definition capture (p : Process) (w : Window) : WindowInfo :=
  {| appName := procName p; windowTitle := winName w;
     windowId := procName p +:+ "::" +:+ winName w;
     bundleId := Some (bundleIdentifier p) |}.

(** The titled windows that let their name be read and that the script
    does not see minimized, of the visible processes that are not
    background-only, let their name, bundle identifier and windows be read
    and whose bundle identifier is not Raycast's, written exactly so. *)
Definition onScreen (d : Desktop) : list WindowInfo :=
  p ← filter (fun p => walked p = true /\ bundleIdentifier p <> RAYCAST) d;
  capture p <$> filter (fun w => listed w = true) (procWindows p).

(** A line of the script's output without its line feed, and the lines of a
    desktop. *)
Definition textLine (p : Process) (w : Window) : string :=
  procName p +:+ "|||" +:+ winName w +:+ "|||" +:+ bundleIdentifier p.

Definition textLines (d : Desktop) : list string :=
  p ← filter (fun p => walked p = true) d;
  textLine p <$> filter (fun w => listed w = true) (procWindows p).

(** A line that survives [trim] and the split into lines. *)
Definition goodLine (l : string) : Prop :=
  l <> EmptyString /\ startsClean l /\ JS.trimEnd l = l /\
  JS.includesChar JS.LF l = false.

(** Lines joined by line feeds, and lines each followed by one. *)
Fixpoint interleave (lines : list string) : string :=
  match lines with
  | [] => EmptyString
  | [l] => l
  | l :: rest => l +:+ String JS.LF (interleave rest)
  end.

Definition terminated (lines : list string) : string :=
  foldr String.append EmptyString ((fun l => l +:+ String JS.LF EmptyString) <$> lines).

(** No two processes have the same name, letter case ignored. *)
Definition distinctNames (d : Desktop) : Prop :=
  forall p q, p ∈ d -> q ∈ d -> textEq (procName p) (procName q) = true -> p = q.

(** The processes that the snapshot script walks let themselves be brought
    to the front, and their windows let themselves be raised. *)
Definition responsive (d : Desktop) : Prop :=
  forall p, p ∈ d -> walked p = true ->
    frontable p = true /\ forall w, w ∈ procWindows p -> raisable w = true.

End Snapshot.

Module SnapshotSample.

(** The group of every window of the Dev desktop, as the snapshot records
    them. *)
Definition captured : WindowGroup :=
  Sample.group "Everything" (Snapshot.onScreen Sample.devDesktop).

End SnapshotSample.

(** Windows and processes that refuse requests. *)
Module FaultSample.
Import SystemEvents.

(** A window that cannot be minimized, one whose attribute cannot be read,
    one that cannot be raised and one whose name cannot be read. *)
Definition fixedWin (title : string) : Window :=
  {| winName := title; AXMinimized := false; titleReadable := true;
     attributeReadable := true;
     attributeSettable := false; raisable := true |}.

Definition opaqueWin (title : string) (minimized : bool) : Window :=
  {| winName := title; AXMinimized := minimized; titleReadable := true;
     attributeReadable := false;
     attributeSettable := true; raisable := true |}.

Definition heavyWin (title : string) (minimized : bool) : Window :=
  {| winName := title; AXMinimized := minimized; titleReadable := true;
     attributeReadable := true;
     attributeSettable := true; raisable := false |}.

Definition muteWin (title : string) : Window :=
  {| winName := title; AXMinimized := false; titleReadable := false;
     attributeReadable := true; attributeSettable := true; raisable := true |}.

(** The Dev desktop with a Notes window that cannot be minimized. *)
Definition stubbornNotes : @World Mac :=
  Sample.world
    [Sample.app "Cursor" "com.todesktop.cursor" true [Sample.win "main.ts"];
     Sample.app "Terminal" "com.apple.Terminal" true [Sample.win "bash"];
     Sample.app "Notes" "com.apple.Notes" true [fixedWin "Untitled"]]
    true.

(** The Dev desktop with a minimized Terminal window that cannot be
    raised. *)
Definition heavyTerminal : @World Mac :=
  Sample.world
    [Sample.app "Cursor" "com.todesktop.cursor" true [Sample.win "main.ts"];
     Sample.app "Terminal" "com.apple.Terminal" true [heavyWin "bash" true];
     Sample.app "Notes" "com.apple.Notes" true [Sample.win "Untitled"]]
    true.

(** A Finder window whose title holds a backslash, beside a Notes window
    that cannot be minimized. *)
Definition rough : @World Mac :=
  Sample.world
    [Sample.app "Finder" "com.apple.finder" true [Sample.win "C:\temp"];
     Sample.app "Notes" "com.apple.Notes" true [fixedWin "Untitled"]]
    true.

(** A desktop with a minimized window whose attribute cannot be read. *)
Definition opaqueNotes : @World Mac :=
  Sample.world
    [Sample.app "Notes" "com.apple.Notes" true [opaqueWin "Untitled" true]]
    true.

(** A process whose windows cannot be read. *)
Definition sealed (p : Process) : Process :=
  {| procName := procName p; bundleIdentifier := bundleIdentifier p;
     visible := visible p; backgroundOnly := backgroundOnly p;
     frontmost := frontmost p; procWindows := procWindows p;
     nameReadable := nameReadable p; bundleReadable := bundleReadable p;
     windowsReadable := false; showable := showable p;
     frontable := frontable p |}.

(** A hidden Notes whose windows cannot be read, with a minimized window. *)
Definition sealedNotes : @World Mac :=
  Sample.world
    [sealed (Sample.app "Notes" "com.apple.Notes" false
               [SystemEvents.setMinimized true (Sample.win "Untitled")])]
    true.

(** A desktop with a window whose name cannot be read. *)
Definition muteNotes : @World Mac :=
  Sample.world
    [Sample.app "Notes" "com.apple.Notes" true [muteWin "Untitled"]]
    true.

End FaultSample.

(** * Proofs *)

(** ** The asynchronous layer *)

Section AsyncFacts.
Context `{Platform}.

Lemma bind_returned {A B} (m : Async A) (k : A -> Async B) σ a σ' :
  m σ = (Returned a, σ') -> bind m k σ = k a σ'.
Proof. unfold bind. now intros ->. Qed.

Lemma bind_thrown {A B} (m : Async A) (k : A -> Async B) σ e σ' :
  m σ = (Thrown e, σ') -> bind m k σ = (Thrown e, σ').
Proof. unfold bind. now intros ->. Qed.

Lemma tryCatch_returned {A} (m : Async A) h σ a σ' :
  m σ = (Returned a, σ') -> tryCatch m h σ = (Returned a, σ').
Proof. unfold tryCatch. now intros ->. Qed.

Lemma tryCatch_thrown {A} (m : Async A) h σ e σ' :
  m σ = (Thrown e, σ') -> tryCatch m h σ = h e σ'.
Proof. unfold tryCatch. now intros ->. Qed.

End AsyncFacts.

(** ** storage.ts *)

Section StorageFacts.
Context `{Platform}.

Lemma loadGroups_returns σ : exists gs σ', loadGroups σ = (Returned gs, σ').
Proof.
  unfold loadGroups, tryCatch, bind, lift, ret.
  destruct (LocalStorage_getItem STORAGE_KEY σ) as [[[text|]|e] σ']; eauto.
  destruct (JS.truthy (Some text)); eauto.
  destruct (JSON_parse text); eauto.
Qed.

Lemma loadGroups_stored σ σ' text gs :
  LocalStorage_getItem STORAGE_KEY σ = (Returned (Some text), σ') ->
  text <> EmptyString ->
  JSON_parse text = Returned {| groups := Some gs |} ->
  loadGroups σ = (Returned gs, σ').
Proof.
  intros Hget Hne Hparse. unfold loadGroups, tryCatch, bind, lift, ret.
  rewrite Hget. cbn.
  destruct (String.eqb_spec text EmptyString) as [->|_]; [done|].
  cbn. now rewrite Hparse.
Qed.

Lemma saveGroups_returned gs σ σ' :
  saveGroups gs σ = (Returned tt, σ') <->
  LocalStorage_setItem STORAGE_KEY (JSON_stringify {| groups := Some gs |}) σ
    = (Returned tt, σ').
Proof.
  unfold saveGroups, tryCatch, throw.
  destruct (LocalStorage_setItem _ _ σ) as [[[]|e] σ1]; split; congruence.
Qed.

Lemma written_is_loaded gs σ σ' :
  KeyValueStore ->
  JSONFaithful gs ->
  LocalStorage_setItem STORAGE_KEY (JSON_stringify {| groups := Some gs |}) σ
    = (Returned tt, σ') ->
  loadGroups σ' = (Returned gs, σ').
Proof.
  intros Hkv [Hparse Hne] Hset. apply Hkv in Hset.
  eapply loadGroups_stored; eauto.
Qed.

Lemma filter_keeps_all {A} (P : A -> Prop) `{!forall x, Decision (P x)} (l : list A) :
  (forall x, x ∈ l -> P x) -> filter P l = l.
Proof.
  induction l as [|x l IH]; intros Hall; [reflexivity|].
  rewrite filter_cons_True by (apply Hall; left).
  f_equal. apply IH. intros y Hy. apply Hall. now right.
Qed.

(** C6. Loading never propagates a fault: whenever reading the stored blob
    throws, nothing (or an empty text) is stored, or the blob does not parse,
    [loadGroups] returns the empty list; a fault of the write is rethrown by
    [saveGroups]. *)
Theorem loadGroups_degrades_saveGroups_propagates
  (σ σ' : World) (gs : list WindowGroup) (e : Error) :
  (exists loaded σ1, loadGroups σ = (Returned loaded, σ1)) /\
  (LoadFails σ σ' -> loadGroups σ = (Returned [], σ')) /\
  (LocalStorage_setItem STORAGE_KEY (JSON_stringify {| groups := Some gs |}) σ
     = (Thrown e, σ') ->
   saveGroups gs σ = (Thrown e, σ')).
Proof.
  split; [apply loadGroups_returns|]. split.
  - intros Hfail. unfold loadGroups, tryCatch, bind, lift, ret.
    destruct Hfail as [e' Hget | data Hget Hfalsy | text e' Hget Hparse];
      rewrite Hget.
    + reflexivity.
    + destruct data as [text|]; [|reflexivity]. now rewrite Hfalsy.
    + destruct (JS.truthy (Some text)); [|reflexivity]. now rewrite Hparse.
  - intros Hset. unfold saveGroups, tryCatch, throw. now rewrite Hset.
Qed.

(** C10. On a key-value store, and for groups that JSON writes and reads back
    faithfully, the groups saved are the groups loaded next: same groups,
    same order, same fields. *)
Theorem saveGroups_loadGroups_roundtrip (gs : list WindowGroup) (σ σ' : World) :
  KeyValueStore ->
  JSONFaithful gs ->
  saveGroups gs σ = (Returned tt, σ') ->
  loadGroups σ' = (Returned gs, σ').
Proof.
  intros Hkv Hjson Hsave.
  apply saveGroups_returned in Hsave.
  eapply written_is_loaded; eauto.
Qed.

(** C8. With the groups [gs] stored and a store that takes the write,
    [deleteGroup target] succeeds and the groups loaded next are exactly the
    groups of [gs] whose id is not [target], each unchanged and in the same
    order; when no group has that id they are [gs] itself. *)
Theorem deleteGroup_removes_only_target
  (target : string) (gs : list WindowGroup) (σ σ0 σ1 : World) :
  KeyValueStore ->
  loadGroups σ = (Returned gs, σ0) ->
  JSONFaithful (filter (fun g => id g ≠ target) gs) ->
  LocalStorage_setItem STORAGE_KEY
    (JSON_stringify {| groups := Some (filter (fun g => id g ≠ target) gs) |}) σ0
    = (Returned tt, σ1) ->
  deleteGroup target σ = (Returned tt, σ1) /\
  exists remaining,
    loadGroups σ1 = (Returned remaining, σ1) /\
    remaining = filter (fun g => id g ≠ target) gs /\
    (forall g, g ∈ remaining <-> g ∈ gs /\ id g ≠ target) /\
    sublist remaining gs /\
    ((forall g, g ∈ gs -> id g ≠ target) -> remaining = gs).
Proof.
  intros Hkv Hload Hjson Hset.
  assert (Hdel : deleteGroup target σ = (Returned tt, σ1)).
  { unfold deleteGroup. rewrite (bind_returned _ _ _ _ _ Hload).
    now apply saveGroups_returned. }
  split; [exact Hdel|].
  exists (filter (fun g => id g ≠ target) gs). split; [|split; [|split; [|split]]].
  - eapply written_is_loaded; eauto.
  - reflexivity.
  - intros g. rewrite list_elem_of_filter. tauto.
  - apply sublist_filter.
  - intros Hall. now apply filter_keeps_all.
Qed.

(** C7. Names are compared ignoring case when a group is created: if some
    stored group has the submitted name up to letter case, [handleSubmit]
    shows the name-collision failure and stops in the world that reading the
    groups left, so nothing is written and no group is added. *)
Theorem handleSubmit_rejects_taken_name
  (valuesName : string) (selectedWindows : list WindowInfo)
  (gs : list WindowGroup) (σ σ1 : World) :
  loadGroups σ = (Returned gs, σ1) ->
  JS.trim valuesName <> EmptyString ->
  (exists g, g ∈ gs /\
     JS.toLowerCase (name g) = JS.toLowerCase (JS.trim valuesName)) ->
  handleSubmit valuesName selectedWindows σ
    = (Returned {| toastStyle := Failure;
                   toastTitle := "A group with this name already exists" |}, σ1).
Proof.
  intros Hload Hname (g & Hin & Hsame). unfold handleSubmit.
  destruct (String.eqb_spec (JS.trim valuesName) EmptyString) as [?|_]; [done|].
  rewrite (bind_returned _ _ _ _ _ Hload).
  assert (Hex : existsb (fun g0 => String.eqb (JS.toLowerCase (name g0))
                                     (JS.toLowerCase (JS.trim valuesName))) gs = true).
  { apply existsb_exists. exists g. split; [now apply list_elem_of_In|].
    now apply String.eqb_eq. }
  now rewrite Hex.
Qed.

End StorageFacts.

(** The [Mac] platform keeps the contract of a key-value store. *)
Lemma Mac_KeyValueStore : KeyValueStore (H := Mac).
Proof.
  intros key value σ σ'. cbn. unfold macSetItem, macGetItem.
  destruct (storageOnline σ) eqn:Hon; [|discriminate].
  intros [= <-]. cbn. rewrite Hon. now rewrite lookup_insert_eq.
Qed.

Lemma loadGroups_degrades_saveGroups_propagates_witness :
  LoadFails Sample.offline Sample.offline /\
  loadGroups Sample.offline = (Returned [], Sample.offline) /\
  LocalStorage_setItem STORAGE_KEY
    (JSON_stringify {| groups := Some [Sample.work] |}) Sample.offline
    = (Thrown storageError, Sample.offline) /\
  saveGroups [Sample.work] Sample.offline = (Thrown storageError, Sample.offline).
Proof.
  destruct (loadGroups_degrades_saveGroups_propagates
              Sample.offline Sample.offline [Sample.work] storageError)
    as (_ & Hload & Hsave).
  assert (Hfail : LoadFails Sample.offline Sample.offline)
    by (apply (getItem_throws _ _ storageError); reflexivity).
  split; [exact Hfail|]. split; [exact (Hload Hfail)|].
  split; [reflexivity|]. apply Hsave. reflexivity.
Defined.

Lemma saveGroups_loadGroups_roundtrip_witness :
  JSONFaithful [Sample.work; Sample.play] /\
  saveGroups [Sample.work; Sample.play] Sample.empty
    = (Returned tt, Sample.twoGroups) /\
  loadGroups Sample.twoGroups
    = (Returned [Sample.work; Sample.play], Sample.twoGroups).
Proof.
  assert (Hjson : JSONFaithful (H := Mac) [Sample.work; Sample.play])
    by (split; [vm_compute; reflexivity | vm_compute; discriminate]).
  assert (Hsave : saveGroups [Sample.work; Sample.play] Sample.empty
                  = (Returned tt, Sample.twoGroups)) by reflexivity.
  split; [exact Hjson|]. split; [exact Hsave|].
  exact (saveGroups_loadGroups_roundtrip _ _ _ Mac_KeyValueStore Hjson Hsave).
Defined.

Lemma deleteGroup_removes_only_target_witness :
  deleteGroup "0" Sample.twoGroups
    = (Returned tt, snd (saveGroups [Sample.play] Sample.empty)) /\
  exists remaining,
    loadGroups (snd (saveGroups [Sample.play] Sample.empty))
      = (Returned remaining, snd (saveGroups [Sample.play] Sample.empty)) /\
    remaining = filter (fun g => id g ≠ "0") [Sample.work; Sample.play] /\
    (forall g, g ∈ remaining <-> g ∈ [Sample.work; Sample.play] /\ id g ≠ "0") /\
    sublist remaining [Sample.work; Sample.play] /\
    ((forall g, g ∈ [Sample.work; Sample.play] -> id g ≠ "0") ->
     remaining = [Sample.work; Sample.play]).
Proof.
  apply (deleteGroup_removes_only_target "0" [Sample.work; Sample.play]
           Sample.twoGroups Sample.twoGroups).
  - exact Mac_KeyValueStore.
  - vm_compute. reflexivity.
  - split; [vm_compute; reflexivity | vm_compute; discriminate].
  - vm_compute. reflexivity.
Defined.

Lemma handleSubmit_rejects_taken_name_witness :
  loadGroups Sample.afterWork = (Returned [Sample.work], Sample.afterWork) /\
  handleSubmit "work" [Sample.ref "Notes" "Todo"] Sample.afterWork
    = (Returned {| toastStyle := Failure;
                   toastTitle := "A group with this name already exists" |},
       Sample.afterWork).
Proof.
  assert (Hload : loadGroups Sample.afterWork
                  = (Returned [Sample.work], Sample.afterWork))
    by (vm_compute; reflexivity).
  split; [exact Hload|].
  apply (handleSubmit_rejects_taken_name "work" _ [Sample.work] _ _ Hload).
  - vm_compute. discriminate.
  - exists Sample.work. split; [left | reflexivity].
Defined.

(** ** Window keys *)

Section KeyFacts.

Lemma append_cancel_l (a s s' : string) : a +:+ s = a +:+ s' -> s = s'.
Proof. induction a as [|c a IH]; cbn; [done|]. intros [= Heq]. auto. Qed.

(** Two texts free of the character that opens the separator are separated
    from what follows them in one way. *)
Lemma separator_splits_once (c : ascii) (sep a a' t t' : string) :
  JS.includesChar c a = false ->
  JS.includesChar c a' = false ->
  a +:+ String c sep +:+ t = a' +:+ String c sep +:+ t' ->
  a = a' /\ t = t'.
Proof.
  revert a'. induction a as [|x a IH]; intros [|x' a'] Ha Ha' Heq; cbn in *.
  - split; [done|]. injection Heq as Heq. now apply append_cancel_l in Heq.
  - injection Heq as -> _. now rewrite Ascii.eqb_refl in Ha'.
  - injection Heq as -> _. now rewrite Ascii.eqb_refl in Ha.
  - injection Heq as -> Heq.
    apply orb_false_iff in Ha as [_ Ha]. apply orb_false_iff in Ha' as [_ Ha'].
    destruct (IH a' Ha Ha' Heq) as [-> ->]. done.
Qed.

Lemma textEq_spec (a b : string) :
  SystemEvents.textEq a b = true <-> JS.toLowerCase a = JS.toLowerCase b.
Proof. unfold SystemEvents.textEq. apply String.eqb_eq. Qed.

(** C2 (amended). Equal application names and titles give equal keys, and
    equal keys give equal names and titles when neither application name
    contains the character that opens the separator: the colon for
    [getWindowKey], the bar for the key of [minimizeAllExcept].  The keys are
    compared exactly by the TypeScript code; the script of
    [minimizeAllExcept] compares them ignoring letter case. *)
Theorem keys_identify_separator_free_names (r w : WindowInfo) :
  (sameWindow r w -> getWindowKey r = getWindowKey w /\ keepKey r = keepKey w) /\
  (JS.includesChar ":" (appName r) = false ->
   JS.includesChar ":" (appName w) = false ->
   getWindowKey r = getWindowKey w -> sameWindow r w) /\
  (JS.includesChar "|" (appName r) = false ->
   JS.includesChar "|" (appName w) = false ->
   keepKey r = keepKey w -> sameWindow r w) /\
  (SystemEvents.shouldKeep [keepKey r] (keepKey w) = true <->
   JS.toLowerCase (keepKey r) = JS.toLowerCase (keepKey w)).
Proof.
  unfold sameWindow, getWindowKey, keepKey.
  split; [|split; [|split]].
  - intros [-> ->]. done.
  - intros Hr Hw Heq. exact (separator_splits_once ":" ":" _ _ _ _ Hr Hw Heq).
  - intros Hr Hw Heq. exact (separator_splits_once "|" "||" _ _ _ _ Hr Hw Heq).
  - cbn. rewrite orb_false_r. apply textEq_spec.
Qed.

Lemma keys_identify_separator_free_names_witness :
  let r := Sample.ref "Cursor" "main.ts" in
  let w := Sample.ref "Cursor" "main.ts" in
  JS.includesChar ":" (appName r) = false /\
  JS.includesChar "|" (appName r) = false /\
  (getWindowKey r = getWindowKey w -> sameWindow r w) /\
  (keepKey r = keepKey w -> sameWindow r w).
Proof.
  destruct (keys_identify_separator_free_names
              (Sample.ref "Cursor" "main.ts") (Sample.ref "Cursor" "main.ts"))
    as (_ & Hcolon & Hbar & _).
  split; [reflexivity|]. split; [reflexivity|]. split.
  - apply Hcolon; reflexivity.
  - apply Hbar; reflexivity.
Defined.

(** C2, as stated, fails: the keys of two different windows coincide when the
    separator occurs in a name or a title. *)
Lemma getWindowKey_collision : ~ keysIdentify Sample.scopedA Sample.scopedB.
Proof.
  unfold keysIdentify. intros [Hkey _].
  assert (Hsame : sameWindow Sample.scopedA Sample.scopedB)
    by (apply Hkey; reflexivity).
  destruct Hsame as [Happ _]. discriminate Happ.
Qed.

End KeyFacts.

(** ** windowManager.ts on any platform *)

Section WindowManagerFacts.
Context `{Platform}.

Lemma showApps_returns (uniqueApps : list string) (σ : World) :
  exists σ', showApps uniqueApps σ = (Returned tt, σ').
Proof.
  revert σ. induction uniqueApps as [|app rest IH]; intros σ; cbn.
  - now exists σ.
  - unfold bind at 1, tryCatch, bind, ret.
    destruct (runAppleScript _ σ) as [[result|e] σ1]; apply IH.
Qed.

Lemma restoreOne_query (window : WindowInfo) (acc : SwitchResult) (σ : World) :
  restoreOne window acc σ =
    (Returned (if fst (queryWindow window σ) then countShown acc
               else pushNotFound window acc),
     snd (queryWindow window σ)).
Proof.
  unfold restoreOne, queryWindow, tryCatch, bind, ret.
  destruct (runAppleScript _ σ) as [[result|e] σ1]; cbn; [|reflexivity].
  now destruct (String.eqb (JS.trim result) "found").
Qed.

Lemma restoreEach_trace (savedWindows : list WindowInfo) (acc : SwitchResult)
  (σ : World) :
  exists σ',
    restoreEach savedWindows acc σ =
      (Returned
         {| shown := shown acc
                     + length (filter (fun x => snd x = true)
                                      (restoreTrace savedWindows σ));
            notFound := notFound acc
                        ++ (fst <$> filter (fun x => snd x = false)
                                           (restoreTrace savedWindows σ)) |},
       σ').
Proof.
  revert acc σ. induction savedWindows as [|window rest IH]; intros acc σ; cbn.
  - exists σ. unfold ret. destruct acc as [n l]; cbn.
    now rewrite Nat.add_0_r, app_nil_r.
  - unfold bind at 1. rewrite restoreOne_query.
    destruct (queryWindow window σ) as [found σ1]; cbn.
    destruct found.
    + destruct (IH (countShown acc) σ1) as [σ' ->]. exists σ'.
      repeat case_decide; try congruence.
      cbn. now rewrite Nat.add_succ_r.
    + destruct (IH (pushNotFound window acc) σ1) as [σ' ->]. exists σ'.
      repeat case_decide; try congruence.
      cbn. now rewrite <- app_assoc.
Qed.

Lemma restoreTrace_refs (savedWindows : list WindowInfo) (σ : World) :
  fst <$> restoreTrace savedWindows σ = savedWindows.
Proof.
  revert σ. induction savedWindows as [|window rest IH]; intros σ; cbn; [done|].
  destruct (queryWindow window σ) as [found σ1]; cbn. now rewrite IH.
Qed.

Lemma filter_split_length {A} (P : A -> bool) (l : list A) :
  length (filter (fun x => P x = true) l)
  + length (filter (fun x => P x = false) l) = length l.
Proof.
  induction l as [|x l IH]; [done|].
  destruct (P x) eqn:Hx.
  - rewrite filter_cons_True, filter_cons_False by congruence. cbn. lia.
  - rewrite filter_cons_False, filter_cons_True by congruence. cbn. lia.
Qed.

Lemma restoreWindows_returns (savedWindows : list WindowInfo) (σ : World) :
  exists res σ', restoreWindows savedWindows σ = (Returned res, σ').
Proof.
  unfold restoreWindows.
  destruct (showApps_returns (JS.unique [] (appName <$> savedWindows)) σ)
    as [σv Hshow].
  rewrite (bind_returned _ _ _ _ _ Hshow).
  destruct (restoreEach_trace savedWindows {| shown := 0; notFound := [] |} σv)
    as [σ' ->].
  eauto.
Qed.

(** C4. [restoreWindows] always returns.  After the visibility pass, which
    ends in some world [σv], the references are queried in list order; a
    reference whose query answers found is counted in [shown], and one whose
    query answers anything else or throws is appended to [notFound], the
    loop going on with the next reference.  Hence [shown] plus the length of
    [notFound] is the number of references, and [notFound] keeps their
    order. *)
Theorem restoreWindows_tallies_every_reference
  (savedWindows : list WindowInfo) (σ : World) :
  exists σv res σ',
    showApps (JS.unique [] (appName <$> savedWindows)) σ = (Returned tt, σv) /\
    restoreWindows savedWindows σ = (Returned res, σ') /\
    fst <$> restoreTrace savedWindows σv = savedWindows /\
    shown res
      = length (filter (fun x => snd x = true) (restoreTrace savedWindows σv)) /\
    notFound res
      = fst <$> filter (fun x => snd x = false) (restoreTrace savedWindows σv) /\
    shown res + length (notFound res) = length savedWindows /\
    sublist (notFound res) savedWindows.
Proof.
  destruct (showApps_returns (JS.unique [] (appName <$> savedWindows)) σ)
    as [σv Hshow].
  destruct (restoreEach_trace savedWindows {| shown := 0; notFound := [] |} σv)
    as [σ' Hloop].
  cbn in Hloop. eexists σv, _, σ'. split; [exact Hshow|]. split.
  { unfold restoreWindows. rewrite (bind_returned _ _ _ _ _ Hshow). exact Hloop. }
  cbn. split; [apply restoreTrace_refs|]. split; [done|]. split; [done|]. split.
  - rewrite length_fmap.
    rewrite (filter_split_length snd).
    rewrite <- (restoreTrace_refs savedWindows σv) at 2. now rewrite length_fmap.
  - rewrite <- (restoreTrace_refs savedWindows σv) at 2.
    apply fmap_sublist, sublist_filter.
Qed.

(** C5 (amended). A fault of the exclusionary minimize makes the switch fail
    as a whole: [switchTo] throws the same error without producing a
    [SwitchResult], [switchToGroup] shows the error toast and leaves the
    active group as it was.  [restoreWindows], and with it the visibility
    pass, never throws: a rejected visibility request is swallowed and the
    switch goes on. *)
Theorem minimize_fault_fails_switch
  (group : WindowGroup) (active : option string) (σ σ' : World) (e : Error) :
  minimizeAllExcept (windows group) σ = (Thrown e, σ') ->
  switchTo group σ = (Thrown e, σ') /\
  switchToGroup group active σ
    = (Returned ({| toastStyle := Failure; toastTitle := "Error" |}, active), σ') /\
  (forall ws σ0, exists res σ1, restoreWindows ws σ0 = (Returned res, σ1)).
Proof.
  intros Hmin.
  assert (Hswitch : switchTo group σ = (Thrown e, σ')).
  { unfold switchTo. now rewrite (bind_thrown _ _ _ _ _ Hmin). }
  split; [exact Hswitch|]. split.
  - unfold switchToGroup.
    rewrite (tryCatch_thrown _ _ _ e σ'); [reflexivity|].
    now rewrite (bind_thrown _ _ _ _ _ Hswitch).
  - apply restoreWindows_returns.
Qed.

End WindowManagerFacts.

Lemma minimize_fault_fails_switch_witness :
  let σ := Sample.world Sample.devDesktop true in
  minimizeAllExcept (windows Sample.paths) σ
    = (Thrown SystemEvents.syntaxError, σ) /\
  switchTo Sample.paths σ = (Thrown SystemEvents.syntaxError, σ) /\
  switchToGroup Sample.paths None σ
    = (Returned ({| toastStyle := Failure; toastTitle := "Error" |}, None), σ) /\
  (forall ws σ0, exists res σ1, restoreWindows ws σ0 = (Returned res, σ1)).
Proof.
  assert (Hmin : minimizeAllExcept (windows Sample.paths)
                   (Sample.world Sample.devDesktop true)
                 = (Thrown SystemEvents.syntaxError,
                    Sample.world Sample.devDesktop true))
    by (vm_compute; reflexivity).
  split; [exact Hmin|].
  exact (minimize_fault_fails_switch Sample.paths None _ _ _ Hmin).
Defined.

(** C5, as stated, fails: on a platform that rejects every visibility
    request the switch to the Dev group still returns its result. *)
Lemma visibility_fault_is_swallowed :
  ~ phaseFaultsPropagate (H := NoVisibility) Sample.dev
      (Sample.world Sample.devDesktop true).
Proof.
  intros Hclaim.
  destruct Hclaim as (e & σ' & Hthrown).
  - right. eexists. split; vm_compute; reflexivity.
  - vm_compute in Hthrown. discriminate Hthrown.
Qed.

(** C9. The snapshot of a desktop whose Finder window is titled by a single
    space holds a window with an empty title: the script lets the title
    pass, as it is not the empty text, and [getOpenWindows] trims it. *)
Theorem getOpenWindows_captures_blank_title :
  getOpenWindows Sample.blankTitle
    = (Returned [ {| appName := "Finder"; windowTitle := EmptyString;
                     windowId := "Finder::";
                     bundleId := Some "com.apple.finder" |} ],
       Sample.blankTitle)
  /\ ~ capturedNonEmpty
         [ {| appName := "Finder"; windowTitle := EmptyString;
              windowId := "Finder::"; bundleId := Some "com.apple.finder" |} ].
Proof.
  split; [vm_compute; reflexivity|].
  intros Hall. apply Forall_cons in Hall as [[_ Htitle] _]. now apply Htitle.
Qed.

(** ** Texts and script literals *)

Section TextFacts.
Import SystemEvents.

Lemma textEq_refl (a : string) : textEq a a = true.
Proof. now apply textEq_spec. Qed.

Lemma textEq_sym (a b : string) : textEq a b = textEq b a.
Proof. unfold textEq. apply String.eqb_sym. Qed.

Lemma textEq_trans (a b c : string) :
  textEq a b = true -> textEq b c = true -> textEq a c = true.
Proof. rewrite !textEq_spec. congruence. Qed.

(** Texts equal up to case are interchangeable in a comparison. *)
Lemma textEq_class (a b x : string) :
  textEq a b = true -> textEq x a = textEq x b.
Proof.
  intros Hab. destruct (textEq x b) eqn:Hxb.
  - rewrite textEq_sym in Hab. eapply textEq_trans; eauto.
  - destruct (textEq x a) eqn:Hxa; [|done].
    rewrite <- Hxb. symmetry. eapply textEq_trans; eauto.
Qed.

Lemma append_cons (c : ascii) (a b : string) :
  String c a +:+ b = String c (a +:+ b).
Proof. reflexivity. Qed.

Lemma toLowerCase_app (a b : string) :
  JS.toLowerCase (a +:+ b) = JS.toLowerCase a +:+ JS.toLowerCase b.
Proof.
  induction a as [|c a IH]; [done|].
  rewrite append_cons. cbn. rewrite append_cons. now rewrite IH.
Qed.

Lemma textEq_key (app title pname wname : string) :
  textEq pname app = true -> textEq wname title = true ->
  textEq (app +:+ "|||" +:+ title) (pname +:+ "|||" +:+ wname) = true.
Proof.
  intros Hp Hw. apply textEq_spec in Hp, Hw. apply textEq_spec.
  rewrite !toLowerCase_app. now rewrite Hp, Hw.
Qed.

Lemma plain_cons (c : ascii) (s : string) :
  plain (String c s) <-> Ascii.eqb c JS.backslash = false /\ plain s.
Proof.
  unfold plain.
  change (JS.includesChar JS.backslash (String c s))
    with (Ascii.eqb JS.backslash c || JS.includesChar JS.backslash s).
  now rewrite orb_false_iff, (Ascii.eqb_sym c).
Qed.

Lemma plain_app (a b : string) : plain a -> plain b -> plain (a +:+ b).
Proof.
  induction a as [|c a IH]; [done|].
  rewrite append_cons, !plain_cons. intros [Hc Ha] Hb. auto.
Qed.

Lemma plain_keepKey (r : WindowInfo) : plainRef r -> plain (keepKey r).
Proof.
  intros [Ha Ht]. unfold keepKey. apply plain_app; [done|].
  now apply plain_app.
Qed.

Lemma readLiteral_cons (c : ascii) (rest : string) :
  readLiteral (String c rest)
  = if Ascii.eqb c JS.backslash then
      match rest with
      | String d rest' =>
          match unescape d, readLiteral rest' with
          | Some ch, Some text => Some (String ch text)
          | _, _ => None
          end
      | EmptyString => None
      end
    else if Ascii.eqb c JS.quote then None
    else String c <$> readLiteral rest.
Proof. reflexivity. Qed.

Lemma escapeQuotes_cons (c : ascii) (s : string) :
  JS.escapeQuotes (String c s)
  = if Ascii.eqb c JS.quote
    then String JS.backslash (String JS.quote (JS.escapeQuotes s))
    else String c (JS.escapeQuotes s).
Proof. reflexivity. Qed.

Lemma readLiteral_escapeQuotes (s : string) :
  plain s -> readLiteral (JS.escapeQuotes s) = Some s.
Proof.
  induction s as [|c s IH]; [done|].
  intros [Hc Hs]%plain_cons. specialize (IH Hs).
  rewrite escapeQuotes_cons.
  destruct (Ascii.eqb c JS.quote) eqn:Hq.
  - apply Ascii.eqb_eq in Hq as ->. cbn. now rewrite IH.
  - rewrite readLiteral_cons. now rewrite Hc, Hq, IH.
Qed.

Lemma readLiterals_escapeQuotes (ks : list string) :
  Forall plain ks -> mapM readLiteral (JS.escapeQuotes <$> ks) = Some ks.
Proof.
  intros Hall. apply mapM_Some. apply Forall2_fmap_l.
  apply Forall_Forall2_diag. eapply Forall_impl; [exact Hall|].
  intros k Hk. now apply readLiteral_escapeQuotes.
Qed.

Lemma unique_plain (seen xs : list string) :
  Forall plain xs -> Forall plain (JS.unique seen xs).
Proof.
  revert seen. induction xs as [|x xs IH]; intros seen Hall; cbn; [done|].
  apply Forall_cons in Hall as [Hx Hxs].
  destruct (bool_decide (x ∈ seen)); [auto|]. constructor; auto.
Qed.

Lemma unique_subset (seen xs : list string) (x : string) :
  x ∈ JS.unique seen xs -> x ∈ xs.
Proof.
  revert seen. induction xs as [|y xs IH]; intros seen; cbn; [done|].
  destruct (bool_decide (y ∈ seen)).
  - intros Hin. right. eauto.
  - intros [->|Hin]%elem_of_cons; [left|right; eauto].
Qed.

End TextFacts.

(** ** System Events: lookups and the effect of one script *)

(** ** What System Events receives *)

Section DeliverFacts.
Import SystemEvents Reading.

Lemma escapeQuotes_app (a b : string) :
  JS.escapeQuotes (a +:+ b) = JS.escapeQuotes a +:+ JS.escapeQuotes b.
Proof.
  induction a as [|c a IH]; [done|].
  rewrite append_cons, !escapeQuotes_cons, IH.
  now destruct (Ascii.eqb c JS.quote).
Qed.

Lemma readLiteral_bar (rest : string) :
  readLiteral (String "|" rest) = String "|" <$> readLiteral rest.
Proof. now rewrite readLiteral_cons. Qed.

(** A literal that compiles and holds a vertical bar is read piece by
    piece: the text before the bar is a literal of its own. *)
Lemma readLiteral_split_both (b : string) (a : string) :
  (forall k, readLiteral (a +:+ String "|" b) = Some k ->
     exists a' b', readLiteral a = Some a' /\
                   readLiteral (String "|" b) = Some b' /\ k = a' +:+ b') /\
  (forall c k, readLiteral (String c a +:+ String "|" b) = Some k ->
     exists a' b', readLiteral (String c a) = Some a' /\
                   readLiteral (String "|" b) = Some b' /\ k = a' +:+ b').
Proof.
  induction a as [|x a [IH0 IH1]].
  - split.
    + intros k Hk. exists EmptyString, k. done.
    + intros c k. rewrite append_cons. change (EmptyString +:+ ?s) with s.
      rewrite (readLiteral_cons c (String "|" b)), (readLiteral_cons c EmptyString).
      destruct (Ascii.eqb c JS.backslash).
      { change (unescape "|") with (@None ascii). done. }
      destruct (Ascii.eqb c JS.quote); [done|].
      intros (k' & Hk' & ->)%fmap_Some.
      exists (String c EmptyString), k'. done.
  - split; [exact (IH1 x)|].
    intros c k. rewrite !append_cons.
    rewrite (readLiteral_cons c (String x (a +:+ String "|" b))),
      (readLiteral_cons c (String x a)).
    destruct (Ascii.eqb c JS.backslash).
    + destruct (unescape x) as [ch|]; [|done].
      destruct (readLiteral (a +:+ String "|" b)) as [text|] eqn:Htext; [|done].
      intros [= <-]. destruct (IH0 text eq_refl) as (a' & b' & -> & Hb & ->).
      exists (String ch a'), b'. done.
    + destruct (Ascii.eqb c JS.quote); [done|].
      change (String x (a +:+ String "|" b)) with (String x a +:+ String "|" b).
      intros (k' & Hk' & ->)%fmap_Some.
      destruct (IH1 x k' Hk') as (a' & b' & -> & Hb & ->).
      exists (String c a'), b'. done.
Qed.

Lemma readLiteral_split (a b k : string) :
  readLiteral (a +:+ String "|" b) = Some k ->
  exists a' b', readLiteral a = Some a' /\
                readLiteral (String "|" b) = Some b' /\ k = a' +:+ b'.
Proof. apply readLiteral_split_both. Qed.

(** A key that compiles is the key of the delivered reference. *)
Lemma deliveredKey (r : WindowInfo) (k : string) :
  readLiteral (JS.escapeQuotes (keepKey r)) = Some k ->
  exists r', deliveredRef r = Some r' /\ k = keepKey r'.
Proof.
  unfold keepKey. rewrite !escapeQuotes_app.
  change (JS.escapeQuotes "|||" +:+ ?s) with (String "|" (String "|" (String "|" s))).
  intros (a' & b' & Ha & Hb & ->)%readLiteral_split.
  rewrite !readLiteral_bar in Hb.
  destruct (readLiteral (JS.escapeQuotes (windowTitle r))) as [t'|] eqn:Ht;
    [|done].
  injection Hb as <-.
  unfold deliveredRef, delivered. rewrite Ha, Ht. cbn.
  eexists. split; [reflexivity|]. done.
Qed.

Lemma deliveredKeys (ws : list WindowInfo) (keys : list string) :
  mapM readLiteral (JS.escapeQuotes <$> (keepKey <$> ws)) = Some keys ->
  exists ws', Forall2 (fun r r' => deliveredRef r = Some r') ws ws' /\
              keys = keepKey <$> ws'.
Proof.
  rewrite mapM_Some. revert keys. induction ws as [|r ws IH]; intros keys Hkeys.
  - apply Forall2_nil_inv_l in Hkeys as ->. exists []. split; [constructor|done].
  - rewrite !fmap_cons in Hkeys.
    apply Forall2_cons_inv_l in Hkeys as (k & keys' & Hk & Hkeys & ->).
    destruct (deliveredKey r k Hk) as (r' & Hr & ->).
    destruct (IH keys' Hkeys) as (ws' & Hws & ->).
    exists (r' :: ws'). split; [now constructor|done].
Qed.

Lemma deliveredRef_plain (r : WindowInfo) : plainRef r -> deliveredRef r = Some r.
Proof.
  intros [Ha Ht]. unfold deliveredRef, delivered.
  rewrite !readLiteral_escapeQuotes by done. cbn. now destruct r.
Qed.

Lemma omap_delivered (ws ws' : list WindowInfo) :
  Forall2 (fun r r' => deliveredRef r = Some r') ws ws' ->
  omap deliveredRef ws = ws'.
Proof.
  induction 1 as [|r r' ws ws' Hr _ IH]; [done|]. cbn. now rewrite Hr, IH.
Qed.

End DeliverFacts.

(** ** Looking processes and windows up *)

Section LookupFacts.
Import SystemEvents Reading.

Lemma find_skip {A} (f : A -> bool) (l1 l2 : list A) :
  (forall x, x ∈ l1 -> f x = false) ->
  List.find f (l1 ++ l2) = List.find f l2.
Proof.
  induction l1 as [|x l1 IH]; intros Hno; cbn; [done|].
  rewrite (Hno x) by left. apply IH. intros y Hy. apply Hno. now right.
Qed.

Lemma find_fmap {A} (f : A -> bool) (g : A -> A) (l : list A) :
  (forall x, f (g x) = f x) ->
  List.find f (g <$> l) = g <$> List.find f l.
Proof.
  intros Hfg. induction l as [|x l IH]; cbn; [done|].
  rewrite Hfg. now destruct (f x).
Qed.

Lemma find_ext {A} (f f' : A -> bool) (l : list A) :
  (forall x, f x = f' x) -> List.find f l = List.find f' l.
Proof.
  intros Hff. induction l as [|x l IH]; cbn; [done|].
  rewrite Hff, IH. done.
Qed.

Lemma find_split {A} (f : A -> bool) (l : list A) (x : A) :
  List.find f l = Some x ->
  exists l1 l2, l = l1 ++ x :: l2 /\ (forall y, y ∈ l1 -> f y = false) /\ f x = true.
Proof.
  induction l as [|y l IH]; cbn; [done|].
  destruct (f y) eqn:Hy.
  - intros [= ->]. exists [], l. split; [done|]. split; [|done].
    intros z Hz. now apply elem_of_nil in Hz.
  - intros Hfind. destruct (IH Hfind) as (l1 & l2 & -> & Hno & Hx).
    exists (y :: l1), l2. split; [done|]. split; [|done].
    intros z [->|Hz]%elem_of_cons; auto.
Qed.

Lemma find_app {A} (f : A -> bool) (l1 l2 : list A) :
  List.find f (l1 ++ l2) =
    match List.find f l1 with Some x => Some x | None => List.find f l2 end.
Proof.
  induction l1 as [|x l1 IH]; cbn; [done|]. now destruct (f x).
Qed.

(** Comparisons with texts equal up to case select the same process and the
    same window. *)
Lemma processNamed_class (a b : string) (d : Desktop) :
  textEq a b = true -> processNamed a d = processNamed b d.
Proof.
  intros Hab. apply find_ext. intros p. now apply textEq_class.
Qed.

Lemma windowNamed_class (a b : string) (p : Process) :
  textEq a b = true -> windowNamed a p = windowNamed b p.
Proof.
  intros Hab. apply find_ext. intros w. now apply textEq_class.
Qed.

Lemma processNamed_name (app : string) (d : Desktop) (p : Process) :
  processNamed app d = Some p -> textEq (procName p) app = true.
Proof. intros Hfind. now apply List.find_some in Hfind as [_ Hp]. Qed.

Lemma windowNamed_name (title : string) (p : Process) (w : Window) :
  windowNamed title p = Some w -> textEq (winName w) title = true.
Proof. intros Hfind. now apply List.find_some in Hfind as [_ Hw]. Qed.

Lemma windowNamed_elem (title : string) (p : Process) (w : Window) :
  windowNamed title p = Some w -> w ∈ procWindows p.
Proof.
  intros Hfind. apply List.find_some in Hfind as [Hin _].
  now apply list_elem_of_In.
Qed.

Lemma tellProcess_None {R} (app : string) (body : Process -> R * Process)
  (d : Desktop) :
  processNamed app d = None -> tellProcess app body d = None.
Proof.
  unfold processNamed. induction d as [|p d IH]; cbn; [done|].
  destruct (textEq (procName p) app); [done|].
  intros Hnone. now rewrite IH.
Qed.

Lemma tellProcess_Some {R} (app : string) (body : Process -> R * Process)
  (d : Desktop) (p : Process) :
  processNamed app d = Some p ->
  exists d1 d2,
    d = d1 ++ p :: d2 /\
    (forall q, q ∈ d1 -> textEq (procName q) app = false) /\
    tellProcess app body d = Some (fst (body p), d1 ++ snd (body p) :: d2).
Proof.
  unfold processNamed. induction d as [|q d IH]; cbn; [done|].
  destruct (textEq (procName q) app) eqn:Hq.
  - intros [= ->]. exists [], d. split; [done|]. split.
    + intros z Hz. now apply elem_of_nil in Hz.
    + now destruct (body p).
  - intros Hfind. destruct (IH Hfind) as (d1 & d2 & -> & Hno & ->).
    exists (q :: d1), d2. split; [done|]. split; [|done].
    intros z [->|Hz]%elem_of_cons; auto.
Qed.

Lemma firstWindow_None (title : string) (p : Process) :
  windowNamed title p = None -> firstWindow title (procWindows p) = None.
Proof.
  unfold windowNamed. induction (procWindows p) as [|w ws IH]; cbn; [done|].
  destruct (textEq (winName w) title); [done|].
  intros Hnone. now rewrite IH.
Qed.

Lemma firstWindow_Some (title : string) (p : Process) (w : Window) :
  windowNamed title p = Some w ->
  exists l1 l2,
    procWindows p = l1 ++ w :: l2 /\
    (forall x, x ∈ l1 -> textEq (winName x) title = false) /\
    firstWindow title (procWindows p) = Some (l1, w, l2).
Proof.
  unfold windowNamed. induction (procWindows p) as [|x ws IH]; cbn; [done|].
  destruct (textEq (winName x) title) eqn:Hx.
  - intros [= ->]. exists [], ws. split; [done|]. split; [|done].
    intros z Hz. now apply elem_of_nil in Hz.
  - intros Hfind. destruct (IH Hfind) as (l1 & l2 & -> & Hno & ->).
    exists (x :: l1), l2. split; [done|]. split; [|done].
    intros z [->|Hz]%elem_of_cons; auto.
Qed.

(** *** Requests on one window *)

Lemma setMinimized_same (w : Window) : setMinimized (AXMinimized w) w = w.
Proof. now destruct w. Qed.

Lemma request_name (b : bool) (w : Window) : winName (request b w) = winName w.
Proof. unfold request. now destruct (attributeSettable w). Qed.

Lemma request_raisable (b : bool) (w : Window) :
  raisable (request b w) = raisable w.
Proof. unfold request. now destruct (attributeSettable w). Qed.

Lemma request_cleared (b : bool) (w : Window) :
  setMinimized false (request b w) = setMinimized false w.
Proof. unfold request. now destruct (attributeSettable w). Qed.

Lemma unminimized_name (w : Window) : winName (unminimized w) = winName w.
Proof. unfold unminimized. destruct (seenMinimized w); [apply request_name|done]. Qed.

Lemma unminimized_raisable (w : Window) : raisable (unminimized w) = raisable w.
Proof.
  unfold unminimized. destruct (seenMinimized w); [apply request_raisable|done].
Qed.

Lemma unminimized_cleared (w : Window) :
  setMinimized false (unminimized w) = setMinimized false w.
Proof.
  unfold unminimized. destruct (seenMinimized w); [apply request_cleared|done].
Qed.

Lemma unminimized_twice (w : Window) :
  unminimized (unminimized w) = unminimized w.
Proof.
  destruct w as [n m tr r s a].
  destruct m, r, s; reflexivity.
Qed.

(** A window on which the unminimizing has nothing to do is one that is not
    minimized or refuses to be unminimized. *)
Lemma unminimized_fixed (w : Window) :
  unminimized w = w <-> AXMinimized w = false \/ unminimizable w = false.
Proof.
  destruct w as [n m tr r s a]. unfold unminimizable.
  destruct m, r, s; cbn; split; intros H; try done; auto;
    destruct H as [H|H]; discriminate H.
Qed.

Lemma unminimized_id (w : Window) : AXMinimized w = false -> unminimized w = w.
Proof. intros Hw. apply unminimized_fixed. now left. Qed.

Lemma unminimized_cases (w : Window) :
  unminimized w = w \/ AXMinimized (unminimized w) = false.
Proof.
  destruct w as [n m tr r s a]. destruct m, r, s; cbn; auto.
Qed.

(** What [raiseWindow] does to a process, by cases on the lookup. *)
Lemma raiseWindow_notfound (title : string) (p : Process) :
  windowNamed title p = None ->
  raiseWindow title p = ("notfound", setFrontmost true p).
Proof.
  intros Hnone. unfold raiseWindow.
  change (procWindows (setFrontmost true p)) with (procWindows p).
  now rewrite (firstWindow_None _ _ Hnone).
Qed.

Lemma raiseWindow_found (title : string) (p : Process) (w : Window) :
  windowNamed title p = Some w ->
  exists l1 l2,
    procWindows p = l1 ++ w :: l2 /\
    (forall x, x ∈ l1 -> textEq (winName x) title = false) /\
    raiseWindow title p
      = if raisable w
        then ("found",
              setWindows (unminimized w :: l1 ++ l2) (setFrontmost true p))
        else ("notfound",
              setWindows (l1 ++ unminimized w :: l2) (setFrontmost true p)).
Proof.
  intros Hsome. destruct (firstWindow_Some _ _ _ Hsome) as (l1 & l2 & Hws & Hno & Hfirst).
  exists l1, l2. split; [done|]. split; [done|]. unfold raiseWindow.
  change (procWindows (setFrontmost true p)) with (procWindows p).
  now rewrite Hfirst.
Qed.

Lemma raiseWindow_frame (title : string) (p : Process) :
  let p' := snd (raiseWindow title p) in
  procName p' = procName p /\ bundleIdentifier p' = bundleIdentifier p /\
  visible p' = visible p /\ backgroundOnly p' = backgroundOnly p /\
  scriptable p' = scriptable p /\ showable p' = showable p /\
  frontable p' = frontable p.
Proof.
  destruct (windowNamed title p) as [w|] eqn:Hw.
  - destruct (raiseWindow_found _ _ _ Hw) as (l1 & l2 & _ & _ & ->).
    now destruct (raisable w).
  - rewrite (raiseWindow_notfound _ _ Hw). done.
Qed.

Lemma raiseWindow_readable (title : string) (p : Process) :
  let p' := snd (raiseWindow title p) in
  bundleReadable p' = bundleReadable p /\
  windowsReadable p' = windowsReadable p.
Proof.
  destruct (windowNamed title p) as [w|] eqn:Hw.
  - destruct (raiseWindow_found _ _ _ Hw) as (l1 & l2 & _ & _ & ->).
    now destruct (raisable w).
  - rewrite (raiseWindow_notfound _ _ Hw). done.
Qed.

Lemma trim_found : JS.trim "found" = "found".
Proof. reflexivity. Qed.

Lemma trim_notfound : JS.trim "notfound" = "notfound".
Proof. reflexivity. Qed.

Lemma raiseWindow_answer (title : string) (p : Process) :
  String.eqb (JS.trim (fst (raiseWindow title p))) "found"
  = match windowNamed title p with
    | Some w => raisable w
    | None => false
    end.
Proof.
  destruct (windowNamed title p) as [w|] eqn:Hw.
  - destruct (raiseWindow_found _ _ _ Hw) as (l1 & l2 & _ & _ & ->).
    destruct (raisable w); unfold fst.
    + now rewrite trim_found.
    + now rewrite trim_notfound.
  - rewrite (raiseWindow_notfound _ _ Hw).
    unfold fst. now rewrite trim_notfound.
Qed.

(** Looking a title up in a process after [raiseWindow]. *)
Lemma raiseWindow_lookup (title title' : string) (p : Process) :
  windowNamed title' (snd (raiseWindow title p)) =
    match windowNamed title p with
    | Some w => if textEq title' title then Some (unminimized w)
                else windowNamed title' p
    | None => windowNamed title' p
    end.
Proof.
  destruct (windowNamed title p) as [w|] eqn:Hw.
  - destruct (raiseWindow_found _ _ _ Hw) as (l1 & l2 & Hws & Hno & ->).
    pose proof (windowNamed_name _ _ _ Hw) as Hname.
    assert (Hsnd : windowNamed title'
                     (if raisable w
                      then ("found",
                            setWindows (unminimized w :: l1 ++ l2) (setFrontmost true p))
                      else ("notfound",
                            setWindows (l1 ++ unminimized w :: l2) (setFrontmost true p))).2
                   = if raisable w
                     then List.find (fun x => textEq (winName x) title')
                            (unminimized w :: l1 ++ l2)
                     else List.find (fun x => textEq (winName x) title')
                            (l1 ++ unminimized w :: l2)).
    { now destruct (raisable w). }
    rewrite Hsnd. clear Hsnd.
    destruct (textEq title' title) eqn:Hsame.
    + assert (Hhit : textEq (winName (unminimized w)) title' = true).
      { rewrite unminimized_name, (textEq_class title' title) by done.
        exact Hname. }
      destruct (raisable w).
      * cbn. now rewrite Hhit.
      * rewrite find_skip.
        -- cbn. now rewrite Hhit.
        -- intros x Hx. rewrite (textEq_class title' title) by done. auto.
    + assert (Hw' : textEq (winName w) title' = false).
      { destruct (textEq (winName w) title') eqn:Hw'; [|done].
        rewrite textEq_sym in Hw'.
        now rewrite (textEq_trans _ _ _ Hw' Hname) in Hsame. }
      unfold windowNamed. rewrite Hws.
      destruct (raisable w).
      * cbn. rewrite unminimized_name, Hw'.
        clear Hws Hno. induction l1 as [|x l1 IH]; cbn; [now rewrite Hw'|].
        now destruct (textEq (winName x) title').
      * rewrite !find_app. cbn. now rewrite unminimized_name, Hw'.
  - now rewrite (raiseWindow_notfound _ _ Hw).
Qed.

End LookupFacts.

(** ** One script at a time *)

Section StepFacts.
Import SystemEvents Reading.

(** Telling the first process of a name, on a desktop whose processes were
    first passed through a map [g] that keeps their names. *)
Lemma tellProcess_fmap_None {R} (app : string) (body : Process -> R * Process)
  (g : Process -> Process) (d : Desktop) :
  (forall q, procName (g q) = procName q) ->
  processNamed app d = None -> tellProcess app body (g <$> d) = None.
Proof.
  intros Hg. unfold processNamed. induction d as [|p d IH]; cbn; [done|].
  rewrite Hg. destruct (textEq (procName p) app); [done|].
  intros Hnone. now rewrite IH.
Qed.

Lemma tellProcess_fmap_Some {R} (app : string) (body : Process -> R * Process)
  (g : Process -> Process) (d : Desktop) (p : Process) :
  (forall q, procName (g q) = procName q) ->
  processNamed app d = Some p ->
  exists d1 d2,
    d = d1 ++ p :: d2 /\
    (forall q, q ∈ d1 -> textEq (procName q) app = false) /\
    tellProcess app body (g <$> d)
      = Some (fst (body (g p)), (g <$> d1) ++ snd (body (g p)) :: (g <$> d2)).
Proof.
  intros Hg. unfold processNamed. induction d as [|q d IH]; cbn; [done|].
  rewrite Hg. destruct (textEq (procName q) app) eqn:Hq.
  - intros [= ->]. exists [], d. split; [done|]. split.
    + intros z Hz. now apply elem_of_nil in Hz.
    + now destruct (body (g p)).
  - intros Hfind. destruct (IH Hfind) as (d1 & d2 & -> & Hno & ->).
    exists (q :: d1), d2. split; [done|]. split; [|done].
    intros z [->|Hz]%elem_of_cons; auto.
Qed.

(** The process a name denotes after the first process named [app], [p],
    was replaced by [p'] and the other processes went through [g]. *)
Lemma processNamed_replaced (app app' : string) (g : Process -> Process)
  (d1 d2 : Desktop) (p p' : Process) :
  (forall q, procName (g q) = procName q) ->
  procName p' = procName p ->
  (forall q, q ∈ d1 -> textEq (procName q) app = false) ->
  textEq (procName p) app = true ->
  processNamed app' ((g <$> d1) ++ p' :: (g <$> d2)) =
    if textEq app' app then Some p'
    else g <$> processNamed app' (d1 ++ p :: d2).
Proof.
  intros Hg Hp' Hno Hp. unfold processNamed.
  destruct (textEq app' app) eqn:Hclass.
  - rewrite find_skip.
    + cbn. rewrite Hp'. rewrite (textEq_class app' app) by done. now rewrite Hp.
    + intros q [q0 [-> Hq0]]%list_elem_of_fmap. rewrite Hg.
      rewrite (textEq_class app' app) by done. auto.
  - assert (Hp0 : textEq (procName p) app' = false).
    { destruct (textEq (procName p) app') eqn:Hp0; [|done].
      rewrite textEq_sym in Hp0.
      now rewrite (textEq_trans _ _ _ Hp0 Hp) in Hclass. }
    rewrite !find_app. cbn. rewrite Hp', Hp0.
    rewrite !find_fmap by (intros q; now rewrite Hg).
    now destruct (List.find _ d1).
Qed.

(** The window that the script of a reference gets to, in terms of the
    process its name denotes. *)
Lemma target_process (r : WindowInfo) (d : Desktop) (p : Process) :
  processNamed (appName r) d = Some p ->
  target r d = if frontable p then windowNamed (windowTitle r) p else None.
Proof. intros Hp. unfold target. now rewrite Hp. Qed.

Lemma target_missing (r : WindowInfo) (d : Desktop) :
  processNamed (appName r) d = None -> target r d = None.
Proof. intros Hp. unfold target. now rewrite Hp. Qed.

Lemma target_lookup (r : WindowInfo) (d : Desktop) (w : Window) :
  target r d = Some w -> lookupWindow (appName r) (windowTitle r) d = Some w.
Proof.
  unfold target, lookupWindow.
  destruct (processNamed (appName r) d) as [p|]; cbn; [|done].
  now destruct (frontable p).
Qed.

Lemma found_target (r : WindowInfo) (d : Desktop) :
  found r d = true -> exists w, target r d = Some w /\ raisable w = true.
Proof. unfold found. destruct (target r d) as [w|]; [eauto|done]. Qed.

(** A map over the processes that keeps their names and their readiness to
    come to the front, and maps their windows one by one, keeping their
    titles, maps the windows that the scripts get to. *)
Lemma target_fmap (g : Process -> Process) (h : Process -> Window -> Window)
  (r : WindowInfo) (d : Desktop) :
  (forall q, procName (g q) = procName q) ->
  (forall q, frontable (g q) = frontable q) ->
  (forall q t, windowNamed t (g q) = h q <$> windowNamed t q) ->
  (forall q w, raisable (h q w) = raisable w) ->
  found r (g <$> d) = found r d.
Proof.
  intros Hname Hfront Hwin Hraise. unfold found, target, processNamed.
  rewrite find_fmap by (intros q; now rewrite Hname).
  destruct (List.find _ d) as [p|]; cbn; [|done].
  rewrite Hfront. destruct (frontable p); [|done].
  rewrite Hwin. destruct (windowNamed (windowTitle r) p); cbn; [|done].
  apply Hraise.
Qed.

(** *** The visibility request *)

Lemma makeVisible_missing (app : string) (d : Desktop) :
  processNamed app d = None -> makeVisible app d = d.
Proof.
  intros Hnone. unfold makeVisible. now rewrite tellProcess_None.
Qed.

Lemma makeVisible_told (app : string) (d : Desktop) (p : Process) :
  processNamed app d = Some p ->
  exists d1 d2,
    d = d1 ++ p :: d2 /\
    (forall q, q ∈ d1 -> textEq (procName q) app = false) /\
    makeVisible app d = d1 ++ madeVisible p :: d2.
Proof.
  intros Hsome. unfold makeVisible.
  destruct (tellProcess_Some app (fun p => (tt, madeVisible p)) d p Hsome)
    as (d1 & d2 & Hd & Hno & ->).
  now exists d1, d2.
Qed.

Lemma setVisible_id (p : Process) : visible p = true -> setVisible true p = p.
Proof. destruct p. cbn. now intros ->. Qed.

Lemma madeVisible_id (p : Process) : visible p = true -> madeVisible p = p.
Proof.
  intros Hv. unfold madeVisible. destruct (showable p); [|done].
  now apply setVisible_id.
Qed.

Lemma madeVisible_frame (p : Process) :
  procName (madeVisible p) = procName p /\
  bundleIdentifier (madeVisible p) = bundleIdentifier p /\
  backgroundOnly (madeVisible p) = backgroundOnly p /\
  scriptable (madeVisible p) = scriptable p /\
  showable (madeVisible p) = showable p /\
  frontable (madeVisible p) = frontable p /\
  procWindows (madeVisible p) = procWindows p /\
  (visible p = true -> visible (madeVisible p) = true).
Proof.
  unfold madeVisible. destruct (showable p) eqn:Hs; repeat split; cbn; done.
Qed.

Lemma madeVisible_readable (p : Process) :
  bundleReadable (madeVisible p) = bundleReadable p /\
  windowsReadable (madeVisible p) = windowsReadable p.
Proof. unfold madeVisible. now destruct (showable p). Qed.

Lemma makeVisible_id (app : string) (d : Desktop) :
  (forall p, processNamed app d = Some p -> visible p = true) ->
  makeVisible app d = d.
Proof.
  intros Hvis. destruct (processNamed app d) as [p|] eqn:Hp.
  - destruct (makeVisible_told _ _ _ Hp) as (d1 & d2 & -> & _ & ->).
    now rewrite madeVisible_id by auto.
  - now apply makeVisible_missing.
Qed.

Lemma makeVisible_Forall2 (S : Process -> Process -> Prop) (app : string)
  (d : Desktop) :
  (forall p, S p p) ->
  (forall p, processNamed app d = Some p -> S p (madeVisible p)) ->
  Forall2 S d (makeVisible app d).
Proof.
  intros Hrefl Hstep. destruct (processNamed app d) as [p|] eqn:Hp.
  - destruct (makeVisible_told _ _ _ Hp) as (d1 & d2 & -> & _ & ->).
    apply Forall2_app; [now apply Forall_Forall2_diag, Forall_true|].
    constructor; [auto|]. now apply Forall_Forall2_diag, Forall_true.
  - rewrite makeVisible_missing by done.
    now apply Forall_Forall2_diag, Forall_true.
Qed.

Lemma makeVisible_process (app app' : string) (d : Desktop) :
  processNamed app' (makeVisible app d) =
    match processNamed app d with
    | Some p => if textEq app' app then Some (madeVisible p)
                else processNamed app' d
    | None => processNamed app' d
    end.
Proof.
  destruct (processNamed app d) as [p|] eqn:Hp.
  - destruct (makeVisible_told _ _ _ Hp) as (d1 & d2 & -> & Hno & ->).
    pose proof (processNamed_replaced app app' (fun q => q) d1 d2 p
                  (madeVisible p)) as Hrep.
    rewrite !list_fmap_id in Hrep. rewrite Hrep; auto.
    + destruct (textEq app' app); [done|]. apply option_fmap_id.
    + now destruct (madeVisible_frame p) as (-> & _).
    + now apply processNamed_name in Hp.
  - now rewrite makeVisible_missing.
Qed.

Lemma makeVisible_target (app : string) (r : WindowInfo) (d : Desktop) :
  target r (makeVisible app d) = target r d.
Proof.
  unfold target. rewrite makeVisible_process.
  destruct (processNamed app d) as [p|] eqn:Hp; [|done].
  destruct (textEq (appName r) app) eqn:Hclass; [|done].
  rewrite (processNamed_class (appName r) app), Hp by done. cbn.
  destruct (madeVisible_frame p) as (_ & _ & _ & _ & _ & -> & Hws & _).
  unfold windowNamed. now rewrite Hws.
Qed.

Lemma makeVisible_found (app : string) (r : WindowInfo) (d : Desktop) :
  found r (makeVisible app d) = found r d.
Proof. unfold found. now rewrite makeVisible_target. Qed.

(** *** The exclusionary minimize *)

Lemma minimizeWindow_name (keys : list string) (p : Process) (w : Window) :
  winName (minimizeWindow keys p w) = winName w.
Proof.
  unfold minimizeWindow. destruct (negb (titleReadable w)); [done|].
  destruct (shouldKeep _ _); [done|].
  destruct (seenMinimized w); [done|]. apply request_name.
Qed.

Lemma minimizeWindow_raisable (keys : list string) (p : Process) (w : Window) :
  raisable (minimizeWindow keys p w) = raisable w.
Proof.
  unfold minimizeWindow. destruct (negb (titleReadable w)); [done|].
  destruct (shouldKeep _ _); [done|].
  destruct (seenMinimized w); [done|]. apply request_raisable.
Qed.

Lemma minimizeWindow_cleared (keys : list string) (p : Process) (w : Window) :
  setMinimized false (minimizeWindow keys p w) = setMinimized false w.
Proof.
  unfold minimizeWindow. cbv zeta. destruct (negb (titleReadable w)); [done|].
  destruct (shouldKeep _ _); [done|].
  destruct (seenMinimized w); [done|]. apply request_cleared.
Qed.

(** A window that is not kept ends minimized, unless it refuses or does
    not let its name be read. *)
Lemma minimizeWindow_done (keys : list string) (p : Process) (w : Window) :
  shouldKeep keys (procName p +:+ "|||" +:+ winName w) = false ->
  AXMinimized (minimizeWindow keys p w) = true \/
  attributeSettable (minimizeWindow keys p w) = false \/
  titleReadable (minimizeWindow keys p w) = false.
Proof.
  intros Hkeep. unfold minimizeWindow. cbv zeta. rewrite Hkeep.
  destruct w as [n m tr r s a]. unfold seenMinimized, request. cbn.
  destruct m, tr, r, s; cbn; auto.
Qed.

(** Minimizing again a window that is minimized or refuses changes
    nothing. *)
Lemma minimizeWindow_settled (keys : list string) (p : Process) (w : Window) :
  AXMinimized w = true \/ attributeSettable w = false \/ titleReadable w = false ->
  minimizeWindow keys p w = w.
Proof.
  intros Hw. unfold minimizeWindow. cbv zeta.
  destruct (negb (titleReadable w)) eqn:Htitle; [done|].
  destruct (shouldKeep _ _); [done|].
  destruct w as [n m tr r s a]. unfold seenMinimized, request. cbn in *.
  destruct m, tr, r, s; cbn; try done;
    destruct Hw as [Hw|[Hw|Hw]]; discriminate.
Qed.

(** The only change is from unminimized to minimized. *)
Lemma minimizeWindow_cases (keys : list string) (p : Process) (w : Window) :
  minimizeWindow keys p w = w \/
  (AXMinimized w = false /\ AXMinimized (minimizeWindow keys p w) = true).
Proof.
  unfold minimizeWindow. cbv zeta.
  destruct (negb (titleReadable w)); [now left|].
  destruct (shouldKeep keys _); [now left|].
  destruct w as [n m tr r s a]. unfold seenMinimized, request. cbn.
  destruct m, r, s; cbn; auto.
Qed.

Lemma minimizeProcess_frame (keys : list string) (p : Process) :
  procName (minimizeProcess keys p) = procName p /\
  bundleIdentifier (minimizeProcess keys p) = bundleIdentifier p /\
  visible (minimizeProcess keys p) = visible p /\
  backgroundOnly (minimizeProcess keys p) = backgroundOnly p /\
  scriptable (minimizeProcess keys p) = scriptable p /\
  showable (minimizeProcess keys p) = showable p /\
  frontable (minimizeProcess keys p) = frontable p.
Proof. unfold minimizeProcess. now destruct (_ && _). Qed.

Lemma minimizeProcess_readable (keys : list string) (p : Process) :
  nameReadable (minimizeProcess keys p) = nameReadable p /\
  bundleReadable (minimizeProcess keys p) = bundleReadable p /\
  windowsReadable (minimizeProcess keys p) = windowsReadable p.
Proof. unfold minimizeProcess. now destruct (_ && _). Qed.

Lemma minimizeOthers_process (keys : list string) (app : string) (d : Desktop) :
  processNamed app (minimizeOthers keys d)
  = minimizeProcess keys <$> processNamed app d.
Proof.
  apply find_fmap. intros p.
  now destruct (minimizeProcess_frame keys p) as (-> & _).
Qed.

Lemma minimizeProcess_window (keys : list string) (t : string) (p : Process) :
  windowNamed t (minimizeProcess keys p)
  = (fun w => if userFacing p && scriptable p
                 && negb (textEq (bundleIdentifier p) "com.raycast.macos")
              then minimizeWindow keys p w else w) <$> windowNamed t p.
Proof.
  unfold minimizeProcess. destruct (_ && _).
  - unfold windowNamed. cbn.
    now rewrite find_fmap by (intros w; now rewrite minimizeWindow_name).
  - now rewrite option_fmap_id.
Qed.

Lemma minimizeOthers_found (keys : list string) (r : WindowInfo) (d : Desktop) :
  found r (minimizeOthers keys d) = found r d.
Proof.
  apply (target_fmap (minimizeProcess keys)
           (fun p w => if userFacing p && scriptable p
                          && negb (textEq (bundleIdentifier p) "com.raycast.macos")
                       then minimizeWindow keys p w else w)).
  - intros q. now destruct (minimizeProcess_frame keys q) as (-> & _).
  - intros q. now destruct (minimizeProcess_frame keys q) as (_ & _ & _ & _ & _ & _ & ->).
  - intros q t. apply minimizeProcess_window.
  - intros q w. destruct (_ && _); [apply minimizeWindow_raisable|done].
Qed.

Lemma minimizeOthers_othersMinimized (keys : list string) (d : Desktop) :
  Forall2 (othersMinimized keys) d (minimizeOthers keys d).
Proof.
  unfold minimizeOthers. apply Forall2_fmap_r, Forall_Forall2_diag, Forall_true.
  intros p.
  destruct (minimizeProcess_frame keys p) as (Hn & Hb & _ & Hg & Hs & _).
  split; [done|]. split; [done|]. split; [done|]. split; [done|].
  intros Hfacing Hscript Hray w. unfold minimizeProcess, RAYCAST in *.
  rewrite Hfacing, Hscript, Hray. cbn.
  intros (w0 & -> & Hw0)%list_elem_of_fmap. unfold winKey. cbn.
  rewrite minimizeWindow_name. apply minimizeWindow_done.
Qed.

End StepFacts.

(** ** One iteration of the second loop *)

Section RestoreFacts.
Import SystemEvents Reading.

Lemma windowNamed_setFrontmost (t : string) (b : bool) (p : Process) :
  windowNamed t (setFrontmost b p) = windowNamed t p.
Proof. reflexivity. Qed.

Lemma restoreStep_missing (r : WindowInfo) (d : Desktop) :
  processNamed (appName r) d = None -> restoreStep r d = (false, d).
Proof.
  intros Hnone. unfold restoreStep, restoreWindow. now rewrite Hnone.
Qed.

Lemma restoreStep_refused (r : WindowInfo) (d : Desktop) (p : Process) :
  processNamed (appName r) d = Some p -> frontable p = false ->
  restoreStep r d = (false, d).
Proof.
  intros Hp Hfront. unfold restoreStep, restoreWindow. now rewrite Hp, Hfront.
Qed.

Lemma restoreStep_told (r : WindowInfo) (d : Desktop) (p : Process) :
  processNamed (appName r) d = Some p -> frontable p = true ->
  exists d1 d2,
    d = d1 ++ p :: d2 /\
    (forall q, q ∈ d1 -> textEq (procName q) (appName r) = false) /\
    restoreStep r d
      = (match windowNamed (windowTitle r) p with
         | Some w => raisable w
         | None => false
         end,
         (setFrontmost false <$> d1)
         ++ snd (raiseWindow (windowTitle r) (setFrontmost false p))
         :: (setFrontmost false <$> d2)).
Proof.
  intros Hsome Hfront.
  destruct (tellProcess_fmap_Some (appName r) (raiseWindow (windowTitle r))
              (setFrontmost false) d p) as (d1 & d2 & Hd & Hno & Htell);
    [done|done|].
  exists d1, d2. split; [done|]. split; [done|].
  unfold restoreStep, restoreWindow. rewrite Hsome, Hfront, Htell.
  now rewrite raiseWindow_answer, windowNamed_setFrontmost.
Qed.

(** The step of a reference changes nothing unless its process comes to the
    front. *)
Lemma restoreStep_idle (r : WindowInfo) (d : Desktop) :
  (forall p, processNamed (appName r) d = Some p -> frontable p = false) ->
  restoreStep r d = (false, d).
Proof.
  intros Hidle. destruct (processNamed (appName r) d) as [p|] eqn:Hp.
  - now apply (restoreStep_refused r d p), Hidle.
  - now apply restoreStep_missing.
Qed.

Lemma restoreStep_answer (r : WindowInfo) (d : Desktop) :
  fst (restoreStep r d) = found r d.
Proof.
  unfold found, target.
  destruct (processNamed (appName r) d) as [p|] eqn:Hp; cbn.
  - destruct (frontable p) eqn:Hfront.
    + destruct (restoreStep_told _ _ _ Hp Hfront) as (d1 & d2 & _ & _ & ->). done.
    + now rewrite (restoreStep_refused r d p).
  - now rewrite restoreStep_missing.
Qed.

Lemma restoreStep_process (r : WindowInfo) (d : Desktop) (app' : string) :
  processNamed app' (snd (restoreStep r d)) =
    match processNamed (appName r) d with
    | Some p =>
        if frontable p
        then if textEq app' (appName r)
             then Some (snd (raiseWindow (windowTitle r) (setFrontmost false p)))
             else setFrontmost false <$> processNamed app' d
        else processNamed app' d
    | None => processNamed app' d
    end.
Proof.
  destruct (processNamed (appName r) d) as [p|] eqn:Hp.
  - destruct (frontable p) eqn:Hfront.
    + destruct (restoreStep_told _ _ _ Hp Hfront) as (d1 & d2 & -> & Hno & ->).
      cbn [snd]. apply processNamed_replaced.
      * done.
      * now destruct (raiseWindow_frame (windowTitle r) (setFrontmost false p))
          as (-> & _).
      * done.
      * now apply processNamed_name in Hp.
    + now rewrite (restoreStep_refused r d p).
  - now rewrite restoreStep_missing.
Qed.

(** The window that the script of [r'] gets to, after the step of [r]. *)
Lemma restoreStep_target (r r' : WindowInfo) (d : Desktop) :
  target r' (snd (restoreStep r d)) =
    match target r d with
    | Some w =>
        if textEq (appName r') (appName r)
           && textEq (windowTitle r') (windowTitle r)
        then Some (unminimized w)
        else target r' d
    | None => target r' d
    end.
Proof.
  unfold target at 1. rewrite restoreStep_process.
  destruct (processNamed (appName r) d) as [p|] eqn:Hp.
  - rewrite (target_process r d p Hp).
    destruct (frontable p) eqn:Hfront; [|done].
    destruct (textEq (appName r') (appName r)) eqn:Hclass.
    + cbn.
      destruct (raiseWindow_frame (windowTitle r) (setFrontmost false p))
        as (_ & _ & _ & _ & _ & _ & ->).
      cbn [frontable setFrontmost]. rewrite Hfront.
      rewrite raiseWindow_lookup, !windowNamed_setFrontmost.
      unfold target. rewrite (processNamed_class (appName r') (appName r)), Hp
        by done. cbn. rewrite Hfront.
      now destruct (windowNamed (windowTitle r) p) as [w|] eqn:Hw; cbn.
    + assert (Hsame : (setFrontmost false <$> processNamed (appName r') d)
                      ≫= (fun p0 => if frontable p0
                                    then windowNamed (windowTitle r') p0 else None)
                      = target r' d).
      { unfold target. now destruct (processNamed (appName r') d). }
      rewrite Hsame. now destruct (windowNamed (windowTitle r) p).
  - now rewrite (target_missing r d Hp).
Qed.

Lemma restoreStep_found (r r' : WindowInfo) (d : Desktop) :
  found r' (snd (restoreStep r d)) = found r' d.
Proof.
  unfold found. rewrite restoreStep_target.
  destruct (target r d) as [w|] eqn:Hw; [|done].
  destruct (textEq (appName r') (appName r)
            && textEq (windowTitle r') (windowTitle r)) eqn:Hcase; [|done].
  apply andb_true_iff in Hcase as [Ha Ht].
  assert (Hsame : target r' d = target r d).
  { unfold target.
    rewrite (processNamed_class (appName r') (appName r)) by done.
    destruct (processNamed (appName r) d) as [p|]; cbn; [|done].
    now rewrite (windowNamed_class (windowTitle r') (windowTitle r)). }
  rewrite Hsame, Hw. apply unminimized_raisable.
Qed.

Lemma restoreStep_Forall2 (S : Process -> Process -> Prop) (r : WindowInfo)
  (d : Desktop) :
  (forall p, S p p) ->
  (forall p, S p (setFrontmost false p)) ->
  (forall p, processNamed (appName r) d = Some p -> frontable p = true ->
             S p (snd (raiseWindow (windowTitle r) (setFrontmost false p)))) ->
  Forall2 S d (snd (restoreStep r d)).
Proof.
  intros Hrefl Hunfront Hraise.
  destruct (processNamed (appName r) d) as [p|] eqn:Hp.
  - destruct (frontable p) eqn:Hfront.
    + destruct (restoreStep_told _ _ _ Hp Hfront) as (d1 & d2 & -> & _ & ->).
      cbn [snd].
      apply Forall2_app;
        [now apply Forall2_fmap_r, Forall_Forall2_diag, Forall_true|].
      constructor; [auto|].
      now apply Forall2_fmap_r, Forall_Forall2_diag, Forall_true.
    + rewrite (restoreStep_refused r d p) by done.
      now apply Forall_Forall2_diag, Forall_true.
  - rewrite restoreStep_missing by done.
    now apply Forall_Forall2_diag, Forall_true.
Qed.

End RestoreFacts.

(** ** The phases of a switch on the Mac platform *)

Section MacFacts.
Import SystemEvents Reading.

Lemma withDesktop_same (σ : MacWorld) : withDesktop (desktop σ) σ = σ.
Proof. now destruct σ. Qed.

(** The exclusionary minimize runs when every key compiles, and otherwise
    the script is rejected before anything is changed. *)
Lemma Mac_minimizeAllExcept (ws : list WindowInfo) (σ : @World Mac) :
  minimizeAllExcept ws σ
  = match mapM readLiteral (JS.escapeQuotes <$> (keepKey <$> ws)) with
    | Some keys => (Returned tt, withDesktop (minimizeOthers keys (desktop σ)) σ)
    | None => (Thrown syntaxError, σ)
    end.
Proof.
  unfold minimizeAllExcept, tryCatch, bind, ret, throw.
  cbn [runAppleScript Mac]. unfold macRun. cbn [SystemEvents.run].
  destruct (mapM readLiteral _); [done|]. now rewrite withDesktop_same.
Qed.

Lemma Mac_showApps (uniqueApps : list string) (σ : @World Mac) :
  showApps uniqueApps σ
  = (Returned tt,
     withDesktop (showAll (omap delivered uniqueApps) (desktop σ)) σ).
Proof.
  revert σ. induction uniqueApps as [|app rest IH]; intros σ.
  - cbn. unfold ret. now rewrite withDesktop_same.
  - cbn [showApps]. unfold bind at 1, tryCatch, bind, ret.
    cbn [runAppleScript Mac]. unfold macRun. cbn [SystemEvents.run].
    cbn [omap list_omap]. unfold delivered at 1.
    destruct (readLiteral (JS.escapeQuotes app)) as [name|].
    + rewrite IH. done.
    + rewrite IH. now rewrite withDesktop_same.
Qed.

Lemma Mac_queryWindow (r : WindowInfo) (σ : @World Mac) :
  queryWindow r σ
  = (fst (stepRef r (desktop σ)),
     withDesktop (snd (stepRef r (desktop σ))) σ).
Proof.
  unfold queryWindow, stepRef, deliveredRef, delivered.
  cbn [runAppleScript Mac]. unfold macRun. cbn [SystemEvents.run].
  destruct (readLiteral (JS.escapeQuotes (appName r))) as [app|]; cbn.
  - destruct (readLiteral (JS.escapeQuotes (windowTitle r))) as [title|]; cbn.
    + unfold restoreStep. cbn [appName windowTitle].
      now destruct (restoreWindow app title (desktop σ)) as [[result|e] d'].
    + now rewrite withDesktop_same.
  - now rewrite withDesktop_same.
Qed.

End MacFacts.

(** ** The loops of a switch on the desktop *)

Section LoopFacts.
Import SystemEvents Reading.

Lemma foldl_invariant {A B} (I : A -> Prop) (f : A -> B -> A) (l : list B) (a : A) :
  (forall a x, x ∈ l -> I a -> I (f a x)) -> I a -> I (foldl f a l).
Proof.
  revert a. induction l as [|x l IH]; intros a Hstep Ha; cbn; [done|].
  apply IH.
  - intros a' y Hy. apply Hstep. now right.
  - apply Hstep; [left|done].
Qed.

Lemma Forall2_compose {A B C} (P : A -> B -> Prop) (Q : B -> C -> Prop)
  (T : A -> C -> Prop) (l : list A) (k : list B) (m : list C) :
  (forall x y z, P x y -> Q y z -> T x z) ->
  Forall2 P l k -> Forall2 Q k m -> Forall2 T l m.
Proof.
  intros Hcomp Hlk. revert m. induction Hlk as [|x y l k Hxy Hlk IH]; intros m Hkm.
  - apply Forall2_nil_inv_l in Hkm as ->. constructor.
  - apply Forall2_cons_inv_l in Hkm as (z & m' & Hyz & Hkm & ->).
    constructor; eauto.
Qed.

Lemma Forall2_elem_l {A B} (P : A -> B -> Prop) (l : list A) (k : list B) (x : A) :
  Forall2 P l k -> x ∈ l -> exists y, y ∈ k /\ P x y.
Proof.
  induction 1 as [|a b l k Hab _ IH]; intros Hx.
  - now apply elem_of_nil in Hx.
  - apply elem_of_cons in Hx as [->|Hx].
    + exists b. split; [left|done].
    + destruct (IH Hx) as (y & Hy & Hxy). exists y. split; [now right|done].
Qed.

Lemma showAll_found (uniqueApps : list string) (r : WindowInfo) (d : Desktop) :
  found r (showAll uniqueApps d) = found r d.
Proof.
  unfold showAll. apply (foldl_invariant (fun d' => found r d' = found r d));
    [|done].
  intros d' app _ <-. apply makeVisible_found.
Qed.

Lemma restoreAll_found (ws : list WindowInfo) (r : WindowInfo) (d : Desktop) :
  found r (restoreAll ws d) = found r d.
Proof.
  unfold restoreAll. apply (foldl_invariant (fun d' => found r d' = found r d));
    [|done].
  intros d' r' _ <-. apply restoreStep_found.
Qed.

Lemma restoreAll_app (ws1 ws2 : list WindowInfo) (d : Desktop) :
  restoreAll (ws1 ++ ws2) d = restoreAll ws2 (restoreAll ws1 d).
Proof. unfold restoreAll. apply foldl_app. Qed.

(** The references whose scripts do not compile drop out of the loop. *)
Lemma restoreAllRefs_delivered (ws : list WindowInfo) (d : Desktop) :
  restoreAllRefs ws d = restoreAll (omap deliveredRef ws) d.
Proof.
  revert d. induction ws as [|r ws IH]; intros d; [done|].
  unfold restoreAllRefs, restoreAll in *. cbn [foldl omap list_omap].
  rewrite IH. unfold stepRef.
  now destruct (deliveredRef r).
Qed.

Lemma stepRef_answer (r : WindowInfo) (d : Desktop) :
  fst (stepRef r d) = foundRef r d.
Proof.
  unfold stepRef, foundRef. destruct (deliveredRef r); [|done].
  apply restoreStep_answer.
Qed.

Lemma stepRef_found (r r' : WindowInfo) (d : Desktop) :
  foundRef r' (snd (stepRef r d)) = foundRef r' d.
Proof.
  unfold stepRef, foundRef. destruct (deliveredRef r'); [|done].
  destruct (deliveredRef r); [|done]. apply restoreStep_found.
Qed.

Lemma foundRef_delivered (r r' : WindowInfo) (d : Desktop) :
  deliveredRef r = Some r' -> foundRef r d = found r' d.
Proof. intros Hr. unfold foundRef. now rewrite Hr. Qed.

Lemma filter_ext_in {A} (P Q : A -> Prop)
  `{!forall x, Decision (P x)} `{!forall x, Decision (Q x)} (l : list A) :
  (forall x, x ∈ l -> P x <-> Q x) -> filter P l = filter Q l.
Proof.
  induction l as [|x l IH]; intros HPQ; [done|].
  rewrite !filter_cons, IH by (intros y Hy; apply HPQ; now right).
  destruct (decide (P x)) as [HP|HP], (decide (Q x)) as [HQ|HQ];
    try done; exfalso; [apply HQ|apply HP]; apply (HPQ x); done || left.
Qed.

Lemma Mac_restoreEach (ws : list WindowInfo) (acc : SwitchResult) (σ : @World Mac) :
  restoreEach ws acc σ
  = (Returned
       {| shown := shown acc
                   + length (filter (fun r => foundRef r (desktop σ) = true) ws);
          notFound := notFound acc
                      ++ filter (fun r => foundRef r (desktop σ) = false) ws |},
     withDesktop (restoreAllRefs ws (desktop σ)) σ).
Proof.
  revert acc σ. induction ws as [|r ws IH]; intros acc σ.
  - cbn. unfold ret. rewrite withDesktop_same. destruct acc as [n l]; cbn.
    now rewrite Nat.add_0_r, app_nil_r.
  - cbn [restoreEach]. unfold bind at 1.
    rewrite restoreOne_query, Mac_queryWindow. cbn [fst snd].
    rewrite stepRef_answer, IH. cbn [desktop withDesktop].
    assert (Hsame : forall b,
              filter (fun r' => foundRef r' (snd (stepRef r (desktop σ))) = b) ws
              = filter (fun r' => foundRef r' (desktop σ) = b) ws).
    { intros b. apply list_filter_iff. intros r'. now rewrite stepRef_found. }
    rewrite !Hsame.
    assert (Hworld : withDesktop
                       (restoreAllRefs ws (snd (stepRef r (desktop σ))))
                       (withDesktop (snd (stepRef r (desktop σ))) σ)
                     = withDesktop (restoreAllRefs (r :: ws) (desktop σ)) σ).
    { done. }
    rewrite Hworld. f_equal.
    destruct (foundRef r (desktop σ)) eqn:Hfound.
    + rewrite filter_cons_True, filter_cons_False by congruence.
      cbn. now rewrite Nat.add_succ_r.
    + rewrite filter_cons_False, filter_cons_True by congruence.
      cbn. now rewrite <- app_assoc.
Qed.

(** The switch on the Mac platform: rejected as a whole when a key does not
    compile, and otherwise the three phases one after the other. *)
Lemma Mac_switchTo (group : WindowGroup) (σ : @World Mac) :
  switchTo group σ
  = match mapM readLiteral (JS.escapeQuotes <$> (keepKey <$> windows group)) with
    | Some keys =>
        let ready :=
          showAll (omap delivered (JS.unique [] (appName <$> windows group)))
                  (minimizeOthers keys (desktop σ)) in
        (Returned
           {| shown := length (filter (fun r => foundRef r ready = true)
                                      (windows group));
              notFound := filter (fun r => foundRef r ready = false)
                                 (windows group) |},
         withDesktop (restoreAllRefs (windows group) ready) σ)
    | None => (Thrown syntaxError, σ)
    end.
Proof.
  unfold switchTo, bind at 1. rewrite Mac_minimizeAllExcept.
  destruct (mapM readLiteral _) as [keys|]; [|done].
  unfold restoreWindows, bind. rewrite Mac_showApps, Mac_restoreEach. done.
Qed.

(** A switch that returns: every reference is delivered, and the keys that
    the minimize keeps are the keys of the delivered references. *)
Lemma Mac_switchTo_returned (group : WindowGroup) (res : SwitchResult)
  (σ σ1 : @World Mac) :
  switchTo group σ = (Returned res, σ1) ->
  exists ws',
    Forall2 (fun r r' => deliveredRef r = Some r') (windows group) ws' /\
    mapM readLiteral (JS.escapeQuotes <$> (keepKey <$> windows group))
      = Some (keepKey <$> ws') /\
    let ready :=
      showAll (omap delivered (JS.unique [] (appName <$> windows group)))
              (minimizeOthers (keepKey <$> ws') (desktop σ)) in
    res = {| shown := length (filter (fun r => foundRef r ready = true)
                                     (windows group));
             notFound := filter (fun r => foundRef r ready = false)
                                (windows group) |} /\
    σ1 = withDesktop (restoreAll ws' ready) σ.
Proof.
  rewrite Mac_switchTo.
  destruct (mapM readLiteral _) as [keys|] eqn:Hkeys; [|done].
  destruct (deliveredKeys _ _ Hkeys) as (ws' & Hws & ->).
  cbv zeta. intros [= <- <-]. exists ws'. split; [done|]. split; [done|].
  cbv zeta. split; [done|].
  now rewrite restoreAllRefs_delivered, (omap_delivered _ _ Hws).
Qed.

(** The same for references that script literals carry unchanged. *)
Lemma Mac_switchTo_plain (group : WindowGroup) (σ : @World Mac) :
  Forall plainRef (windows group) ->
  let ready :=
    showAll (omap delivered (JS.unique [] (appName <$> windows group)))
            (minimizeOthers (keepKey <$> windows group) (desktop σ)) in
  switchTo group σ
  = (Returned
       {| shown := length (filter (fun r => found r ready = true) (windows group));
          notFound := filter (fun r => found r ready = false) (windows group) |},
     withDesktop (restoreAll (windows group) ready) σ).
Proof.
  intros Hplain ready. rewrite Mac_switchTo.
  rewrite readLiterals_escapeQuotes.
  - cbv zeta. fold ready.
    assert (Hfound : forall b,
              filter (fun r => foundRef r ready = b) (windows group)
              = filter (fun r => found r ready = b) (windows group)).
    { intros b. apply filter_ext_in. intros r Hr.
      rewrite (foundRef_delivered r r); [done|].
      apply deliveredRef_plain. now apply (proj1 (Forall_forall _ _) Hplain). }
    rewrite !Hfound, restoreAllRefs_delivered.
    rewrite (omap_delivered _ (windows group)); [done|].
    apply Forall_Forall2_diag. eapply Forall_impl; [exact Hplain|].
    intros r Hr. now apply deliveredRef_plain.
  - apply Forall_fmap. eapply Forall_impl; [exact Hplain|].
    intros r Hr. now apply plain_keepKey.
Qed.

End LoopFacts.

(** ** The state a switch establishes *)

Section SwitchFacts.
Import SystemEvents Reading.

Lemma gentle_refl (keys : list string) (p : Process) : gentle keys p p.
Proof. repeat split. now left. Qed.

Lemma gentle_setFrontmost (keys : list string) (b : bool) (p : Process) :
  gentle keys p (setFrontmost b p).
Proof. repeat split. now left. Qed.

Lemma gentle_madeVisible (keys : list string) (p : Process) :
  gentle keys p (madeVisible p).
Proof.
  destruct (madeVisible_frame p) as (Hn & Hb & Hg & Hs & _ & _ & Hws & _).
  repeat split; try done. rewrite Hws. now left.
Qed.

Lemma shouldKeep_reference (ws : list WindowInfo) (r : WindowInfo)
  (p : Process) (w : Window) :
  r ∈ ws ->
  textEq (procName p) (appName r) = true ->
  textEq (winName w) (windowTitle r) = true ->
  shouldKeep (keepKey <$> ws) (winKey p w) = true.
Proof.
  intros Hin Hp Hw. unfold shouldKeep. apply existsb_exists.
  exists (keepKey r). split.
  - apply list_elem_of_In, list_elem_of_fmap. eauto.
  - now apply textEq_key.
Qed.

Lemma gentle_raiseWindow (ws : list WindowInfo) (r : WindowInfo) (p : Process) :
  r ∈ ws ->
  textEq (procName p) (appName r) = true ->
  gentle (keepKey <$> ws) p
    (snd (raiseWindow (windowTitle r) (setFrontmost false p))).
Proof.
  intros Hin Hp.
  destruct (raiseWindow_frame (windowTitle r) (setFrontmost false p))
    as (Hn & Hb & _ & Hg & Hs & _).
  split; [done|]. split; [done|]. split; [done|]. split; [done|].
  destruct (windowNamed (windowTitle r) (setFrontmost false p)) as [t|] eqn:Ht.
  - destruct (raiseWindow_found _ _ _ Ht) as (l1 & l2 & Hws & _ & ->).
    cbn in Hws.
    assert (Hkept : shouldKeep (keepKey <$> ws) (winKey p (unminimized t)) = true).
    { apply (shouldKeep_reference ws r); [done|done|].
      rewrite unminimized_name. now apply windowNamed_name in Ht. }
    destruct (raisable t); cbn; intros w Hw; rewrite Hws.
    + apply elem_of_cons in Hw as [->|Hw]; [now right|]. left.
      apply elem_of_app in Hw as [Hw|Hw];
        apply elem_of_app; [now left|right; now right].
    + apply elem_of_app in Hw as [Hw|Hw]; [left; apply elem_of_app; now left|].
      apply elem_of_cons in Hw as [->|Hw]; [now right|]. left.
      apply elem_of_app. right. now right.
  - rewrite (raiseWindow_notfound _ _ Ht). cbn. now left.
Qed.

Lemma othersMinimized_gentle (keys : list string) (p0 p p' : Process) :
  othersMinimized keys p0 p -> gentle keys p p' -> othersMinimized keys p0 p'.
Proof.
  intros (Hn & Hb & Hg & Hs & Hmin) (Hn' & Hb' & Hg' & Hs' & Hws).
  split; [congruence|]. split; [congruence|]. split; [congruence|].
  split; [congruence|].
  intros Hfacing Hscript Hray w Hw Hkeep.
  assert (Hkey : winKey p' w = winKey p w) by (unfold winKey; now rewrite Hn').
  rewrite Hkey in Hkeep.
  destruct (Hws w Hw) as [Hold|Hkept]; [|congruence].
  now apply Hmin.
Qed.

Lemma othersMinimized_step (keys : list string) (d0 d d' : Desktop) :
  Forall2 (othersMinimized keys) d0 d ->
  Forall2 (gentle keys) d d' ->
  Forall2 (othersMinimized keys) d0 d'.
Proof. apply Forall2_compose, othersMinimized_gentle. Qed.

Lemma showAll_othersMinimized (keys : list string) (uniqueApps : list string)
  (d0 d : Desktop) :
  Forall2 (othersMinimized keys) d0 d ->
  Forall2 (othersMinimized keys) d0 (showAll uniqueApps d).
Proof.
  intros Hd. unfold showAll.
  apply (foldl_invariant (fun d' => Forall2 (othersMinimized keys) d0 d'));
    [|done].
  intros d' app _ Hd'. eapply othersMinimized_step; [exact Hd'|].
  apply makeVisible_Forall2.
  - apply gentle_refl.
  - intros p _. apply gentle_madeVisible.
Qed.

Lemma restoreAll_othersMinimized (ws : list WindowInfo) (d0 d : Desktop) :
  Forall2 (othersMinimized (keepKey <$> ws)) d0 d ->
  Forall2 (othersMinimized (keepKey <$> ws)) d0 (restoreAll ws d).
Proof.
  intros Hd. unfold restoreAll.
  apply (foldl_invariant
           (fun d' => Forall2 (othersMinimized (keepKey <$> ws)) d0 d'));
    [|done].
  intros d' r Hr Hd'. eapply othersMinimized_step; [exact Hd'|].
  apply restoreStep_Forall2.
  - apply gentle_refl.
  - apply gentle_setFrontmost.
  - intros p Hp _. apply gentle_raiseWindow; [done|].
    now apply processNamed_name in Hp.
Qed.

(** The step of a reference leaves nothing to unminimize on the window it
    gets to, and no later step minimizes a window. *)
Lemma restoreStep_settled_self (r : WindowInfo) (d : Desktop) :
  settledAt r (snd (restoreStep r d)).
Proof.
  intros w. rewrite restoreStep_target, !textEq_refl. cbn.
  destruct (target r d) as [w0|]; [|done].
  intros [= <-]. apply unminimized_twice.
Qed.

Lemma restoreStep_settled_keep (r r' : WindowInfo) (d : Desktop) :
  settledAt r' d -> settledAt r' (snd (restoreStep r d)).
Proof.
  intros Hd w. rewrite restoreStep_target.
  destruct (target r d) as [w0|]; [|apply Hd].
  destruct (_ && _); [|apply Hd].
  intros [= <-]. apply unminimized_twice.
Qed.

Lemma restoreAll_settled_keep (ws : list WindowInfo) (r : WindowInfo) (d : Desktop) :
  settledAt r d -> settledAt r (restoreAll ws d).
Proof.
  intros Hd. unfold restoreAll.
  apply (foldl_invariant (settledAt r)); [|done].
  intros d' r' _. apply restoreStep_settled_keep.
Qed.

Lemma restoreAll_settledAt (ws : list WindowInfo) (r : WindowInfo) (d : Desktop) :
  r ∈ ws -> settledAt r (restoreAll ws d).
Proof.
  intros (before & after & ->)%list_elem_of_split.
  rewrite restoreAll_app.
  change (restoreAll (r :: after) ?d')
    with (restoreAll after (snd (restoreStep r d'))).
  apply restoreAll_settled_keep, restoreStep_settled_self.
Qed.

Lemma restoreAll_shownUp (ws : list WindowInfo) (r : WindowInfo) (d : Desktop) :
  r ∈ ws -> found r d = true ->
  shownUp (appName r) (windowTitle r) (restoreAll ws d).
Proof.
  intros Hin Hfound. rewrite <- (restoreAll_found ws) in Hfound.
  apply found_target in Hfound as (w & Hw & _).
  exists w. split; [now apply target_lookup|].
  apply unminimized_fixed. now apply (restoreAll_settledAt ws r d).
Qed.

(** Unminimizing a window where it stands keeps the frontmost window in
    front. *)
Lemma inplace_front (f : Window -> bool) (u : Window -> Window)
  (l1 l2 : list Window) (w2 w : Window) :
  (forall x, f (u x) = f x) ->
  head (l1 ++ w2 :: l2) = Some w ->
  List.find f (l1 ++ w2 :: l2) = Some w ->
  exists w', List.find f (l1 ++ u w2 :: l2) = Some w' /\
             head (l1 ++ u w2 :: l2) = Some w'.
Proof.
  intros Hu Hhead Hfind. pose proof (List.find_some _ _ Hfind) as [_ Hw].
  destruct l1 as [|x l1]; cbn in *.
  - injection Hhead as ->. exists (u w). now rewrite Hu, Hw.
  - injection Hhead as ->. exists w. now rewrite Hw.
Qed.

(** A reference that is found has its window raised by its step, and the
    window stays in front as long as no window of its application is
    raised. *)
Lemma restoreStep_inFront_self (r : WindowInfo) (d : Desktop) :
  found r d = true ->
  inFront (appName r) (windowTitle r) (snd (restoreStep r d)).
Proof.
  intros (w & Hw & Hraise)%found_target. unfold target in Hw.
  destruct (processNamed (appName r) d) as [p|] eqn:Hp; [|done]. cbn in Hw.
  destruct (frontable p) eqn:Hfront; [|done].
  unfold inFront. rewrite restoreStep_process, Hp, Hfront, textEq_refl.
  eexists _, (unminimized w). split; [done|]. split.
  - rewrite raiseWindow_lookup, windowNamed_setFrontmost, Hw.
    now rewrite textEq_refl.
  - destruct (raiseWindow_found (windowTitle r) (setFrontmost false p) w Hw)
      as (l1 & l2 & _ & _ & ->). now rewrite Hraise.
Qed.

Lemma restoreStep_inFront_keep (r : WindowInfo) (a t : string) (d : Desktop) :
  (textEq (appName r) a = true -> found r d = false) ->
  inFront a t d -> inFront a t (snd (restoreStep r d)).
Proof.
  intros Hother (p & w & Hp & Hw & Hhead). unfold inFront.
  rewrite restoreStep_process.
  destruct (processNamed (appName r) d) as [q|] eqn:Hq; [|eauto].
  destruct (frontable q) eqn:Hfront; [|eauto].
  destruct (textEq a (appName r)) eqn:Hclass.
  - rewrite textEq_sym in Hclass. specialize (Hother Hclass).
    rewrite textEq_sym in Hclass.
    rewrite (processNamed_class a (appName r)), Hq in Hp by done.
    injection Hp as ->.
    unfold found in Hother. rewrite (target_process r d p Hq), Hfront in Hother.
    destruct (windowNamed (windowTitle r) p) as [w2|] eqn:Hw2.
    + destruct (raiseWindow_found (windowTitle r) (setFrontmost false p) w2 Hw2)
        as (l1 & l2 & Hws & _ & ->).
      rewrite Hother. cbn [snd]. cbn in Hws.
      unfold windowNamed in Hw. rewrite Hws in Hw, Hhead.
      destruct (inplace_front (fun x => textEq (winName x) t) unminimized
                  l1 l2 w2 w) as (w' & Hfind & Hfront');
        [intros x; now rewrite unminimized_name|done|done|].
      eexists _, w'. split; [done|]. done.
    + rewrite (raiseWindow_notfound (windowTitle r) (setFrontmost false p)) by done.
      cbn [snd]. eexists _, w. split; [done|]. done.
  - rewrite Hp. cbn. eexists _, w. split; [done|]. done.
Qed.

Lemma restoreAll_inFront_keep (ws : list WindowInfo) (a t : string) (d : Desktop) :
  (forall r, r ∈ ws -> textEq (appName r) a = true -> found r d = false) ->
  inFront a t d -> inFront a t (restoreAll ws d).
Proof.
  revert d. induction ws as [|r ws IH]; intros d Hother Hd; [done|].
  change (restoreAll (r :: ws) d) with (restoreAll ws (snd (restoreStep r d))).
  apply IH.
  - intros r' Hr' Hclass. rewrite restoreStep_found. apply Hother; [now right|done].
  - apply restoreStep_inFront_keep; [|done]. apply Hother. left.
Qed.

Lemma not_in_notFound (ws : list WindowInfo) (r : WindowInfo) (d : Desktop) :
  r ∈ ws ->
  r ∉ filter (fun r' => found r' d = false) ws ->
  found r d = true.
Proof.
  intros Hin Hnot. destruct (found r d) eqn:Hfound; [done|].
  exfalso. apply Hnot. now apply list_elem_of_filter.
Qed.

(** C1 (amended). For a group whose names and titles contain no backslash,
    a switch on the Mac platform that completes leaves the desktop so that:
    process by process, every window of a process that was visible, not
    background-only and not Raycast and let its name, bundle identifier and
    windows be read when the switch began, and whose key equals no key of
    the group even ignoring letter case, is minimized, refuses to have its
    attribute AXMinimized set or does not let its name be read; the window
    of every reference that is not reported as not found is not minimized or
    refuses to be unminimized; and that window is the frontmost one of its
    application unless a later reference of the same application was shown
    too. *)
Theorem switchTo_establishes_group
  (group : WindowGroup) (σ σ' : @World Mac) (res : SwitchResult) :
  Forall plainRef (windows group) ->
  switchTo group σ = (Returned res, σ') ->
  Forall2 (othersMinimized (keepKey <$> windows group)) (desktop σ) (desktop σ') /\
  (forall r, r ∈ windows group -> r ∉ notFound res ->
     shownUp (appName r) (windowTitle r) (desktop σ')) /\
  (forall before r after,
     windows group = before ++ r :: after ->
     r ∉ notFound res ->
     (forall r', r' ∈ after -> textEq (appName r') (appName r) = true ->
                 r' ∈ notFound res) ->
     inFront (appName r) (windowTitle r) (desktop σ')).
Proof.
  intros Hplain Hswitch. rewrite Mac_switchTo_plain in Hswitch by done.
  injection Hswitch as <- <-. cbn [notFound desktop withDesktop].
  set (keys := keepKey <$> windows group).
  set (ready := showAll _ (minimizeOthers keys (desktop σ))).
  split; [|split].
  - apply restoreAll_othersMinimized, showAll_othersMinimized,
      minimizeOthers_othersMinimized.
  - intros r Hin Hnot. apply restoreAll_shownUp; [done|].
    now apply (not_in_notFound (windows group)).
  - intros before r after Hsplit Hnot Hlater.
    assert (Hpres : found r ready = true).
    { apply (not_in_notFound (windows group)); [|done].
      rewrite Hsplit. apply elem_of_app. right. left. }
    rewrite Hsplit, restoreAll_app.
    change (restoreAll (r :: after) ?d')
      with (restoreAll after (snd (restoreStep r d'))).
    apply restoreAll_inFront_keep.
    + intros r' Hr' Hclass. rewrite restoreStep_found, restoreAll_found.
      specialize (Hlater r' Hr' Hclass).
      apply list_elem_of_filter in Hlater as [Hfalse _]. exact Hfalse.
    + apply restoreStep_inFront_self. now rewrite restoreAll_found.
Qed.

End SwitchFacts.

Lemma switchTo_establishes_group_witness :
  let σ := Sample.world Sample.devDesktop true in
  Forall plainRef (windows Sample.dev) /\
  exists res σ',
    switchTo Sample.dev σ = (Returned res, σ') /\
    Forall2 (Reading.othersMinimized (keepKey <$> windows Sample.dev))
            (desktop σ) (desktop σ').
Proof.
  assert (Hplain : Forall plainRef (windows Sample.dev))
    by (repeat constructor).
  split; [exact Hplain|].
  eexists _, _. split; [vm_compute; reflexivity|].
  refine (proj1 (switchTo_establishes_group Sample.dev _ _ _ Hplain _)).
  vm_compute. reflexivity.
Defined.

(** C1, as stated, fails: after the switch to the Focus group on a desktop
    where Notes was hidden, the Todo window of Notes, whose key is not in the
    group, is on screen and not minimized. *)
Lemma switchTo_leaves_hidden_application_windows :
  exists res σ',
    switchTo Sample.focus Sample.hiddenNotes = (Returned res, σ') /\
    ~ Reading.switchInvariant Sample.focus res (desktop σ').
Proof.
  eexists _, _. split; [vm_compute; reflexivity|].
  intros [Hothers _].
  specialize (Hothers
    (SystemEvents.setFrontmost true
       (Sample.app "Notes" "com.apple.Notes" true
          [Sample.win "Shopping"; Sample.win "Todo"]))
    (Sample.win "Todo")).
  assert (Hmin : SystemEvents.AXMinimized (Sample.win "Todo") = true).
  { apply Hothers.
    - right. left.
    - right. left.
    - cbn. rewrite !elem_of_cons, elem_of_nil. intros [H|[H|[H|[]]]]; discriminate H. }
  discriminate Hmin.
Qed.

(** On the same desktop the second half of the invariant fails too: the
    window main.ts of Cursor was shown, and utils.ts is in front of it. *)
Lemma switchTo_raises_one_window_per_application :
  exists res σ' p,
    switchTo Sample.focus Sample.hiddenNotes = (Returned res, σ') /\
    (Sample.ref "Cursor" "main.ts" ∉ notFound res) /\
    SystemEvents.processNamed "Cursor" (desktop σ') = Some p /\
    SystemEvents.windowNamed "main.ts" p = Some (Sample.win "main.ts") /\
    head (SystemEvents.procWindows p) = Some (Sample.win "utils.ts").
Proof.
  eexists _, _, _. split; [vm_compute; reflexivity|].
  split; [apply not_elem_of_nil|]. split; [vm_compute; reflexivity|].
  split; vm_compute; reflexivity.
Qed.

(** The scenarios of the specification. *)
Example switchTo_dev_all_running :
  exists σ',
    switchTo Sample.dev (Sample.world Sample.devDesktop true)
      = (Returned {| shown := 2; notFound := [] |}, σ') /\
    visibleWindows (desktop σ') = [("Cursor", "main.ts"); ("Terminal", "bash")].
Proof. eexists. split; vm_compute; reflexivity. Qed.

Example switchTo_dev_terminal_not_running :
  exists σ',
    switchTo Sample.dev (Sample.world Sample.noTerminal true)
      = (Returned {| shown := 1; notFound := [Sample.ref "Terminal" "bash"] |}, σ') /\
    visibleWindows (desktop σ') = [("Cursor", "main.ts")].
Proof. eexists. split; vm_compute; reflexivity. Qed.

Example switchToGroup_dev_nothing_running :
  exists σ',
    switchTo Sample.dev (Sample.world Sample.notesOnly true)
      = (Returned {| shown := 0; notFound := windows Sample.dev |}, σ') /\
    switchToGroup Sample.dev None (Sample.world Sample.notesOnly true)
      = (Returned ({| toastStyle := Failure; toastTitle := "No Windows Found" |},
                   Some (id Sample.dev)), σ').
Proof. eexists. split; vm_compute; reflexivity. Qed.

(** Why the amended invariant speaks of keys up to letter case and of
    processes other than Raycast: the README.md window is kept for the
    reference readme.md, and the Raycast window is never minimized. *)
Example switchTo_keeps_case_variants_and_raycast :
  exists res σ',
    switchTo Sample.readme Sample.mixedCase = (Returned res, σ') /\
    visibleWindows (desktop σ')
      = [("Raycast", "Raycast"); ("Cursor", "README.md")].
Proof. eexists _, _. split; vm_compute; reflexivity. Qed.

(** Why the amended invariant leaves backslashes out: two backslashes of a
    title reach System Events as one, so a window whose key is not a key of
    the group is kept. *)
Example switchTo_reads_escapes_in_titles :
  exists res σ',
    switchTo Sample.escaped Sample.oneBackslash = (Returned res, σ') /\
    (Reading.winKey (Sample.app "Finder" "com.apple.finder" true [])
                    (Sample.win "C:\temp")
       ∉ (keepKey <$> windows Sample.escaped)) /\
    visibleWindows (desktop σ') = [("Finder", "C:\temp")].
Proof.
  eexists _, _. split; [vm_compute; reflexivity|].
  split; [|vm_compute; reflexivity].
  cbn. rewrite elem_of_cons, elem_of_nil. intros [H|[]]. discriminate H.
Qed.

(** Why the amended invariant speaks of refusals: the per-window [try] of
    the minimize script swallows the refusal of the Notes window, which
    stays on screen while the switch succeeds; and a Terminal window that
    refuses to be raised is reported as not found after it was
    unminimized. *)
Example switchTo_leaves_window_that_refuses :
  exists σ',
    switchTo Sample.dev FaultSample.stubbornNotes
      = (Returned {| shown := 2; notFound := [] |}, σ') /\
    visibleWindows (desktop σ')
      = [("Cursor", "main.ts"); ("Terminal", "bash"); ("Notes", "Untitled")].
Proof. eexists. split; vm_compute; reflexivity. Qed.

Example switchTo_unminimizes_window_that_cannot_be_raised :
  exists σ',
    switchTo Sample.dev FaultSample.heavyTerminal
      = (Returned {| shown := 1; notFound := [Sample.ref "Terminal" "bash"] |}, σ') /\
    visibleWindows (desktop σ') = [("Cursor", "main.ts"); ("Terminal", "bash")].
Proof. eexists. split; vm_compute; reflexivity. Qed.

(** ** Switching twice *)

Section TwiceFacts.
Import SystemEvents Reading.

Lemma fmap_fixed {A} (f : A -> A) (l : list A) :
  (forall x, x ∈ l -> f x = x) -> f <$> l = l.
Proof.
  induction l as [|x l IH]; intros Hfix; cbn; [done|].
  rewrite Hfix by left. f_equal. apply IH. intros y Hy. apply Hfix. now right.
Qed.

Lemma setWindows_id (p : Process) : setWindows (procWindows p) p = p.
Proof. now destruct p. Qed.

(** A process whose other windows are minimized, or refuse, is left as it
    is by the exclusionary minimize. *)
Lemma minimizeProcess_settled (keys : list string) (p : Process) :
  othersMinimized keys p p -> minimizeProcess keys p = p.
Proof.
  intros (_ & _ & _ & _ & Hmin). unfold minimizeProcess, RAYCAST in *.
  destruct (userFacing p) eqn:Hfacing; [|done].
  destruct (scriptable p) eqn:Hscript; [|done].
  destruct (textEq (bundleIdentifier p) "com.raycast.macos") eqn:Hray; [done|].
  cbn. rewrite fmap_fixed; [apply setWindows_id|].
  intros w Hw.
  destruct (shouldKeep keys (winKey p w)) eqn:Hkeep.
  - unfold minimizeWindow. cbv zeta. unfold winKey in Hkeep. rewrite Hkeep.
    now destruct (negb (titleReadable w)).
  - apply minimizeWindow_settled. now apply Hmin.
Qed.

Lemma minimizeOthers_settled (keys : list string) (d : Desktop) :
  Forall (fun p => othersMinimized keys p p) d -> minimizeOthers keys d = d.
Proof.
  intros Hall. apply fmap_fixed. intros p Hp.
  apply minimizeProcess_settled. now apply (proj1 (Forall_forall _ _) Hall).
Qed.

Lemma showAll_id (uniqueApps : list string) (d : Desktop) :
  (forall app, app ∈ uniqueApps -> appVisible app d) ->
  showAll uniqueApps d = d.
Proof.
  intros Hvis. unfold showAll.
  apply (foldl_invariant (fun d' => d' = d)); [|done].
  intros d' app Happ ->. apply makeVisible_id, Hvis, Happ.
Qed.

Lemma minimizeOthers_appVisible (keys : list string) (app : string) (d : Desktop) :
  appVisible app d -> appVisible app (minimizeOthers keys d).
Proof.
  intros Hvis p. rewrite minimizeOthers_process.
  destruct (processNamed app d) as [q|] eqn:Hq; cbn; [|done]. intros [= <-].
  destruct (minimizeProcess_frame keys q) as (_ & _ & -> & _). now apply Hvis.
Qed.

Lemma restoreStep_appVisible (r : WindowInfo) (app : string) (d : Desktop) :
  appVisible app d -> appVisible app (snd (restoreStep r d)).
Proof.
  intros Hvis p. rewrite restoreStep_process.
  destruct (processNamed (appName r) d) as [q|] eqn:Hq; [|apply Hvis].
  destruct (frontable q); [|apply Hvis].
  destruct (textEq app (appName r)) eqn:Hclass.
  - intros [= <-].
    destruct (raiseWindow_frame (windowTitle r) (setFrontmost false q))
      as (_ & _ & -> & _).
    change (visible (setFrontmost false q)) with (visible q).
    apply Hvis. now rewrite (processNamed_class app (appName r)).
  - destruct (processNamed app d) as [q'|] eqn:Hq'; cbn; [|done].
    intros [= <-]. change (visible (setFrontmost false q')) with (visible q').
    now apply Hvis.
Qed.

Lemma restoreAll_appVisible (ws : list WindowInfo) (app : string) (d : Desktop) :
  appVisible app d -> appVisible app (restoreAll ws d).
Proof.
  intros Hvis. unfold restoreAll.
  apply (foldl_invariant (appVisible app)); [|done].
  intros d' r _. apply restoreStep_appVisible.
Qed.

Lemma minimizeProcess_othersMinimized (keys : list string) (p : Process) :
  othersMinimized keys p (minimizeProcess keys p).
Proof.
  pose proof (minimizeOthers_othersMinimized keys [p]) as Hall.
  now apply Forall2_cons_1 in Hall as [Hp _].
Qed.

Lemma othersMinimized_self (keys : list string) (p0 p : Process) :
  othersMinimized keys p0 p -> visible p = visible p0 ->
  othersMinimized keys p p.
Proof.
  intros (Hn & Hb & Hg & Hs & Hmin) Hv. repeat split.
  intros Hfacing Hscript Hray. apply Hmin.
  - unfold userFacing in *. now rewrite <- Hv, <- Hg.
  - now rewrite <- Hs.
  - now rewrite <- Hb.
Qed.

Lemma Forall_step {A} (P : A -> Prop) (S : A -> A -> Prop) (l l' : list A) :
  (forall x y, P x -> S x y -> P y) ->
  Forall P l -> Forall2 S l l' -> Forall P l'.
Proof.
  intros Hstep Hl Hll. induction Hll as [|x y l l' Hxy Hll IH]; [done|].
  apply Forall_cons in Hl as [Hx Hl]. constructor; eauto.
Qed.

(** After the exclusionary minimize the desktop is settled, and restoring
    the windows of the group keeps it so. *)
Lemma minimizeOthers_settles (keys : list string) (d : Desktop) :
  Forall (fun p => othersMinimized keys p p) (minimizeOthers keys d).
Proof.
  apply Forall_fmap, Forall_true. intros p. cbn.
  apply (othersMinimized_self keys p); [apply minimizeProcess_othersMinimized|].
  now destruct (minimizeProcess_frame keys p) as (_ & _ & -> & _).
Qed.

Lemma restoreAll_settled (ws : list WindowInfo) (d : Desktop) :
  Forall (fun p => othersMinimized (keepKey <$> ws) p p) d ->
  Forall (fun p => othersMinimized (keepKey <$> ws) p p) (restoreAll ws d).
Proof.
  intros Hd. unfold restoreAll.
  apply (foldl_invariant
           (Forall (fun p => othersMinimized (keepKey <$> ws) p p))); [|done].
  intros d' r Hr Hd'.
  apply (Forall_step _
           (fun p p' => gentle (keepKey <$> ws) p p' /\ visible p' = visible p)
           d'); [|done|].
  - intros p p' Hp [Hgentle Hv].
    apply (othersMinimized_self _ p); [|done].
    now apply (othersMinimized_gentle _ p p).
  - apply restoreStep_Forall2.
    + intros p. split; [apply gentle_refl|done].
    + intros p. split; [apply gentle_setFrontmost|done].
    + intros p Hp _. split.
      * apply gentle_raiseWindow; [done|]. now apply processNamed_name in Hp.
      * now destruct (raiseWindow_frame (windowTitle r) (setFrontmost false p))
          as (_ & _ & -> & _).
Qed.

(** Once the windows that the scripts get to are unminimized, as far as they
    let themselves be, restoring them again changes the stacking order of
    windows and the frontmost flags only. *)
Lemma restacked_refl (p : Process) : restacked p p.
Proof. repeat split; done. Qed.

Lemma restacked_trans (p q s : Process) :
  restacked p q -> restacked q s -> restacked p s.
Proof.
  intros (Hn & Hb & Hv & Hg & Hw) (Hn' & Hb' & Hv' & Hg' & Hw').
  repeat split; try congruence. now rewrite Hw'.
Qed.

Lemma restoreStep_allShown (ws : list WindowInfo) (r : WindowInfo) (d : Desktop) :
  allShown ws d -> allShown ws (snd (restoreStep r d)).
Proof.
  intros Hall r' Hr'. now apply restoreStep_settled_keep, Hall.
Qed.

Lemma restoreStep_restacked (ws : list WindowInfo) (r : WindowInfo) (d : Desktop) :
  r ∈ ws -> allShown ws d -> Forall2 restacked d (snd (restoreStep r d)).
Proof.
  intros Hr Hall. apply restoreStep_Forall2.
  - apply restacked_refl.
  - intros p. repeat split; done.
  - intros p Hp Hfront.
    destruct (raiseWindow_frame (windowTitle r) (setFrontmost false p))
      as (Hn & Hb & Hv & Hg & _).
    split; [done|]. split; [done|]. split; [done|]. split; [done|].
    destruct (windowNamed (windowTitle r) p) as [w|] eqn:Hw.
    + assert (Hfixed : unminimized w = w).
      { apply (Hall r Hr). now rewrite (target_process r d p Hp), Hfront. }
      destruct (raiseWindow_found (windowTitle r) (setFrontmost false p) w Hw)
        as (l1 & l2 & Hws & _ & ->).
      cbn in Hws. rewrite Hfixed.
      destruct (raisable w); cbn; rewrite Hws; [|done].
      apply Permutation_middle.
    + now rewrite (raiseWindow_notfound (windowTitle r) (setFrontmost false p)).
Qed.

Lemma restoreAll_restacked (ws rest : list WindowInfo) (d : Desktop) :
  (forall r, r ∈ rest -> r ∈ ws) ->
  allShown ws d -> Forall2 restacked d (restoreAll rest d).
Proof.
  revert d. induction rest as [|r rest IH]; intros d Hsub Hall.
  - now apply Forall_Forall2_diag, Forall_true, restacked_refl.
  - change (restoreAll (r :: rest) d)
      with (restoreAll rest (snd (restoreStep r d))).
    apply (Forall2_compose restacked restacked restacked _
             (snd (restoreStep r d))); [apply restacked_trans| |].
    + apply (restoreStep_restacked ws); [apply Hsub; left|done].
    + apply IH; [intros r' Hr'; apply Hsub; now right|].
      now apply restoreStep_allShown.
Qed.

Lemma restoreAll_allShown (ws : list WindowInfo) (d : Desktop) :
  allShown ws (restoreAll ws d).
Proof. intros r Hr. now apply restoreAll_settledAt. Qed.

Lemma visibleWindows_restacked (d d' : Desktop) :
  Forall2 restacked d d' -> visibleWindows d' ≡ₚ visibleWindows d.
Proof.
  induction 1 as [|p p' d d' (Hn & Hb & Hv & Hg & Hw) Hdd IH]; [done|].
  unfold visibleWindows in *.
  destruct (visible p) eqn:Hvis.
  - rewrite (filter_cons_True _ p'), (filter_cons_True _ p) by congruence.
    rewrite !bind_cons. apply Permutation_app; [|exact IH].
    rewrite Hn. now apply fmap_Permutation, filter_Permutation.
  - rewrite (filter_cons_False _ p'), (filter_cons_False _ p) by congruence.
    exact IH.
Qed.

(** The applications that the visibility pass addresses are applications of
    the references. *)
Lemma targets_appVisible (ws : list WindowInfo) (d : Desktop) (app : string) :
  targetsVisible ws d ->
  app ∈ omap delivered (JS.unique [] (appName <$> ws)) -> appVisible app d.
Proof.
  intros Hvis Happ p Hp.
  apply list_elem_of_omap in Happ as (a & Ha & Hdel).
  apply unique_subset in Ha.
  apply list_elem_of_fmap in Ha as (r & -> & Hr). eauto.
Qed.

(** C3 (amended). For a group whose applications, as System Events
    receives their names, are visible when the first switch begins, a second
    switch right after the first returns the same shown count and the same
    notFound sequence and leaves the same windows on screen.  The window
    server answers a request the way the window or the process concerned
    answered it before. *)
Theorem switchTo_twice_same_screen
  (group : WindowGroup) (σ σ1 : @World Mac) (res1 : SwitchResult) :
  targetsVisible (windows group) (desktop σ) ->
  switchTo group σ = (Returned res1, σ1) ->
  exists σ2,
    switchTo group σ1 = (Returned res1, σ2) /\
    visibleWindows (desktop σ2) ≡ₚ visibleWindows (desktop σ1).
Proof.
  intros Hvis Hswitch.
  destruct (Mac_switchTo_returned _ _ _ _ Hswitch)
    as (ws' & Hws & Hkeys & Hres & Hσ1).
  cbv zeta in Hres, Hσ1.
  set (ws := windows group) in *.
  set (keys := keepKey <$> ws') in *.
  set (apps := omap delivered (JS.unique [] (appName <$> ws))) in *.
  assert (Hready : showAll apps (minimizeOthers keys (desktop σ))
                   = minimizeOthers keys (desktop σ)).
  { apply showAll_id. intros app Happ.
    now apply minimizeOthers_appVisible, (targets_appVisible ws). }
  rewrite Hready in Hres, Hσ1.
  set (d1 := restoreAll ws' (minimizeOthers keys (desktop σ))) in *.
  assert (Hsettled : minimizeOthers keys d1 = d1).
  { apply minimizeOthers_settled, restoreAll_settled, minimizeOthers_settles. }
  assert (Hready1 : showAll apps (minimizeOthers keys d1) = d1).
  { rewrite Hsettled. apply showAll_id. intros app Happ.
    now apply restoreAll_appVisible, minimizeOthers_appVisible,
      (targets_appVisible ws). }
  eexists. rewrite Mac_switchTo. fold ws. rewrite Hkeys. cbv zeta.
  rewrite Hσ1. cbn [desktop withDesktop]. fold apps keys. rewrite Hready1.
  rewrite restoreAllRefs_delivered, (omap_delivered _ _ Hws).
  split.
  - assert (Hsame : forall b, filter (fun r => foundRef r d1 = b) ws
                            = filter (fun r => foundRef r (minimizeOthers keys (desktop σ)) = b) ws).
    { intros b. apply filter_ext_in. intros r Hr.
      destruct (Forall2_elem_l _ _ _ r Hws Hr) as (r' & _ & Hr').
      rewrite !(foundRef_delivered r r') by done.
      unfold d1. now rewrite restoreAll_found. }
    rewrite !Hsame, Hres. reflexivity.
  - apply visibleWindows_restacked, (restoreAll_restacked ws'); [done|].
    apply restoreAll_allShown.
Qed.

End TwiceFacts.

Lemma switchTo_twice_same_screen_witness :
  Reading.targetsVisible (windows Sample.escaped) (desktop FaultSample.rough) /\
  exists res1 σ1 σ2,
    switchTo Sample.escaped FaultSample.rough = (Returned res1, σ1) /\
    switchTo Sample.escaped σ1 = (Returned res1, σ2) /\
    visibleWindows (desktop σ2) ≡ₚ visibleWindows (desktop σ1).
Proof.
  assert (Hvis : Reading.targetsVisible (windows Sample.escaped)
                   (desktop FaultSample.rough)).
  { intros r app p Hr. cbn in Hr.
    apply elem_of_cons in Hr as [->|Hr]; [|now apply elem_of_nil in Hr].
    vm_compute. intros [= <-] [= <-]. reflexivity. }
  assert (Hswitch : switchTo Sample.escaped FaultSample.rough
                    = (Returned {| shown := 1; notFound := [] |},
                       snd (switchTo Sample.escaped FaultSample.rough))).
  { vm_compute. reflexivity. }
  split; [exact Hvis|].
  destruct (switchTo_twice_same_screen Sample.escaped FaultSample.rough
              _ _ Hvis Hswitch) as (σ2 & Hsecond & Hscreen).
  eexists _, _, σ2. split; [exact Hswitch|]. split; [exact Hsecond|exact Hscreen].
Defined.

(** C3, as stated, fails: the first switch to the Focus group makes the
    hidden Notes visible with its Todo window on screen, and the second
    switch minimizes that window. *)
Lemma switchTo_twice_differs_for_hidden_application :
  ~ Reading.switchIdempotent Sample.focus Sample.hiddenNotes.
Proof.
  intros Hclaim.
  assert (Hfirst : switchTo Sample.focus Sample.hiddenNotes
                   = (fst (switchTo Sample.focus Sample.hiddenNotes),
                      snd (switchTo Sample.focus Sample.hiddenNotes)))
    by apply surjective_pairing.
  assert (Hres : fst (switchTo Sample.focus Sample.hiddenNotes)
                 = Returned {| shown := 3; notFound := [] |})
    by (vm_compute; reflexivity).
  rewrite Hres in Hfirst.
  assert (Hsecond : switchTo Sample.focus
                      (snd (switchTo Sample.focus Sample.hiddenNotes))
                    = (Returned {| shown := 3; notFound := [] |},
                       snd (switchTo Sample.focus
                              (snd (switchTo Sample.focus Sample.hiddenNotes)))))
    by (vm_compute; reflexivity).
  destruct (Hclaim _ _ _ _ Hfirst Hsecond) as (Hscreen & _).
  assert (Hin : ("Notes", "Todo") ∈
                visibleWindows (desktop (snd (switchTo Sample.focus Sample.hiddenNotes))))
    by (vm_compute; right; right; right; left).
  apply Hscreen in Hin. vm_compute in Hin.
  repeat (apply elem_of_cons in Hin as [Heq|Hin]; [discriminate Heq|]).
  now apply elem_of_nil in Hin.
Qed.

(** * The rest of the extension: proofs *)

(** ** storage.ts: composing the operations *)

Section MoreStorageFacts.
Context `{Platform}.

Lemma clock_bind {B} (f : World -> string * World) (k : string -> Async B)
  (σ : World) :
  bind (clock f) k σ = k (fst (f σ)) (snd (f σ)).
Proof. unfold bind, clock. now destruct (f σ). Qed.

Lemma saveGroups_outcome (gs : list WindowGroup) (σ : World) :
  saveGroups gs σ
  = LocalStorage_setItem STORAGE_KEY (JSON_stringify {| groups := Some gs |}) σ.
Proof.
  unfold saveGroups, tryCatch, throw.
  now destruct (LocalStorage_setItem _ _ σ) as [[[]|e] σ1].
Qed.

Lemma list_find_none_iff (target : string) (gs : list WindowGroup) :
  list_find (fun g => id g = target) gs = None <->
  forall g, g ∈ gs -> id g ≠ target.
Proof. rewrite list_find_None, Forall_forall. done. Qed.

Lemma list_find_first (target : string) (before after : list WindowGroup)
  (g : WindowGroup) :
  (forall b, b ∈ before -> id b ≠ target) -> id g = target ->
  list_find (fun g => id g = target) (before ++ g :: after)
  = Some (length before, g).
Proof.
  intros Hbefore Hg. apply list_find_Some. split; [|split; [done|]].
  - now rewrite list_lookup_middle.
  - intros j y Hy Hj. rewrite lookup_app_l in Hy by done.
    apply Hbefore. eapply list_elem_of_lookup_2, Hy.
Qed.

(** X1. What [createGroup] stores: with the groups [gs] stored, a successful
    [createGroup] returns a group with the given name and windows, and the
    groups loaded next are [gs] followed by that group; [getGroup] then
    finds it by its id unless an older group has the same id. *)
Theorem createGroup_appends
  (groupName : string) (groupWindows : list WindowInfo)
  (gs : list WindowGroup) (g : WindowGroup) (σ σ0 σ' : World) :
  KeyValueStore ->
  loadGroups σ = (Returned gs, σ0) ->
  createGroup groupName groupWindows σ = (Returned g, σ') ->
  JSONFaithful (gs ++ [g]) ->
  name g = groupName /\ windows g = groupWindows /\
  loadGroups σ' = (Returned (gs ++ [g]), σ') /\
  ((forall g0, g0 ∈ gs -> id g0 ≠ id g) ->
   getGroup (id g) σ' = (Returned (Some g), σ')).
Proof.
  intros Hkv Hload Hcreate Hjson. unfold createGroup in Hcreate.
  rewrite (bind_returned _ _ _ _ _ Hload), !clock_bind in Hcreate.
  unfold bind at 1 in Hcreate. rewrite saveGroups_outcome in Hcreate.
  destruct (LocalStorage_setItem _ _ _) as [[[]|e] σ2] eqn:Hset; [|done].
  injection Hcreate as <- <-. cbn [name windows].
  split; [done|]. split; [done|].
  assert (Hnext : loadGroups σ2 = (Returned (gs ++ [_]), σ2))
    by (eapply written_is_loaded; eauto).
  split; [exact Hnext|].
  intros Hfresh. unfold getGroup. rewrite (bind_returned _ _ _ _ _ Hnext).
  unfold ret. rewrite (list_find_first _ gs []); [done| |done].
  exact Hfresh.
Qed.

(** X2. An id that no stored group has: [getGroup] returns null and
    [updateGroup] throws Group not found, both stopping in the world that
    reading the groups left, so neither writes. *)
Theorem missing_id_is_reported
  (target : string) (updates : GroupUpdates)
  (gs : list WindowGroup) (σ σ0 : World) :
  loadGroups σ = (Returned gs, σ0) ->
  (forall g, g ∈ gs -> id g ≠ target) ->
  getGroup target σ = (Returned None, σ0) /\
  updateGroup target updates σ = (Thrown groupNotFound, σ0).
Proof.
  intros Hload Hmissing. apply list_find_none_iff in Hmissing.
  unfold getGroup, updateGroup.
  rewrite !(bind_returned _ _ _ _ _ Hload), Hmissing. done.
Qed.

(** X3. What [updateGroup] stores: the first group with the id is replaced
    by itself overlaid with the updates, its [updatedAt] being the instant
    of the update whatever the updates say; the groups before and after it
    are stored unchanged, in their places. *)
Theorem updateGroup_replaces_first
  (target : string) (updates : GroupUpdates)
  (before after : list WindowGroup) (g : WindowGroup)
  (σ σ0 σ' : World) :
  KeyValueStore ->
  loadGroups σ = (Returned (before ++ g :: after), σ0) ->
  (forall b, b ∈ before -> id b ≠ target) ->
  id g = target ->
  updateGroup target updates σ = (Returned tt, σ') ->
  JSONFaithful
    (before ++ applyUpdates g updates (fst (Date_toISOString σ0)) :: after) ->
  loadGroups σ'
  = (Returned
       (before ++ applyUpdates g updates (fst (Date_toISOString σ0)) :: after),
     σ') /\
  updatedAt (applyUpdates g updates (fst (Date_toISOString σ0)))
  = fst (Date_toISOString σ0).
Proof.
  intros Hkv Hload Hbefore Hg Hupdate Hjson. split; [|done].
  unfold updateGroup in Hupdate.
  rewrite (bind_returned _ _ _ _ _ Hload) in Hupdate.
  rewrite (list_find_first _ _ _ _ Hbefore Hg), clock_bind in Hupdate.
  rewrite saveGroups_outcome in Hupdate.
  rewrite insert_app_r_alt, Nat.sub_diag in Hupdate by done.
  cbn [insert list_insert] in Hupdate.
  eapply written_is_loaded; eauto.
Qed.

(** X4. A stored blob that cannot be read empties the store on the next
    deletion: when loading fails, [deleteGroup], whatever the id, saves the
    empty collection, and the groups loaded next are none. *)
Theorem deleteGroup_after_failed_load
  (target : string) (σ σ0 σ' : World) :
  KeyValueStore ->
  JSONFaithful [] ->
  LoadFails σ σ0 ->
  LocalStorage_setItem STORAGE_KEY (JSON_stringify {| groups := Some [] |}) σ0
    = (Returned tt, σ') ->
  deleteGroup target σ = (Returned tt, σ') /\
  loadGroups σ' = (Returned [], σ').
Proof.
  intros Hkv Hjson Hfail Hset.
  assert (Hload : loadGroups σ = (Returned [], σ0)).
  { unfold loadGroups, tryCatch, bind, lift, ret.
    destruct Hfail as [e' Hget | data Hget Hfalsy | text e' Hget Hparse];
      rewrite Hget.
    - reflexivity.
    - destruct data as [text|]; [|reflexivity]. now rewrite Hfalsy.
    - destruct (JS.truthy (Some text)); [|reflexivity]. now rewrite Hparse. }
  split.
  - unfold deleteGroup. rewrite (bind_returned _ _ _ _ _ Hload).
    now rewrite saveGroups_outcome.
  - eapply written_is_loaded; eauto.
Qed.

End MoreStorageFacts.

Lemma createGroup_appends_witness :
  loadGroups Sample.empty = (Returned [], Sample.empty) /\
  createGroup "Work" [Sample.ref "Cursor" "main.ts"] Sample.empty
    = (Returned Sample.work, Sample.afterWork) /\
  loadGroups Sample.afterWork = (Returned [Sample.work], Sample.afterWork) /\
  getGroup "0" Sample.afterWork = (Returned (Some Sample.work), Sample.afterWork).
Proof.
  assert (Hload : loadGroups Sample.empty = (Returned [], Sample.empty))
    by reflexivity.
  assert (Hcreate : createGroup "Work" [Sample.ref "Cursor" "main.ts"] Sample.empty
                    = (Returned Sample.work, Sample.afterWork))
    by (vm_compute; reflexivity).
  assert (Hjson : JSONFaithful (H := Mac) ([] ++ [Sample.work]))
    by (split; [vm_compute; reflexivity | vm_compute; discriminate]).
  destruct (createGroup_appends _ _ _ _ _ _ _ Mac_KeyValueStore Hload Hcreate Hjson)
    as (_ & _ & Hnext & Hget).
  split; [exact Hload|]. split; [exact Hcreate|]. split; [exact Hnext|].
  apply Hget. intros g0 Hg0. now apply elem_of_nil in Hg0.
Defined.

Lemma missing_id_is_reported_witness :
  loadGroups Sample.twoGroups
    = (Returned [Sample.work; Sample.play], Sample.twoGroups) /\
  getGroup "42" Sample.twoGroups = (Returned None, Sample.twoGroups) /\
  updateGroup "42" (MoreSample.rename "Games") Sample.twoGroups
    = (Thrown groupNotFound, Sample.twoGroups).
Proof.
  assert (Hload : loadGroups Sample.twoGroups
                  = (Returned [Sample.work; Sample.play], Sample.twoGroups))
    by (vm_compute; reflexivity).
  split; [exact Hload|].
  apply (missing_id_is_reported "42" _ _ _ _ Hload).
  intros g Hg. apply elem_of_cons in Hg as [->|Hg]; [discriminate|].
  apply elem_of_cons in Hg as [->|Hg]; [discriminate|].
  now apply elem_of_nil in Hg.
Defined.

Lemma updateGroup_replaces_first_witness :
  let σ' := snd (updateGroup "7" (MoreSample.rename "Games") Sample.twoGroups) in
  updateGroup "7" (MoreSample.rename "Games") Sample.twoGroups
    = (Returned tt, σ') /\
  loadGroups σ'
    = (Returned [Sample.work;
                 {| id := "7"; name := "Games";
                    windows := [Sample.ref "Music" "Library"];
                    createdAt := "T8"; updatedAt := "T0" |}], σ').
Proof.
  assert (Hload : loadGroups Sample.twoGroups
                  = (Returned ([Sample.work] ++ Sample.play :: []), Sample.twoGroups))
    by (vm_compute; reflexivity).
  assert (Hupdate : updateGroup "7" (MoreSample.rename "Games") Sample.twoGroups
                    = (Returned tt,
                       snd (updateGroup "7" (MoreSample.rename "Games")
                              Sample.twoGroups)))
    by (vm_compute; reflexivity).
  split; [exact Hupdate|].
  refine (proj1 (updateGroup_replaces_first "7" (MoreSample.rename "Games")
                   [Sample.work] [] Sample.play _ _ _
                   Mac_KeyValueStore Hload _ _ Hupdate _)).
  - intros b Hb. apply elem_of_cons in Hb as [->|Hb]; [discriminate|].
    now apply elem_of_nil in Hb.
  - reflexivity.
  - split; [vm_compute; reflexivity | vm_compute; discriminate].
Defined.

Lemma deleteGroup_after_failed_load_witness :
  let σ' := snd (deleteGroup "0" MoreSample.corrupted) in
  LoadFails MoreSample.corrupted MoreSample.corrupted /\
  deleteGroup "0" MoreSample.corrupted = (Returned tt, σ') /\
  loadGroups σ' = (Returned [], σ').
Proof.
  assert (Hfail : LoadFails MoreSample.corrupted MoreSample.corrupted).
  { apply (parse_throws _ _ "{groups:" "SyntaxError"); vm_compute; reflexivity. }
  split; [exact Hfail|].
  apply (deleteGroup_after_failed_load "0" MoreSample.corrupted
           MoreSample.corrupted _ Mac_KeyValueStore).
  - split; [vm_compute; reflexivity | vm_compute; discriminate].
  - exact Hfail.
  - vm_compute. reflexivity.
Defined.

(** ** create-group.tsx: submitting the form *)

Section SubmitFacts.
Context `{Platform}.

Lemma copied_windows (ws : list WindowInfo) :
  (fun w => {| appName := appName w; windowTitle := windowTitle w;
               windowId := windowId w; bundleId := bundleId w |}) <$> ws = ws.
Proof.
  induction ws as [|w ws IH]; cbn; [done|]. rewrite IH. now destruct w.
Qed.

Lemma createGroup_name (groupName : string) (ws : list WindowInfo)
  (g : WindowGroup) (σ σ' : World) :
  createGroup groupName ws σ = (Returned g, σ') ->
  name g = groupName /\ windows g = ws.
Proof.
  unfold createGroup. destruct (loadGroups_returns σ) as (gs & σ0 & Hload).
  rewrite (bind_returned _ _ _ _ _ Hload), !clock_bind.
  unfold bind at 1.
  destruct (saveGroups _ _) as [[[]|e] σ2]; [|done].
  now intros [= <- <-].
Qed.

Lemma taken_name_spec (gs : list WindowGroup) (n : string) :
  existsb (fun g => String.eqb (JS.toLowerCase (name g)) (JS.toLowerCase n)) gs
  = false <->
  JS.toLowerCase n ∉ (fun g => JS.toLowerCase (name g)) <$> gs.
Proof.
  rewrite <- not_true_iff_false, existsb_exists, list_elem_of_fmap.
  split; intros Hno.
  - intros (g & Heq & Hg). apply Hno. exists g.
    split; [now apply list_elem_of_In|]. now apply String.eqb_eq.
  - intros (g & Hg & Heq). apply Hno. exists g.
    apply String.eqb_eq in Heq. split; [done|]. now apply list_elem_of_In.
Qed.

(** X5. A group is created only under a name that is not empty and differs,
    ignoring letter case, from every name loaded: if the names loaded are
    pairwise distinct up to case and [handleSubmit] ends with the Group
    Created toast, then [createGroup] ran with the trimmed name and the
    selected windows, and the names stay pairwise distinct with the new
    group added. *)
Theorem handleSubmit_keeps_names_distinct
  (valuesName : string) (selectedWindows : list WindowInfo)
  (gs : list WindowGroup) (toast : Toast) (σ σ0 σ' : World) :
  loadGroups σ = (Returned gs, σ0) ->
  NoDup ((fun g => JS.toLowerCase (name g)) <$> gs) ->
  handleSubmit valuesName selectedWindows σ = (Returned toast, σ') ->
  toastTitle toast = "Group Created" ->
  exists g,
    createGroup (JS.trim valuesName) selectedWindows σ0 = (Returned g, σ') /\
    name g = JS.trim valuesName /\ windows g = selectedWindows /\
    JS.trim valuesName <> EmptyString /\
    NoDup ((fun g => JS.toLowerCase (name g)) <$> (gs ++ [g])).
Proof.
  intros Hload Hdistinct Hsubmit Htitle. unfold handleSubmit in Hsubmit.
  destruct (String.eqb_spec (JS.trim valuesName) EmptyString) as [Hblank|Hname].
  { injection Hsubmit as <- _. discriminate Htitle. }
  rewrite (bind_returned _ _ _ _ _ Hload) in Hsubmit.
  destruct (existsb _ gs) eqn:Htaken.
  { injection Hsubmit as <- _. discriminate Htitle. }
  rewrite copied_windows in Hsubmit. unfold tryCatch, bind, ret in Hsubmit.
  destruct (createGroup _ _ σ0) as [[g|e] σ2] eqn:Hcreate.
  - injection Hsubmit as _ <-. exists g.
    destruct (createGroup_name _ _ _ _ _ Hcreate) as [Hg Hws].
    split; [done|]. split; [done|]. split; [done|]. split; [done|].
    rewrite fmap_app. apply NoDup_app. split; [done|]. split.
    + intros n Hn [->|Hin]%elem_of_cons; [|now apply elem_of_nil in Hin].
      apply taken_name_spec in Htaken. rewrite Hg in Hn. contradiction.
    + apply NoDup_singleton.
  - injection Hsubmit as <- _. discriminate Htitle.
Qed.

(** X6. What [handleSubmit] reports without creating a group: a name that
    is empty once trimmed is refused by the Group name is required toast
    before anything is read; and when the groups load and the name is free,
    a fault of [createGroup] is caught and reported by the Error Creating
    Group toast, in the world the fault left. *)
Theorem handleSubmit_reports_failures
  (valuesName : string) (selectedWindows : list WindowInfo) (σ : World) :
  (JS.trim valuesName = EmptyString ->
   handleSubmit valuesName selectedWindows σ
   = (Returned {| toastStyle := Failure;
                  toastTitle := "Group name is required" |}, σ)) /\
  (forall gs σ0 e σ1,
     JS.trim valuesName <> EmptyString ->
     loadGroups σ = (Returned gs, σ0) ->
     (JS.toLowerCase (JS.trim valuesName)
        ∉ (fun g => JS.toLowerCase (name g)) <$> gs) ->
     createGroup (JS.trim valuesName) selectedWindows σ0 = (Thrown e, σ1) ->
     handleSubmit valuesName selectedWindows σ
     = (Returned {| toastStyle := Failure;
                    toastTitle := "Error Creating Group" |}, σ1)).
Proof.
  unfold handleSubmit. split.
  - intros ->. reflexivity.
  - intros gs σ0 e σ1 Hname Hload Hfree Hthrown.
    destruct (String.eqb_spec (JS.trim valuesName) EmptyString) as [Hblank|_];
      [done|].
    rewrite (bind_returned _ _ _ _ _ Hload), copied_windows.
    destruct (existsb _ gs) eqn:Htaken.
    { apply taken_name_spec in Hfree. congruence. }
    unfold tryCatch, bind, ret. now rewrite Hthrown.
Qed.

End SubmitFacts.

Lemma handleSubmit_keeps_names_distinct_witness :
  let out := handleSubmit " Play " [Sample.ref "Music" "Library"] Sample.afterWork in
  loadGroups Sample.afterWork = (Returned [Sample.work], Sample.afterWork) /\
  toastTitle
    match fst out with Returned t => t
    | Thrown _ => {| toastStyle := Failure; toastTitle := EmptyString |} end
    = "Group Created" /\
  exists g,
    createGroup "Play" [Sample.ref "Music" "Library"] Sample.afterWork
      = (Returned g, snd out) /\
    NoDup ((fun g => JS.toLowerCase (name g)) <$> ([Sample.work] ++ [g])).
Proof.
  assert (Hload : loadGroups Sample.afterWork
                  = (Returned [Sample.work], Sample.afterWork))
    by (vm_compute; reflexivity).
  split; [exact Hload|]. split; [vm_compute; reflexivity|].
  destruct (handleSubmit_keeps_names_distinct
              " Play " [Sample.ref "Music" "Library"] [Sample.work]
              {| toastStyle := Success; toastTitle := "Group Created" |}
              Sample.afterWork Sample.afterWork
              (snd (handleSubmit " Play " [Sample.ref "Music" "Library"]
                      Sample.afterWork)) Hload)
    as (g & Hcreate & _ & _ & _ & Hdistinct).
  - apply NoDup_singleton.
  - vm_compute. reflexivity.
  - reflexivity.
  - exists g. split; [exact Hcreate|exact Hdistinct].
Defined.

Lemma handleSubmit_reports_failures_witness :
  handleSubmit "  " [Sample.ref "Music" "Library"] Sample.empty
  = (Returned {| toastStyle := Failure;
                 toastTitle := "Group name is required" |}, Sample.empty) /\
  exists σ1,
    handleSubmit " Work " [Sample.ref "Music" "Library"] Sample.offline
    = (Returned {| toastStyle := Failure;
                   toastTitle := "Error Creating Group" |}, σ1).
Proof.
  split.
  { apply (proj1 (handleSubmit_reports_failures "  "
                    [Sample.ref "Music" "Library"] Sample.empty)).
    reflexivity. }
  assert (Hload : loadGroups Sample.offline = (Returned [], Sample.offline))
    by (vm_compute; reflexivity).
  assert (Hthrown : createGroup (JS.trim " Work ") [Sample.ref "Music" "Library"]
                      Sample.offline
                    = (Thrown storageError,
                       snd (createGroup (JS.trim " Work ")
                              [Sample.ref "Music" "Library"] Sample.offline)))
    by (vm_compute; reflexivity).
  eexists.
  apply (proj2 (handleSubmit_reports_failures " Work "
                  [Sample.ref "Music" "Library"] Sample.offline)
           [] Sample.offline storageError _);
    [discriminate|exact Hload|apply not_elem_of_nil|exact Hthrown].
Defined.

(** ** windowManager.ts: what a snapshot holds *)

Section TrimFacts.

Lemma trimEnd_cons (c : ascii) (r : string) :
  JS.trimEnd (String c r) =
    match JS.trimEnd r with
    | EmptyString => if JS.isSpace c then EmptyString else String c EmptyString
    | r' => String c r'
    end.
Proof. reflexivity. Qed.

Lemma trimEnd_idempotent (s : string) : JS.trimEnd (JS.trimEnd s) = JS.trimEnd s.
Proof.
  induction s as [|c r IH]; [done|].
  rewrite trimEnd_cons. destruct (JS.trimEnd r) as [|c' r'] eqn:Hr.
  - destruct (JS.isSpace c) eqn:Hc; [done|].
    rewrite trimEnd_cons. cbn [JS.trimEnd]. now rewrite Hc.
  - rewrite trimEnd_cons, IH. done.
Qed.

Lemma trimStart_clean (s : string) : startsClean (JS.trimStart s).
Proof.
  induction s as [|c r IH]; cbn; [done|].
  destruct (JS.isSpace c) eqn:Hc; [done|]. exact Hc.
Qed.

Lemma trimStart_id (s : string) : startsClean s -> JS.trimStart s = s.
Proof. destruct s as [|c r]; cbn; [done|]. now intros ->. Qed.

Lemma trimEnd_clean (s : string) : startsClean s -> startsClean (JS.trimEnd s).
Proof.
  destruct s as [|c r]; [done|]. cbn [startsClean]. intros Hc.
  rewrite trimEnd_cons. destruct (JS.trimEnd r); [now rewrite Hc|done].
Qed.

Lemma trim_idempotent (s : string) : JS.trim (JS.trim s) = JS.trim s.
Proof.
  unfold JS.trim.
  rewrite (trimStart_id (JS.trimEnd _)), trimEnd_idempotent; [done|].
  apply trimEnd_clean, trimStart_clean.
Qed.

End TrimFacts.

Section SnapshotFacts.
Context `{Platform}.

Lemma parseLine_fields (line : string) (w : WindowInfo) :
  parseLine line = Some w ->
  (exists b, bundleId w = Some b /\ b <> RAYCAST /\ JS.trim b = b) /\
  windowId w = getWindowKey w /\
  JS.trim (appName w) = appName w /\
  JS.trim (windowTitle w) = windowTitle w.
Proof.
  unfold parseLine.
  destruct (JS.split "|||" line) as [|p0 [|p1 [|p2 rest]]]; try done.
  destruct (String.eqb_spec (JS.trim p2) RAYCAST) as [?|Hray]; [done|].
  intros [= <-]. cbn. split; [|split; [done|split; apply trim_idempotent]].
  exists (JS.trim p2). split; [done|]. split; [done|]. apply trim_idempotent.
Qed.

(** X7. [getOpenWindows] never throws, and answers the empty list when the
    script is rejected.  Every window of a snapshot carries a bundle
    identifier other than Raycast's, has the key of its application name
    and title as its [windowId], and has both of them, and the bundle
    identifier, free of white space at either end. *)
Theorem getOpenWindows_snapshot (σ : World) :
  exists snapshot σ',
    getOpenWindows σ = (Returned snapshot, σ') /\
    (forall e σ1, runAppleScript GetOpenWindowsScript σ = (Thrown e, σ1) ->
                  snapshot = [] /\ σ' = σ1) /\
    (forall w, w ∈ snapshot ->
       (exists b, bundleId w = Some b /\ b <> RAYCAST /\ JS.trim b = b) /\
       windowId w = getWindowKey w /\
       JS.trim (appName w) = appName w /\
       JS.trim (windowTitle w) = windowTitle w).
Proof.
  unfold getOpenWindows, tryCatch, bind, ret.
  destruct (runAppleScript GetOpenWindowsScript σ) as [[result|e] σ1].
  - eexists _, _. split; [reflexivity|]. split; [intros; done|].
    intros w (line & _ & Hline)%list_elem_of_omap.
    now apply (parseLine_fields line).
  - eexists _, _. split; [reflexivity|]. split.
    + now intros e' σ1' [= <- <-].
    + intros w Hw. now apply elem_of_nil in Hw.
Qed.

End SnapshotFacts.

Lemma getOpenWindows_snapshot_witness :
  exists w snapshot σ',
    getOpenWindows (Sample.world Sample.devDesktop true)
      = (Returned (w :: snapshot), σ') /\
    windowId w = getWindowKey w /\ JS.trim (appName w) = appName w.
Proof.
  destruct (getOpenWindows_snapshot (Sample.world Sample.devDesktop true))
    as (snapshot & σ' & Hsnap & _ & Hall).
  assert (Hfirst : exists w rest, snapshot = w :: rest).
  { vm_compute in Hsnap. injection Hsnap as <- _. eauto. }
  destruct Hfirst as (w & rest & ->).
  exists w, rest, σ'. split; [exact Hsnap|].
  destruct (Hall w) as (_ & Hid & Happ & _); [left|]. split; [exact Hid|exact Happ].
Defined.

(** ** switch-group.tsx and manage-groups.tsx: the actions *)

Section ActionFacts.
Context `{ScriptRunner}.

(** X8. The two switch commands, [switchToGroup] of switch-group.tsx and
    [handleSwitchToGroup] of manage-groups.tsx, never throw, end in the same
    world with the same active group and toasts of the same style.  When
    [minimizeAllExcept] throws, the active group is left as it was and the
    toast is a failure; otherwise the group becomes the active one, whatever
    was found, and the toast is a failure exactly when no window was shown,
    which includes the group with no windows. *)
Theorem switch_commands_agree
  (group : WindowGroup) (active : option string) (σ : World) :
  exists t1 t2 a σ',
    switchToGroup group active σ = (Returned (t1, a), σ') /\
    handleSwitchToGroup group active σ = (Returned (t2, a), σ') /\
    toastStyle t1 = toastStyle t2 /\
    match minimizeAllExcept (windows group) σ with
    | (Thrown _, σ1) => a = active /\ σ' = σ1 /\ toastStyle t1 = Failure
    | (Returned _, _) =>
        a = Some (id group) /\
        exists res, switchTo group σ = (Returned res, σ') /\
                    (toastStyle t1 = Failure <-> shown res = 0)
    end.
Proof.
  destruct (minimizeAllExcept (windows group) σ) as [[[]|e] σ1] eqn:Hmin.
  - destruct (restoreWindows_returns (windows group) σ1) as (res & σ2 & Hres).
    assert (Hswitch : switchTo group σ = (Returned res, σ2)).
    { unfold switchTo. now rewrite (bind_returned _ _ _ _ _ Hmin). }
    unfold switchToGroup, handleSwitchToGroup, tryCatch.
    rewrite (bind_returned _ _ _ _ _ Hswitch), (bind_returned _ _ _ _ _ Hmin),
      (bind_returned _ _ _ _ _ Hres).
    unfold ret.
    destruct (shown res =? 0) eqn:Hshown;
      [|destruct (0 <? length (notFound res))];
      eexists _, _, _, _; (split; [reflexivity|]); (split; [reflexivity|]);
      (split; [reflexivity|]); (split; [reflexivity|]);
      exists res; (split; [exact Hswitch|]); cbn.
    + apply Nat.eqb_eq in Hshown. done.
    + apply Nat.eqb_neq in Hshown. split; [done|]. intros. done.
    + apply Nat.eqb_neq in Hshown. split; [done|]. intros. done.
  - assert (Hswitch : switchTo group σ = (Thrown e, σ1)).
    { unfold switchTo. now rewrite (bind_thrown _ _ _ _ _ Hmin). }
    unfold switchToGroup, handleSwitchToGroup, tryCatch.
    rewrite (bind_thrown _ _ _ _ _ Hswitch), (bind_thrown _ _ _ _ _ Hmin).
    unfold ret. eexists _, _, _, _. repeat split; reflexivity.
Qed.

(** X9. The fault behaviour of the remaining window-manager functions:
    [minimizeAllWindows] and [restoreAllWindows] rethrow the error of their
    script; [showAllWindows] never throws, clears the active group when the
    script ran and keeps it, with the error toast, when it did not; and
    [isAppRunning] never throws, answering false when its script is
    rejected. *)
Theorem utility_faults (active : option string) (app : string) (σ : World) :
  (forall e σ', runUtilityScript MinimizeAllScript σ = (Thrown e, σ') ->
                minimizeAllWindows σ = (Thrown e, σ')) /\
  (forall e σ', runUtilityScript RestoreAllScript σ = (Thrown e, σ') ->
                restoreAllWindows σ = (Thrown e, σ') /\
                showAllWindows active σ
                = (Returned ({| toastStyle := Failure; toastTitle := "Error" |},
                             active), σ')) /\
  (forall result σ', runUtilityScript RestoreAllScript σ = (Returned result, σ') ->
                restoreAllWindows σ = (Returned tt, σ') /\
                showAllWindows active σ
                = (Returned ({| toastStyle := Success;
                                toastTitle := "All Windows Restored" |}, None), σ')) /\
  (exists running σ',
     isAppRunning app σ = (Returned running, σ') /\
     (forall e σ1,
        runUtilityScript (ExistsProcessScript (JS.escapeQuotes app)) σ
          = (Thrown e, σ1) -> running = false)).
Proof.
  unfold minimizeAllWindows, showAllWindows, restoreAllWindows, isAppRunning,
    tryCatch, bind, ret, throw.
  split; [|split; [|split]].
  - now intros e σ' ->.
  - now intros e σ' ->.
  - now intros result σ' ->.
  - destruct (runUtilityScript (ExistsProcessScript _) σ) as [[result|e] σ1];
      eexists _, _; (split; [reflexivity|]); [intros; done|done].
Qed.

End ActionFacts.

Lemma utility_faults_witness :
  let σ := Sample.world Sample.devDesktop true in
  exists σ',
    runUtilityScript RestoreAllScript σ = (Returned EmptyString, σ') /\
    showAllWindows (Some "1700000000000") σ
    = (Returned ({| toastStyle := Success;
                    toastTitle := "All Windows Restored" |}, None), σ').
Proof.
  eexists. split; [reflexivity|].
  destruct (utility_faults (Some "1700000000000") "Cursor"
              (Sample.world Sample.devDesktop true)) as (_ & _ & Hran & _).
  refine (proj2 (Hran EmptyString _ _)). reflexivity.
Defined.

Section DeleteFacts.
Context `{ScriptRunner}.

(** X10. [handleDeleteGroup]: a declined confirmation changes nothing.  A
    confirmed deletion, on a store that takes the write, ends with the list
    of the groups whose id is not the deleted group's, and with an active
    group that is not the deleted one and is otherwise the one before. *)
Theorem handleDeleteGroup_forgets_group
  (group : WindowGroup) (active : option string)
  (listed gs : list WindowGroup) (σ σ0 σ1 : World) :
  KeyValueStore ->
  loadGroups σ = (Returned gs, σ0) ->
  JSONFaithful (filter (fun g => id g ≠ id group) gs) ->
  LocalStorage_setItem STORAGE_KEY
    (JSON_stringify {| groups := Some (filter (fun g => id g ≠ id group) gs) |}) σ0
    = (Returned tt, σ1) ->
  handleDeleteGroup group false active listed σ
    = (Returned (None, active, listed), σ) /\
  exists active',
    handleDeleteGroup group true active listed σ
    = (Returned (Some {| toastStyle := Success; toastTitle := "Group Deleted" |},
                 active', filter (fun g => id g ≠ id group) gs), σ1) /\
    active' ≠ Some (id group) /\
    (active ≠ Some (id group) -> active' = active) /\
    (forall g, g ∈ filter (fun g => id g ≠ id group) gs -> id g ≠ id group).
Proof.
  intros Hkv Hload Hjson Hset. split; [reflexivity|].
  assert (Hdel : deleteGroup (id group) σ = (Returned tt, σ1)).
  { unfold deleteGroup. rewrite (bind_returned _ _ _ _ _ Hload).
    now apply saveGroups_returned. }
  assert (Hnext : loadGroups σ1
                  = (Returned (filter (fun g => id g ≠ id group) gs), σ1))
    by (eapply written_is_loaded; eauto).
  eexists. unfold handleDeleteGroup.
  rewrite (bind_returned _ _ _ _ _ Hdel), (bind_returned _ _ _ _ _ Hnext).
  split; [reflexivity|]. split; [|split].
  - case_bool_decide; [done|done].
  - intros Hother. now rewrite bool_decide_eq_false_2.
  - intros g [Hg _]%list_elem_of_filter. exact Hg.
Qed.

End DeleteFacts.

Lemma handleDeleteGroup_forgets_group_witness :
  exists active',
    handleDeleteGroup Sample.work true (Some "0") [Sample.work; Sample.play]
      Sample.twoGroups
    = (Returned (Some {| toastStyle := Success; toastTitle := "Group Deleted" |},
                 active', filter (fun g => id g ≠ "0") [Sample.work; Sample.play]),
       snd (saveGroups [Sample.play] Sample.empty)) /\
    active' ≠ Some "0".
Proof.
  destruct (handleDeleteGroup_forgets_group Sample.work (Some "0")
              [Sample.work; Sample.play] [Sample.work; Sample.play]
              Sample.twoGroups Sample.twoGroups
              (snd (saveGroups [Sample.play] Sample.empty)) Mac_KeyValueStore)
    as (_ & active' & Hdel & Hactive & _).
  - vm_compute. reflexivity.
  - split; [vm_compute; reflexivity | vm_compute; discriminate].
  - vm_compute. reflexivity.
  - exists active'. split; [exact Hdel|exact Hactive].
Defined.

(** ** create-group.tsx: the windows offered and the selection *)

Section OfferFacts.
Context `{Platform}.

Lemma usedKeys_inner (used : gset string) (ws : list WindowInfo) (k : string) :
  k ∈ foldl (fun used w => used ∪ {[ appName w +:+ "::" +:+ windowTitle w ]})
            used ws
  <-> k ∈ used \/ exists w, w ∈ ws /\ getWindowKey w = k.
Proof.
  revert used. induction ws as [|w ws IH]; intros used; cbn.
  - split; [now left|]. intros [Hk|(w & Hw & _)]; [done|].
    now apply elem_of_nil in Hw.
  - rewrite IH, elem_of_union, elem_of_singleton. unfold getWindowKey. split.
    + intros [[Hk | ->]|(w' & Hw' & Hk)]; [now left| |].
      * right. exists w. split; [left|done].
      * right. exists w'. split; [now right|done].
    + intros [Hk|(w' & [->|Hw']%elem_of_cons & Hk)].
      * left. now left.
      * left. now right.
      * right. eauto.
Qed.

Lemma usedKeys_outer (used : gset string) (gs : list WindowGroup) (k : string) :
  k ∈ foldl (fun used group =>
               foldl (fun used w =>
                        used ∪ {[ appName w +:+ "::" +:+ windowTitle w ]})
                     used (windows group))
            used gs
  <-> k ∈ used \/ exists g w, g ∈ gs /\ w ∈ windows g /\ getWindowKey w = k.
Proof.
  revert used. induction gs as [|g gs IH]; intros used; cbn.
  - split; [now left|]. intros [Hk|(g & w & Hg & _)]; [done|].
    now apply elem_of_nil in Hg.
  - rewrite IH, usedKeys_inner. split.
    + intros [[Hk|(w & Hw & Hk)]|(g' & w & Hg' & Hw & Hk)]; [now left| |].
      * right. exists g, w. split; [left|done].
      * right. exists g', w. split; [now right|done].
    + intros [Hk|(g' & w & [->|Hg']%elem_of_cons & Hw & Hk)].
      * left. now left.
      * left. right. eauto.
      * right. eauto.
Qed.

Lemma usedKeys_spec (gs : list WindowGroup) (k : string) :
  k ∈ usedKeys gs <->
  exists g w, g ∈ gs /\ w ∈ windows g /\ getWindowKey w = k.
Proof.
  unfold usedKeys. rewrite usedKeys_outer. split; [|now right].
  intros [Hk|Hk]; [|done]. now apply elem_of_empty in Hk.
Qed.

(** X11. The windows offered for a new group are the windows of the
    snapshot, in their order, whose key is the key of no window of a stored
    group: a window already in a group is never offered, whatever else
    differs between the two windows. *)
Theorem loadOpenWindows_offers_unclaimed
  (snapshot : list WindowInfo) (gs : list WindowGroup) (σ σ0 σ1 : World) :
  getOpenWindows σ = (Returned snapshot, σ0) ->
  loadGroups σ0 = (Returned gs, σ1) ->
  exists offered,
    loadOpenWindows σ = (Returned offered, σ1) /\
    sublist offered snapshot /\
    (forall w, w ∈ offered <->
       w ∈ snapshot /\
       forall g w', g ∈ gs -> w' ∈ windows g ->
                    getWindowKey w' ≠ getWindowKey w).
Proof.
  intros Hsnap Hload. eexists. unfold loadOpenWindows.
  rewrite (bind_returned _ _ _ _ _ Hsnap), (bind_returned _ _ _ _ _ Hload).
  split; [reflexivity|]. split; [apply sublist_filter|].
  intros w. rewrite list_elem_of_filter.
  change (appName w +:+ "::" +:+ windowTitle w) with (getWindowKey w).
  rewrite usedKeys_spec. split.
  - intros [Hfree Hw]. split; [done|]. intros g w' Hg Hw' Hkey.
    apply Hfree. eauto.
  - intros [Hw Hfree]. split; [|done]. intros (g & w' & Hg & Hw' & Hkey).
    now apply (Hfree g w').
Qed.

End OfferFacts.

#[local] Set Warnings "-clear-no-such-hyp".

(** X12. The selection of create-group.tsx: toggling a window twice gives the
    selection back; after one toggle the selected windows are the open
    windows whose key was selected and is not the toggled window's, together
    with, when that key was not selected, every open window that has it;
    and the selected windows are always open windows, in their order. *)
Theorem toggleWindow_selection
  (window : WindowInfo) (openWindows : list WindowInfo)
  (selectedWindows : gset string) :
  toggleWindow window (toggleWindow window selectedWindows) = selectedWindows /\
  sublist (getSelectedWindowsList openWindows selectedWindows) openWindows /\
  (forall w,
     w ∈ getSelectedWindowsList openWindows (toggleWindow window selectedWindows)
     <-> w ∈ openWindows /\
         if decide (getWindowKey w = getWindowKey window)
         then getWindowKey window ∉ selectedWindows
         else getWindowKey w ∈ selectedWindows).
Proof.
  split; [|split].
  - unfold toggleWindow. cbv zeta.
    destruct (decide (getWindowKey window ∈ selectedWindows)) as [Hin|Hin].
    + rewrite (bool_decide_eq_true_2 _ Hin).
      rewrite bool_decide_eq_false_2 by set_solver.
      apply set_eq. intros k. destruct (decide (k = getWindowKey window));
        set_solver.
    + rewrite (bool_decide_eq_false_2 _ Hin).
      rewrite bool_decide_eq_true_2 by set_solver. set_solver.
  - apply sublist_filter.
  - intros w. unfold getSelectedWindowsList, toggleWindow. cbv zeta.
    rewrite list_elem_of_filter.
    case_bool_decide as Hin; destruct (decide _) as [Hkey|Hkey];
      set_solver.
Qed.


Lemma loadOpenWindows_offers_unclaimed_witness :
  exists snapshot gs σ0 σ1 offered,
    getOpenWindows OfferSample.busy = (Returned snapshot, σ0) /\
    loadGroups σ0 = (Returned gs, σ1) /\
    loadOpenWindows OfferSample.busy = (Returned offered, σ1) /\
    sublist offered snapshot /\
    (forall w, w ∈ offered <->
       w ∈ snapshot /\
       forall g w', g ∈ gs -> w' ∈ windows g ->
                    getWindowKey w' ≠ getWindowKey w).
Proof.
  destruct (loadOpenWindows_offers_unclaimed _ _ OfferSample.busy _ _
              eq_refl eq_refl) as (offered & Hrun & Hsub & Hspec).
  eexists _, _, _, _, offered.
  split; [reflexivity|]. split; [reflexivity|].
  split; [exact Hrun|]. split; [exact Hsub|exact Hspec].
Defined.

(** ** windowManager.ts on the Mac platform: the whole desktop *)

Section WholeFacts.
Import SystemEvents Reading Utility Whole.

Lemma Mac_restoreAllWindows (σ : @World Mac) :
  restoreAllWindows σ
  = (Returned tt, withDesktop (restoreEverything (desktop σ)) σ).
Proof. reflexivity. Qed.

Lemma Mac_minimizeAllWindows (σ : @World Mac) :
  minimizeAllWindows σ
  = (Returned tt, withDesktop (minimizeEverything (desktop σ)) σ).
Proof. reflexivity. Qed.

Lemma restoreWhole_restored (p : Process) : restored p (restoreWhole p).
Proof.
  unfold restored, restoreWhole, restorable, RAYCAST.
  destruct (negb (backgroundOnly p) && bundleReadable p && _ && showable p)
    eqn:Hr; [|done].
  destruct (windowsReadable p); [|done].
  cbn. repeat split.
  - rewrite <- list_fmap_compose.
    erewrite list_fmap_ext; [reflexivity|].
    intros i w _. apply unminimized_name.
  - intros w (w0 & -> & _)%list_elem_of_fmap.
    apply unminimized_fixed, unminimized_twice.
Qed.

(** X13. [showAllWindows] on the Mac platform, where the script of
    [restoreAllWindows] runs, clears the active group.  Afterwards every
    process that is not background-only and not Raycast, lets its bundle
    identifier be read and lets itself be made visible is visible; each of
    its windows is unminimized or refuses to be if its windows can be read,
    and its windows are as before if they cannot; the other processes are
    untouched; no window is added, dropped or renamed, and the storage is
    not written. *)
Theorem showAllWindows_shows_everything
  (active : option string) (σ : @World Mac) :
  exists σ',
    showAllWindows active σ
    = (Returned ({| toastStyle := Success;
                    toastTitle := "All Windows Restored" |}, None), σ') /\
    Forall2 restored (desktop σ) (desktop σ') /\
    localStorage σ' = localStorage σ.
Proof.
  eexists. split; [reflexivity|]. cbn [desktop withDesktop localStorage].
  split; [|done].
  unfold restoreEverything. apply Forall2_fmap_r, Forall_Forall2_diag, Forall_true.
  apply restoreWhole_restored.
Qed.

Lemma minimizeAny_twice (w : Window) : minimizeAny (minimizeAny w) = minimizeAny w.
Proof. destruct w as [n m tr r s a]. destruct m, r, s; reflexivity. Qed.

Lemma minimizeWhole_twice (p : Process) :
  minimizeWhole (minimizeWhole p) = minimizeWhole p.
Proof.
  unfold minimizeWhole, userFacing.
  destruct (visible p && negb (backgroundOnly p) && bundleReadable p && _
            && windowsReadable p) eqn:He;
    [|now rewrite He].
  cbn [visible backgroundOnly bundleIdentifier bundleReadable windowsReadable
         setWindows].
  rewrite He. unfold setWindows. cbn. f_equal.
  rewrite <- list_fmap_compose. apply list_fmap_ext.
  intros i w _. apply minimizeAny_twice.
Qed.

Lemma restoreWhole_twice (p : Process) :
  restoreWhole (restoreWhole p) = restoreWhole p.
Proof.
  unfold restoreWhole.
  destruct (negb (backgroundOnly p) && bundleReadable p && _ && showable p)
    eqn:He; [|now rewrite He].
  destruct (windowsReadable p) eqn:Hw;
    cbn [backgroundOnly bundleIdentifier bundleReadable windowsReadable
           showable setWindows setVisible];
    rewrite He, Hw; [|done].
  unfold setWindows, setVisible. cbn. f_equal.
  rewrite <- list_fmap_compose. apply list_fmap_ext.
  intros i w _. apply unminimized_twice.
Qed.

(** X14. On the Mac platform each of [minimizeAllWindows] and
    [restoreAllWindows] done twice gives what doing it once gives: a request
    that a window or a process refused the first time is refused again, and
    the others have nothing left to do. *)
Theorem whole_desktop_operations_settle (σ : @World Mac) :
  bind minimizeAllWindows (fun _ => minimizeAllWindows) σ = minimizeAllWindows σ /\
  bind restoreAllWindows (fun _ => restoreAllWindows) σ = restoreAllWindows σ.
Proof.
  split.
  - unfold bind. rewrite !Mac_minimizeAllWindows. unfold withDesktop.
    cbn [desktop localStorage storageOnline ticks]. do 2 f_equal.
    unfold minimizeEverything.
    rewrite <- list_fmap_compose. apply list_fmap_ext.
    intros i p _. apply minimizeWhole_twice.
  - unfold bind. rewrite !Mac_restoreAllWindows. unfold withDesktop.
    cbn [desktop localStorage storageOnline ticks]. do 2 f_equal.
    unfold restoreEverything.
    rewrite <- list_fmap_compose. apply list_fmap_ext.
    intros i p _. apply restoreWhole_twice.
Qed.

Lemma fullyShown_Forall (d : Desktop) :
  Forall (fun p => visible p = true /\
                   Forall (fun w => AXMinimized w = false) (procWindows p)) d ->
  fullyShown d.
Proof.
  intros Hall p Hp. apply (proj1 (Forall_forall _ _) Hall) in Hp as [Hv Hw].
  split; [done|]. now apply Forall_forall.
Qed.

Lemma compliant_Forall (d : Desktop) :
  Forall (fun p => bundleReadable p = true /\ windowsReadable p = true /\
                   showable p = true /\
                   Forall grants (procWindows p)) d ->
  compliant d.
Proof.
  intros Hall p Hp.
  apply (proj1 (Forall_forall _ _) Hall) in Hp as (Hs & Hv & Hf & Hw).
  split; [done|]. split; [done|]. split; [done|]. now apply Forall_forall.
Qed.

(** On a window that grants its requests the unminimizing clears the
    flag. *)
Lemma unminimized_grants (w : Window) :
  grants (setMinimized false w) -> unminimized w = setMinimized false w.
Proof.
  destruct w as [n m tr r s a]. intros (Hr & Hs). cbn in *. subst.
  now destruct m.
Qed.

Lemma soft_refl (p : Process) : soft p p.
Proof. repeat split; try done. intros _ _ _ w Hw. now right. Qed.

Lemma soft_madeVisible (p : Process) : soft p (madeVisible p).
Proof.
  destruct (madeVisible_frame p) as (Hn & Hb & Hg & _ & Hv & _ & Hws & Hvis).
  destruct (madeVisible_readable p) as (Hbr & Hwr).
  repeat split; try done; rewrite Hws; [done|].
  intros _ _ _ w Hw. now right.
Qed.

Lemma soft_setFrontmost (b : bool) (p : Process) : soft p (setFrontmost b p).
Proof. repeat split; try done. intros _ _ _ w Hw. now right. Qed.

Lemma soft_minimizeProcess (keys : list string) (p : Process) :
  soft p (minimizeProcess keys p).
Proof.
  unfold minimizeProcess.
  destruct (userFacing p && scriptable p && _) eqn:He; [|apply soft_refl].
  split; [done|]. split; [done|]. split; [done|]. split; [done|].
  split; [done|]. split; [done|]. split; [done|]. split.
  - cbn. rewrite <- list_fmap_compose.
    erewrite list_fmap_ext; [reflexivity|].
    intros i w _. apply minimizeWindow_cleared.
  - intros Hr Hshow Hv. exfalso.
    unfold restorable, userFacing, scriptable, RAYCAST in *.
    rewrite Hv, Hshow in *. cbn in He. rewrite andb_true_r in Hr.
    destruct (backgroundOnly p), (nameReadable p), (bundleReadable p),
      (windowsReadable p), (textEq _ _); cbn in *; congruence.
Qed.

Lemma soft_raiseWindow (title : string) (p : Process) :
  soft p (snd (raiseWindow title (setFrontmost false p))).
Proof.
  destruct (raiseWindow_frame title (setFrontmost false p))
    as (Hn & Hb & Hv & Hg & _ & Hsh & _).
  destruct (raiseWindow_readable title (setFrontmost false p)) as (Hbr & Hwr).
  split; [done|]. split; [done|]. split; [done|]. split; [done|].
  split; [done|]. split; [done|]. split; [intros Hvis; now rewrite Hv|].
  destruct (windowNamed title (setFrontmost false p)) as [w|] eqn:Hw.
  - destruct (raiseWindow_found title (setFrontmost false p) w Hw)
      as (l1 & l2 & Hws & _ & ->).
    cbn in Hws.
    assert (Hnew : forall x, x ∈ unminimized w :: l1 ++ l2 ->
                             AXMinimized x = false \/ x ∈ procWindows p).
    { intros x [->|Hx]%elem_of_cons.
      - destruct (unminimized_cases w) as [->|Hflag]; [|now left].
        right. rewrite Hws. set_solver.
      - right. rewrite Hws. set_solver. }
    destruct (raisable w); cbn [snd setWindows procWindows]; rewrite Hws; split.
    + rewrite !fmap_cons, !fmap_app, fmap_cons, unminimized_cleared.
      apply Permutation_middle.
    + intros _ _ _ x Hx. rewrite <- Hws. now apply Hnew.
    + now rewrite !fmap_app, !fmap_cons, unminimized_cleared.
    + intros _ _ _ x Hx. rewrite <- Hws. apply Hnew. set_solver.
  - rewrite (raiseWindow_notfound _ _ Hw). cbn. split; [done|].
    intros _ _ _ x Hx. now right.
Qed.

Lemma dimmed_soft (p0 p p' : Process) : dimmed p0 p -> soft p p' -> dimmed p0 p'.
Proof.
  intros (Hs0 & Hc0 & Hn & Hb & Hg & Hbr & Hwr & Hsh & Hv & Hw & Hmin)
         (Hn' & Hb' & Hg' & Hbr' & Hwr' & Hsh' & Hv' & Hw' & Hmin').
  split; [done|]. split; [done|]. split; [congruence|]. split; [congruence|].
  split; [congruence|]. split; [congruence|]. split; [congruence|].
  split; [congruence|].
  split; [auto|]. split; [now rewrite Hw'|].
  intros Hr w Hin.
  assert (Hrp : restorable p = false).
  { unfold restorable in *. now rewrite Hb, Hg, Hbr, Hsh. }
  assert (Hshow : showable p = true).
  { rewrite Hsh. now destruct Hc0 as (_ & _ & -> & _). }
  destruct (Hmin' Hrp Hshow Hv w Hin) as [Hflag|Hold]; [done|]. now apply Hmin.
Qed.

Lemma dimmed_step (d0 d d' : Desktop) :
  Forall2 dimmed d0 d -> Forall2 soft d d' -> Forall2 dimmed d0 d'.
Proof. apply Forall2_compose, dimmed_soft. Qed.

Lemma dimmed_start (d : Desktop) :
  fullyShown d -> compliant d -> Forall2 dimmed d d.
Proof.
  intros Hshown Hgrant. apply Forall_Forall2_diag, Forall_forall. intros p Hp.
  pose proof (Hshown p Hp) as [Hv Hw]. pose proof (Hgrant p Hp) as Hc.
  split; [now split|]. split; [exact Hc|]. repeat split; done.
Qed.

Lemma dimmed_switch (ws : list WindowInfo) (keys apps : list string) (d : Desktop) :
  fullyShown d -> compliant d ->
  Forall2 dimmed d (restoreAll ws (showAll apps (minimizeOthers keys d))).
Proof.
  intros Hshown Hgrant. unfold restoreAll.
  apply (foldl_invariant (fun d' => Forall2 dimmed d d')).
  { intros d' r _ Hd'. eapply dimmed_step; [exact Hd'|].
    apply restoreStep_Forall2.
    - apply soft_refl.
    - apply soft_setFrontmost.
    - intros p _ _. apply soft_raiseWindow. }
  unfold showAll.
  apply (foldl_invariant (fun d' => Forall2 dimmed d d')).
  { intros d' app _ Hd'. eapply dimmed_step; [exact Hd'|].
    apply makeVisible_Forall2.
    - apply soft_refl.
    - intros p _. apply soft_madeVisible. }
  eapply dimmed_step; [now apply dimmed_start|].
  unfold minimizeOthers. apply Forall2_fmap_r, Forall_Forall2_diag, Forall_true.
  apply soft_minimizeProcess.
Qed.

Lemma restoreWhole_dimmed (p0 p : Process) :
  dimmed p0 p -> restacked p0 (restoreWhole p).
Proof.
  intros ([Hv0 Hw0] & (Hbr0 & Hwr0 & Hsh0 & Hgrant) & Hn & Hb & Hg & Hbr & Hwr
          & Hsh & Hv & Hw & Hmin).
  assert (Hfix : setMinimized false <$> procWindows p0 = procWindows p0).
  { apply fmap_fixed. intros w Hin. rewrite <- (Hw0 w Hin).
    apply setMinimized_same. }
  rewrite Hfix in Hw.
  unfold restoreWhole. fold RAYCAST.
  destruct (negb (backgroundOnly p) && bundleReadable p && _ && showable p)
    eqn:Hr.
  - rewrite Hwr, Hwr0.
    assert (Heq : unminimized <$> procWindows p
                  = setMinimized false <$> procWindows p).
    { apply list_fmap_ext. intros i w Hi. apply unminimized_grants.
      apply Hgrant. rewrite <- Hw. apply list_elem_of_fmap.
      exists w. split; [done|]. now apply list_elem_of_lookup_2 in Hi. }
    split; [done|]. split; [done|]. split; [cbn; congruence|]. split; [done|].
    cbn. now rewrite Heq.
  - split; [done|]. split; [done|]. split; [congruence|]. split; [done|].
    rewrite <- Hw. rewrite fmap_fixed; [done|].
    intros w Hin. rewrite <- (setMinimized_same w) at 2. f_equal.
    symmetry. apply Hmin; [|done].
    unfold restorable. now rewrite <- Hb, <- Hg, <- Hbr, <- Hsh.
Qed.

(** On a fully shown process that grants its requests the two scripts
    cancel. *)
Lemma restoreWhole_minimizeWhole (p : Process) :
  shownProcess p -> compliantProcess p -> restoreWhole (minimizeWhole p) = p.
Proof.
  intros [Hvis Hwins] (Hbr & Hwr & Hsh & Hws).
  destruct p as [n b v bg fr ws nr br wr sh fb].
  cbn in Hvis, Hwins, Hbr, Hwr, Hsh, Hws. subst.
  unfold minimizeWhole, restoreWhole, userFacing.
  cbn [visible backgroundOnly bundleIdentifier bundleReadable windowsReadable
         showable negb andb].
  destruct bg; cbn [negb andb]; [done|].
  destruct (textEq b "com.raycast.macos") eqn:Hray; cbn [negb andb];
    cbn [visible backgroundOnly bundleIdentifier bundleReadable windowsReadable
           showable setWindows negb andb];
    rewrite Hray; cbn [negb andb]; [done|].
  unfold setWindows, setVisible. cbn. f_equal.
  rewrite <- list_fmap_compose. apply fmap_fixed.
  intros w Hw. cbn. specialize (Hwins w Hw).
  destruct (Hws w Hw) as (Hr1 & Hr2).
  destruct w as [n' m tr r s a]. cbn in *. now subst.
Qed.

(** X15. On a desktop on which every process is visible, lets its bundle
    identifier and its windows be read and lets itself be made visible, and
    no window is minimized and every window lets its attribute AXMinimized
    be read and set, [minimizeAllWindows] followed by [restoreAllWindows]
    leaves every process with its name, bundle identifier, visibility and
    background-only flag and with the windows it had, none minimized, and
    does not write the storage. *)
Theorem restoreAllWindows_undoes_minimizeAllWindows (σ : @World Mac) :
  fullyShown (desktop σ) ->
  compliant (desktop σ) ->
  exists σ',
    bind minimizeAllWindows (fun _ => restoreAllWindows) σ = (Returned tt, σ') /\
    Forall2 restacked (desktop σ) (desktop σ') /\
    fullyShown (desktop σ') /\
    localStorage σ' = localStorage σ.
Proof.
  intros Hshown Hgrant. exists σ.
  assert (Hback : restoreEverything (minimizeEverything (desktop σ)) = desktop σ).
  { unfold restoreEverything, minimizeEverything.
    rewrite <- list_fmap_compose. apply fmap_fixed. intros p Hp.
    apply restoreWhole_minimizeWhole; [now apply Hshown|now apply Hgrant]. }
  split.
  - unfold bind. rewrite Mac_minimizeAllWindows, Mac_restoreAllWindows.
    destruct σ as [d store online t]. unfold withDesktop.
    cbn [desktop localStorage storageOnline ticks] in *. now rewrite Hback.
  - split; [|done].
    apply Forall_Forall2_diag, Forall_true. intros p. repeat split; done.
Qed.

(** X16. [showAllWindows] undoes a switch.  Start from a desktop on which
    every process is visible, lets its bundle identifier and its windows be
    read and lets itself be made visible, and no window is minimized and
    every window lets its attribute AXMinimized be read and set, and switch
    to a group.  Then [showAllWindows] succeeds, clears the active group and
    leaves every process with its name, bundle identifier, visibility and
    background-only flag and with the windows it had, none minimized; the
    order of the windows within a process and the frontmost application may
    differ.  The same windows are on screen as before the switch, and the
    storage is not written. *)
Theorem showAllWindows_undoes_switch
  (group : WindowGroup) (active : option string) (res : SwitchResult)
  (σ σ1 : @World Mac) :
  fullyShown (desktop σ) ->
  compliant (desktop σ) ->
  switchTo group σ = (Returned res, σ1) ->
  exists toast σ2,
    showAllWindows active σ1 = (Returned (toast, None), σ2) /\
    Forall2 restacked (desktop σ) (desktop σ2) /\
    visibleWindows (desktop σ2) ≡ₚ visibleWindows (desktop σ) /\
    localStorage σ2 = localStorage σ.
Proof.
  intros Hshown Hgrant Hswitch.
  destruct (Mac_switchTo_returned _ _ _ _ Hswitch)
    as (ws' & _ & _ & _ & ->). cbv zeta.
  eexists _, _. split; [reflexivity|]. cbn [desktop withDesktop localStorage].
  assert (Hback : Forall2 restacked (desktop σ)
            (restoreEverything
               (restoreAll ws'
                  (showAll (omap delivered (JS.unique [] (appName <$> windows group)))
                     (minimizeOthers (keepKey <$> ws') (desktop σ)))))).
  { unfold restoreEverything. apply Forall2_fmap_r.
    eapply Forall2_impl; [now apply dimmed_switch|].
    intros p0 p. apply restoreWhole_dimmed. }
  split; [exact Hback|]. split; [|done].
  now apply visibleWindows_restacked.
Qed.

End WholeFacts.

Lemma devDesktop_shown : Whole.fullyShown Sample.devDesktop.
Proof. apply fullyShown_Forall. repeat constructor. Qed.

Lemma devDesktop_compliant : Whole.compliant Sample.devDesktop.
Proof. apply compliant_Forall. repeat constructor. Qed.

Lemma restoreAllWindows_undoes_minimizeAllWindows_witness :
  let σ := Sample.world Sample.devDesktop true in
  Whole.fullyShown (desktop σ) /\
  Whole.compliant (desktop σ) /\
  exists σ',
    bind minimizeAllWindows (fun _ => restoreAllWindows) σ = (Returned tt, σ') /\
    Forall2 Reading.restacked (desktop σ) (desktop σ').
Proof.
  split; [exact devDesktop_shown|]. split; [exact devDesktop_compliant|].
  destruct (restoreAllWindows_undoes_minimizeAllWindows
              (Sample.world Sample.devDesktop true)
              devDesktop_shown devDesktop_compliant)
    as (σ' & Hrun & Hback & _).
  exists σ'. split; [exact Hrun|exact Hback].
Defined.

Lemma showAllWindows_undoes_switch_witness :
  let σ := Sample.world Sample.devDesktop true in
  exists res σ1 toast σ2,
    switchTo Sample.dev σ = (Returned res, σ1) /\
    showAllWindows None σ1 = (Returned (toast, None), σ2) /\
    Forall2 Reading.restacked (desktop σ) (desktop σ2) /\
    visibleWindows (desktop σ2) ≡ₚ visibleWindows (desktop σ) /\
    localStorage σ2 = localStorage σ.
Proof.
  assert (Hswitch : switchTo Sample.dev (Sample.world Sample.devDesktop true)
                    = (Returned {| shown := 2; notFound := [] |},
                       snd (switchTo Sample.dev
                              (Sample.world Sample.devDesktop true))))
    by (vm_compute; reflexivity).
  destruct (showAllWindows_undoes_switch Sample.dev None _
              (Sample.world Sample.devDesktop true) _
              devDesktop_shown devDesktop_compliant Hswitch)
    as (toast & σ2 & Hall).
  eexists _, _, toast, σ2. split; [exact Hswitch|exact Hall].
Defined.

(** The global restore leaves a window whose attribute cannot be read
    minimized: the per-window [try] skips it. *)
Example restoreAllWindows_skips_unreadable_window :
  exists σ',
    restoreAllWindows FaultSample.opaqueNotes = (Returned tt, σ') /\
    visibleWindows (desktop σ') = [].
Proof. eexists. split; vm_compute; reflexivity. Qed.

(** It makes a process visible before it reads its windows: a process whose
    windows cannot be read ends visible with its window still minimized. *)
Example restoreAllWindows_shows_process_before_windows :
  exists σ',
    restoreAllWindows FaultSample.sealedNotes = (Returned tt, σ') /\
    (SystemEvents.visible <$> desktop σ') = [true] /\
    visibleWindows (desktop σ') = [].
Proof. eexists. split; [|split]; vm_compute; reflexivity. Qed.

(** The two minimizing scripts differ in what they read inside their [try]:
    the script of [minimizeAllExcept] reads the name of every window and
    skips one that does not let it be read, the script of
    [minimizeAllWindows] reads no name and minimizes it. *)
Example minimizing_scripts_differ_on_unreadable_name :
  exists σ1 σ2,
    minimizeAllExcept [] FaultSample.muteNotes = (Returned tt, σ1) /\
    visibleWindows (desktop σ1) = [("Notes", "Untitled")] /\
    minimizeAllWindows FaultSample.muteNotes = (Returned tt, σ2) /\
    visibleWindows (desktop σ2) = [].
Proof. eexists _, _. repeat split; vm_compute; reflexivity. Qed.

(** ** windowManager.ts on the Mac platform: isAppRunning and the
    exclusionary minimize *)

Section ProbeFacts.
Import SystemEvents Reading Utility.

(** X17. On the Mac platform [isAppRunning], asked about a name without a
    backslash, changes nothing and answers true exactly when some process
    has that name, letter case ignored; so when it answers false, no
    reference to that application denotes a window. *)
Theorem isAppRunning_finds_process (app : string) (σ : @World Mac) :
  plain app ->
  exists running,
    isAppRunning app σ = (Returned running, σ) /\
    (running = true <->
     exists p, p ∈ desktop σ /\ textEq (procName p) app = true) /\
    (running = false ->
     forall r, appName r = app -> present r (desktop σ) = false).
Proof.
  intros Hplain.
  exists (bool_decide (is_Some (processNamed app (desktop σ)))). split.
  - unfold isAppRunning, tryCatch, bind, ret.
    cbn [runUtilityScript MacRunner]. unfold macRunUtility. cbn [Utility.run].
    rewrite readLiteral_escapeQuotes by done.
    rewrite withDesktop_same. unfold processExists.
    now destruct (processNamed app (desktop σ)).
  - split.
    + rewrite bool_decide_eq_true. unfold processNamed. split.
      * intros [p Hp]. apply find_some in Hp as [Hin Hp].
        exists p. split; [now apply list_elem_of_In|done].
      * intros (p & Hin & Hp).
        destruct (List.find _ (desktop σ)) as [q|] eqn:Hq; [eauto|].
        apply list_elem_of_In in Hin.
        now rewrite (find_none _ _ Hq p Hin) in Hp.
    + intros Hnone%bool_decide_eq_false r <-. apply bool_decide_eq_false.
      unfold lookupWindow.
      destruct (processNamed (appName r) (desktop σ)); [|now intros [w Hw]].
      exfalso. apply Hnone. eauto.
Qed.

Lemma minimizeProcess_onScreen (keys : list string) (n : string) (p : Process)
  (ws : list Window) :
  sublist
    ((fun w => (n, winName w))
       <$> filter (fun w => AXMinimized w = false) (minimizeWindow keys p <$> ws))
    ((fun w => (n, winName w)) <$> filter (fun w => AXMinimized w = false) ws).
Proof.
  induction ws as [|w ws IH]; [done|]. rewrite fmap_cons.
  destruct (minimizeWindow_cases keys p w) as [->|[Hw Hw']].
  - rewrite !filter_cons. destruct (decide _); [|exact IH].
    rewrite !fmap_cons. now apply sublist_skip.
  - rewrite filter_cons_False by congruence.
    rewrite filter_cons_True by done. rewrite fmap_cons. now apply sublist_cons.
Qed.

Lemma minimizeOthers_onScreen (keys : list string) (d : Desktop) :
  sublist (visibleWindows (minimizeOthers keys d)) (visibleWindows d).
Proof.
  unfold visibleWindows, minimizeOthers.
  induction d as [|p d IH]; [done|]. rewrite fmap_cons.
  destruct (minimizeProcess_frame keys p) as (Hn & _ & Hv & _).
  destruct (visible p) eqn:Hvis.
  - rewrite (filter_cons_True _ (minimizeProcess keys p)) by congruence.
    rewrite (filter_cons_True _ p) by done.
    rewrite !bind_cons. apply sublist_app; [|exact IH].
    rewrite Hn. unfold minimizeProcess. destruct (_ && _); [|done].
    apply minimizeProcess_onScreen.
  - rewrite (filter_cons_False _ (minimizeProcess keys p)) by congruence.
    rewrite (filter_cons_False _ p) by congruence. exact IH.
Qed.

(** X18. [minimizeAllExcept] on the Mac platform only ever takes windows
    off the screen, and its script is rejected before it changes anything
    or not at all: the refusals of windows and processes are caught inside
    it.  When it throws, the world is as it was.  When it returns, the
    windows on screen are some of those that were on screen, in their
    order, the storage is as it was, and doing it again changes nothing
    more: the windows that refused refuse again. *)
Theorem minimizeAllExcept_only_minimizes
  (ws : list WindowInfo) (σ σ1 : @World Mac) :
  (forall e, minimizeAllExcept ws σ = (Thrown e, σ1) -> σ1 = σ) /\
  (minimizeAllExcept ws σ = (Returned tt, σ1) ->
   sublist (visibleWindows (desktop σ1)) (visibleWindows (desktop σ)) /\
   localStorage σ1 = localStorage σ /\
   minimizeAllExcept ws σ1 = (Returned tt, σ1)).
Proof.
  rewrite !Mac_minimizeAllExcept.
  destruct (mapM readLiteral _) as [keys|].
  - split; [done|]. intros [= <-].
    split; [apply minimizeOthers_onScreen|]. split; [done|].
    f_equal. destruct σ as [d store online t]. unfold withDesktop.
    cbn [desktop localStorage storageOnline ticks]. f_equal.
    apply minimizeOthers_settled, minimizeOthers_settles.
  - split; [|done]. now intros e [= _ <-].
Qed.

End ProbeFacts.

Lemma isAppRunning_finds_process_witness :
  let σ := Sample.world Sample.devDesktop true in
  plain "terminal" /\
  isAppRunning "terminal" σ = (Returned true, σ).
Proof.
  assert (Hplain : plain "terminal") by reflexivity.
  split; [exact Hplain|].
  destruct (isAppRunning_finds_process "terminal"
              (Sample.world Sample.devDesktop true) Hplain)
    as (running & Hrun & _ & _).
  rewrite Hrun. vm_compute in Hrun. now injection Hrun as <-.
Defined.

Lemma minimizeAllExcept_only_minimizes_witness :
  exists σ1,
    minimizeAllExcept (windows Sample.dev) FaultSample.stubbornNotes
      = (Returned tt, σ1) /\
    sublist (visibleWindows (desktop σ1))
            (visibleWindows (desktop FaultSample.stubbornNotes)) /\
    localStorage σ1 = localStorage FaultSample.stubbornNotes /\
    minimizeAllExcept (windows Sample.dev) σ1 = (Returned tt, σ1).
Proof.
  assert (Hrun : minimizeAllExcept (windows Sample.dev) FaultSample.stubbornNotes
                 = (Returned tt,
                    snd (minimizeAllExcept (windows Sample.dev)
                           FaultSample.stubbornNotes)))
    by (vm_compute; reflexivity).
  eexists. split; [exact Hrun|].
  apply (minimizeAllExcept_only_minimizes (windows Sample.dev)
           FaultSample.stubbornNotes).
  exact Hrun.
Defined.
(** ** windowManager.ts: the snapshot of a tame desktop *)

Section SplitFacts.

Lemma append_assoc (a b c : string) : (a +:+ b) +:+ c = a +:+ (b +:+ c).
Proof. induction a as [|x a IH]; [done|]. rewrite !append_cons. now rewrite IH. Qed.

Lemma append_nil_r (a : string) : a +:+ EmptyString = a.
Proof. induction a as [|x a IH]; [done|]. rewrite append_cons. now rewrite IH. Qed.

Lemma append_nil_l (a : string) : EmptyString +:+ a = a.
Proof. reflexivity. Qed.

Lemma includesChar_app (c : ascii) (a b : string) :
  JS.includesChar c (a +:+ b) = JS.includesChar c a || JS.includesChar c b.
Proof.
  induction a as [|x a IH]; [done|]. rewrite append_cons. cbn.
  now rewrite IH, orb_assoc.
Qed.

Lemma startsWith_app (p r : string) : JS.startsWith p (p +:+ r) = true.
Proof.
  induction p as [|x p IH]; [done|]. rewrite append_cons. cbn.
  now rewrite Ascii.eqb_refl, IH.
Qed.

Lemma splitFrom_skip (sep x cur r : string) :
  JS.splitFrom sep (String.length x) cur (x +:+ r) = JS.splitFrom sep 0 cur r.
Proof. induction x as [|c x IH]; [done|]. rewrite append_cons. exact IH. Qed.

(** A piece free of the character that opens the separator is one piece. *)
Lemma splitFrom_last (c0 : ascii) (sep' cur l : string) :
  JS.includesChar c0 l = false ->
  JS.splitFrom (String c0 sep') 0 cur l = [cur +:+ l].
Proof.
  revert cur. induction l as [|c l IH]; intros cur Hl.
  - now rewrite append_nil_r.
  - cbn in Hl. apply orb_false_iff in Hl as [Hc Hl].
    cbn [JS.splitFrom JS.startsWith]. rewrite Hc. cbn [andb].
    rewrite IH by done. now rewrite append_assoc.
Qed.

Lemma splitFrom_piece (c0 : ascii) (sep' cur l r : string) :
  JS.includesChar c0 l = false ->
  JS.splitFrom (String c0 sep') 0 cur (l +:+ String c0 sep' +:+ r)
  = (cur +:+ l) :: JS.splitFrom (String c0 sep') 0 EmptyString r.
Proof.
  revert cur. induction l as [|c l IH]; intros cur Hl.
  - rewrite append_nil_l, append_nil_r, append_cons.
    cbn [JS.splitFrom JS.startsWith]. rewrite Ascii.eqb_refl, startsWith_app.
    cbn [andb].
    replace (String.length (String c0 sep') - 1) with (String.length sep')
      by (cbn [String.length]; lia).
    now rewrite splitFrom_skip.
  - cbn in Hl. apply orb_false_iff in Hl as [Hc Hl].
    rewrite append_cons. cbn [JS.splitFrom JS.startsWith]. rewrite Hc. cbn [andb].
    rewrite IH by done. now rewrite append_assoc.
Qed.

Lemma trimEnd_nonspace (c : ascii) (r : string) :
  JS.isSpace c = false -> JS.trimEnd (String c r) = String c (JS.trimEnd r).
Proof. intros Hc. rewrite trimEnd_cons, Hc. now destruct (JS.trimEnd r). Qed.

Lemma trimEnd_app_keep (a b : string) :
  JS.trimEnd b <> EmptyString -> JS.trimEnd (a +:+ b) = a +:+ JS.trimEnd b.
Proof.
  intros Hb. induction a as [|c a IH]; [done|].
  rewrite !append_cons, trimEnd_cons, IH.
  destruct (a +:+ JS.trimEnd b) as [|x y] eqn:Hab; [|done].
  exfalso. destruct a; [now rewrite append_nil_l in Hab|].
  now rewrite append_cons in Hab.
Qed.

Lemma trimEnd_app_drop (a b : string) :
  JS.trimEnd b = EmptyString -> JS.trimEnd (a +:+ b) = JS.trimEnd a.
Proof.
  intros Hb. induction a as [|c a IH]; [done|].
  now rewrite append_cons, !trimEnd_cons, IH.
Qed.

Lemma trim_fixed (s : string) :
  JS.trim s = s -> startsClean s /\ JS.trimEnd s = s.
Proof.
  intros Hs. split.
  - rewrite <- Hs. apply trimEnd_clean, trimStart_clean.
  - rewrite <- Hs at 1. unfold JS.trim. now rewrite trimEnd_idempotent.
Qed.

End SplitFacts.

Section LineFacts.
Import SystemEvents Snapshot.

Lemma interleave_cons (l l' : string) (rest : list string) :
  interleave (l :: l' :: rest) = l +:+ String JS.LF (interleave (l' :: rest)).
Proof. reflexivity. Qed.

Lemma interleave_nonempty (l : string) (rest : list string) :
  l <> EmptyString -> interleave (l :: rest) <> EmptyString.
Proof.
  intros Hl. destruct rest as [|l' rest]; [done|].
  rewrite interleave_cons. destruct l; [done|]. now rewrite append_cons.
Qed.

Lemma terminated_cons (l : string) (rest : list string) :
  terminated (l :: rest) = l +:+ String JS.LF (terminated rest).
Proof.
  unfold terminated. rewrite fmap_cons. cbn [foldr].
  now rewrite append_assoc.
Qed.

Lemma trimEnd_terminated (lines : list string) :
  Forall goodLine lines -> JS.trimEnd (terminated lines) = interleave lines.
Proof.
  induction 1 as [|l rest (Hne & _ & Hend & _) Hrest IH]; [done|].
  rewrite terminated_cons. destruct rest as [|l' rest].
  - rewrite trimEnd_app_drop by reflexivity. exact Hend.
  - assert (Hnext : JS.trimEnd (String JS.LF (terminated (l' :: rest)))
                    = String JS.LF (interleave (l' :: rest))).
    { rewrite trimEnd_cons, IH.
      destruct (interleave (l' :: rest)) eqn:Hi; [|done].
      apply Forall_cons in Hrest as [(Hne' & _) _].
      now apply (interleave_nonempty l' rest) in Hne'. }
    rewrite trimEnd_app_keep; rewrite Hnext; done.
Qed.

Lemma trim_terminated (lines : list string) :
  Forall goodLine lines -> JS.trim (terminated lines) = interleave lines.
Proof.
  intros Hall. unfold JS.trim. rewrite trimStart_id.
  - now apply trimEnd_terminated.
  - destruct Hall as [|l rest (Hne & Hstart & _) _]; [done|].
    rewrite terminated_cons. destruct l as [|c l]; [done|]. exact Hstart.
Qed.

Lemma split_interleave (l : string) (rest : list string) :
  Forall goodLine (l :: rest) ->
  JS.split (String JS.LF EmptyString) (interleave (l :: rest)) = l :: rest.
Proof.
  revert l. induction rest as [|l' rest IH]; intros l Hall;
    apply Forall_cons in Hall as [(_ & _ & _ & Hlf) Hrest].
  - unfold JS.split. cbn [interleave]. now rewrite splitFrom_last.
  - rewrite interleave_cons. unfold JS.split.
    change (l +:+ String JS.LF (interleave (l' :: rest)))
      with (l +:+ String JS.LF EmptyString +:+ interleave (l' :: rest)).
    rewrite splitFrom_piece by done. rewrite append_nil_l. f_equal.
    now apply IH.
Qed.

(** The lines that [getOpenWindows] reads from the text of good lines. *)
Lemma lines_of_terminated (lines : list string) :
  Forall goodLine lines ->
  filter (fun l => 0 < String.length l)
         (JS.split (String JS.LF EmptyString) (JS.trim (terminated lines)))
  = lines.
Proof.
  intros Hall. rewrite trim_terminated by done.
  destruct lines as [|l rest]; [done|].
  rewrite split_interleave by done. apply filter_keeps_all.
  intros x Hx. apply (proj1 (Forall_forall _ _) Hall) in Hx as (Hne & _).
  destruct x; [done|]. cbn. lia.
Qed.

Lemma windowLine_textLine (p : Process) (w : Window) :
  windowLine p w = textLine p w +:+ String JS.LF EmptyString.
Proof. unfold windowLine, textLine. now rewrite !append_assoc. Qed.

Lemma windowList_terminated (d : Desktop) : windowList d = terminated (textLines d).
Proof.
  unfold windowList, terminated, textLines, walked. f_equal.
  induction (filter (fun p => userFacing p && scriptable p = true) d)
    as [|p ps IH]; [done|].
  rewrite !bind_cons, fmap_app, IH. f_equal.
  rewrite <- list_fmap_compose. apply list_fmap_ext.
  intros i w _. apply windowLine_textLine.
Qed.

Lemma textLine_good (p : Process) (w : Window) :
  tidy (procName p) -> tidy (winName w) -> tidy (bundleIdentifier p) ->
  goodLine (textLine p w).
Proof.
  intros (_ & Ha & _ & Half) (_ & Ht & _ & Htlf) (_ & Hb & _ & Hblf).
  unfold textLine.
  apply trim_fixed in Ha as [Hastart _]. apply trim_fixed in Hb as [_ Hbend].
  split; [|split; [|split]].
  - destruct (procName p); [done|]. now rewrite append_cons.
  - destruct (procName p); [reflexivity|]. now rewrite append_cons.
  - rewrite <- !append_assoc.
    rewrite (append_assoc _ "|||" (bundleIdentifier p)).
    assert (Htail : JS.trimEnd ("|||" +:+ bundleIdentifier p)
                    = "|||" +:+ bundleIdentifier p).
    { rewrite !append_cons, append_nil_l.
      rewrite !trimEnd_nonspace by reflexivity. now rewrite Hbend. }
    rewrite trimEnd_app_keep; rewrite Htail; [done|].
    now rewrite append_cons.
  - rewrite !includesChar_app, Half, Htlf, Hblf. reflexivity.
Qed.

Lemma textLines_good (d : Desktop) : tame d -> Forall goodLine (textLines d).
Proof.
  intros Htame. apply Forall_forall. intros l.
  unfold textLines. rewrite list_elem_of_bind.
  intros (p & Hl & Hp). apply list_elem_of_filter in Hp as [Hfacing Hp].
  apply list_elem_of_fmap in Hl as (w & -> & Hw).
  apply list_elem_of_filter in Hw as [Hlisted Hw].
  destruct (Htame p Hp Hfacing) as (Ha & Hb & Hwin).
  apply textLine_good; auto.
Qed.

Lemma parseLine_textLine (p : Process) (w : Window) :
  tidy (procName p) -> tidy (winName w) -> tidy (bundleIdentifier p) ->
  parseLine (textLine p w)
  = if String.eqb (bundleIdentifier p) RAYCAST then None
    else Some (capture p w).
Proof.
  intros (_ & Ha & Habar & _) (_ & Ht & Htbar & _) (_ & Hb & Hbbar & _).
  unfold parseLine, textLine, JS.split.
  rewrite splitFrom_piece by done. rewrite splitFrom_piece by done.
  rewrite splitFrom_last by done. rewrite !append_nil_l.
  cbv zeta. now rewrite Ha, Ht, Hb.
Qed.

Lemma parse_textLines (d : Desktop) :
  tame d -> omap parseLine (textLines d) = onScreen d.
Proof.
  unfold textLines, onScreen, Desktop.
  induction d as [|p d IH]; intros Htame; [done|].
  assert (Hrest : tame d).
  { intros q Hq. apply Htame. now right. }
  specialize (IH Hrest).
  destruct (walked p) eqn:Hfacing.
  - rewrite (filter_cons_True (fun p => walked p = true)) by done.
    rewrite bind_cons, omap_app, IH.
    destruct (Htame p ltac:(left) Hfacing) as (Ha & Hb & Hwin).
    assert (Hparsed :
      omap parseLine (textLine p <$> filter (fun w => listed w = true) (procWindows p))
      = if String.eqb (bundleIdentifier p) RAYCAST then []
        else capture p <$> filter (fun w => listed w = true) (procWindows p)).
    { assert (Hall : forall w, w ∈ filter (fun w => listed w = true) (procWindows p) ->
                               tidy (winName w)).
      { intros w [Hl Hw]%list_elem_of_filter. auto. }
      induction (filter (fun w => listed w = true) (procWindows p)) as [|w ws IHw].
      - now destruct (String.eqb _ _).
      - rewrite fmap_cons. cbn [omap list_omap].
        rewrite parseLine_textLine by (auto; apply Hall; left).
        rewrite IHw by (intros x Hx; apply Hall; now right).
        now destruct (String.eqb _ _). }
    rewrite Hparsed.
    destruct (String.eqb_spec (bundleIdentifier p) RAYCAST) as [Hray|Hray].
    + rewrite filter_cons_False by (intros [_ Hne]; done). done.
    + rewrite filter_cons_True by done. now rewrite bind_cons.
  - rewrite (filter_cons_False (fun p => walked p = true)) by congruence.
    rewrite filter_cons_False by (intros [Hf _]; congruence). exact IH.
Qed.

(** [getOpenWindows] on the Mac platform: the lines of the script's text,
    parsed. *)
Lemma Mac_getOpenWindows (σ : @World Mac) :
  getOpenWindows σ
  = (Returned
       (omap parseLine
          (filter (fun l => 0 < String.length l)
             (JS.split (String JS.LF EmptyString)
                (JS.trim (windowList (desktop σ)))))), σ).
Proof.
  unfold getOpenWindows, tryCatch, bind, ret.
  cbn [runAppleScript Mac]. unfold macRun. cbn [SystemEvents.run].
  now rewrite withDesktop_same.
Qed.

(** X19. The snapshot of a tame desktop is faithful.  When every name,
    bundle identifier and title that the script writes out is of the ASCII
    range, is left as it is by [trim] and holds neither a vertical bar nor a
    line feed, [getOpenWindows] on the Mac platform returns, process by
    process and window by window in the desktop's order, exactly the titled
    windows that let their name be read and that the script does not see
    minimized, of the visible processes that are not background-only, let
    their name, bundle identifier and windows be read and are not Raycast,
    each with its names unchanged, and it changes nothing. *)
Theorem getOpenWindows_faithful_on_tame_desktop (σ : @World Mac) :
  tame (desktop σ) ->
  getOpenWindows σ = (Returned (onScreen (desktop σ)), σ).
Proof.
  intros Htame. rewrite Mac_getOpenWindows.
  rewrite windowList_terminated.
  rewrite lines_of_terminated by now apply textLines_good.
  now rewrite parse_textLines.
Qed.

Lemma filter_drops_all {A} (P : A -> Prop) `{!forall x, Decision (P x)} (l : list A) :
  (forall x, x ∈ l -> ~ P x) -> filter P l = [].
Proof.
  induction l as [|x l IH]; intros Hall; [reflexivity|].
  rewrite filter_cons_False by (apply Hall; left).
  apply IH. intros y Hy. apply Hall. now right.
Qed.

Lemma onScreen_found (d : Desktop) (r : WindowInfo) :
  distinctNames d -> responsive d -> r ∈ onScreen d -> Reading.found r d = true.
Proof.
  intros Hdistinct Hresp. unfold onScreen. rewrite list_elem_of_bind.
  intros (p & Hr & Hp). apply list_elem_of_filter in Hp as [[Hwalked _] Hp].
  apply list_elem_of_fmap in Hr as (w & -> & Hw).
  apply list_elem_of_filter in Hw as [_ Hw].
  destruct (Hresp p Hp Hwalked) as [Hfront Hraise].
  unfold Reading.found, Reading.target. cbn [appName windowTitle capture].
  destruct (processNamed (procName p) d) as [q|] eqn:Hq.
  - unfold processNamed in Hq. apply find_some in Hq as [Hin Hname].
    apply list_elem_of_In in Hin.
    rewrite (Hdistinct q p Hin Hp Hname). cbn. rewrite Hfront.
    destruct (windowNamed (winName w) p) as [w'|] eqn:Hfind.
    + apply Hraise. now apply windowNamed_elem in Hfind.
    + unfold windowNamed in Hfind. apply list_elem_of_In in Hw.
      pose proof (find_none _ _ Hfind w Hw) as Hno. cbn in Hno.
      now rewrite textEq_refl in Hno.
  - unfold processNamed in Hq. apply list_elem_of_In in Hp.
    pose proof (find_none _ _ Hq p Hp) as Hno. cbn in Hno.
    now rewrite textEq_refl in Hno.
Qed.

(** X20. A group made of windows of the snapshot just taken is found
    entirely.  Take a tame desktop whose process names are pairwise
    distinct, letter case ignored, and whose visible, readable processes
    that are not background-only let themselves be brought to the front and
    let their windows be raised.  Take the snapshot and switch at once to a
    group whose windows, free of backslashes, are all in the snapshot: the
    switch counts every window of the group as shown and reports none as
    not found. *)
Theorem snapshot_group_is_found
  (group : WindowGroup) (snapshot : list WindowInfo) (σ σ0 : @World Mac) :
  tame (desktop σ) ->
  distinctNames (desktop σ) ->
  responsive (desktop σ) ->
  getOpenWindows σ = (Returned snapshot, σ0) ->
  Forall plainRef (windows group) ->
  (forall r, r ∈ windows group -> r ∈ snapshot) ->
  exists σ1,
    switchTo group σ0
    = (Returned {| shown := length (windows group); notFound := [] |}, σ1).
Proof.
  intros Htame Hdistinct Hresp Hsnap Hplain Hsub.
  rewrite Mac_getOpenWindows, windowList_terminated in Hsnap.
  rewrite lines_of_terminated in Hsnap by now apply textLines_good.
  rewrite parse_textLines in Hsnap by done. injection Hsnap as <- <-.
  eexists. rewrite Mac_switchTo_plain by done. cbv zeta.
  assert (Hfound : forall r, r ∈ windows group ->
    Reading.found r
      (Reading.showAll
         (omap Reading.delivered (JS.unique [] (appName <$> windows group)))
         (minimizeOthers (keepKey <$> windows group) (desktop σ))) = true).
  { intros r Hr. rewrite showAll_found, minimizeOthers_found.
    apply onScreen_found; auto. }
  rewrite filter_keeps_all by exact Hfound.
  rewrite filter_drops_all; [reflexivity|].
  intros r Hr. now rewrite Hfound.
Qed.

End LineFacts.

Lemma tame_Forall (d : SystemEvents.Desktop) :
  Forall (fun p => Snapshot.tidy (SystemEvents.procName p) /\
                   Snapshot.tidy (SystemEvents.bundleIdentifier p) /\
                   Forall (fun w => Snapshot.tidy (SystemEvents.winName w))
                          (SystemEvents.procWindows p)) d ->
  Snapshot.tame d.
Proof.
  intros Hall p Hp _.
  apply (proj1 (Forall_forall _ _) Hall) in Hp as (Hn & Hb & Hw).
  split; [done|]. split; [done|]. intros w Hin _.
  now apply (proj1 (Forall_forall _ _) Hw).
Qed.

Lemma devDesktop_tame : Snapshot.tame Sample.devDesktop.
Proof. apply tame_Forall. repeat constructor. Qed.

Lemma devDesktop_responsive : Snapshot.responsive Sample.devDesktop.
Proof.
  intros p Hp _.
  repeat (apply elem_of_cons in Hp as [->|Hp]);
    try (now apply elem_of_nil in Hp);
    (split; [reflexivity|]); intros w Hw;
    repeat (apply elem_of_cons in Hw as [->|Hw]);
    try (now apply elem_of_nil in Hw); reflexivity.
Qed.

Lemma getOpenWindows_faithful_on_tame_desktop_witness :
  let σ := Sample.world Sample.devDesktop true in
  Snapshot.tame (desktop σ) /\
  getOpenWindows σ = (Returned (Snapshot.onScreen (desktop σ)), σ).
Proof.
  split; [exact devDesktop_tame|].
  apply (getOpenWindows_faithful_on_tame_desktop
           (Sample.world Sample.devDesktop true)).
  exact devDesktop_tame.
Defined.

Lemma snapshot_group_is_found_witness :
  let σ := Sample.world Sample.devDesktop true in
  Snapshot.tame (desktop σ) /\
  Snapshot.distinctNames (desktop σ) /\
  Snapshot.responsive (desktop σ) /\
  Forall plainRef (windows SnapshotSample.captured) /\
  exists snapshot σ0 σ1,
    getOpenWindows σ = (Returned snapshot, σ0) /\
    (forall r, r ∈ windows SnapshotSample.captured -> r ∈ snapshot) /\
    switchTo SnapshotSample.captured σ0
    = (Returned {| shown := 3; notFound := [] |}, σ1).
Proof.
  assert (Hdistinct : Snapshot.distinctNames Sample.devDesktop).
  { intros p q Hp Hq.
    repeat (apply elem_of_cons in Hp as [->|Hp]);
      try (now apply elem_of_nil in Hp);
      repeat (apply elem_of_cons in Hq as [->|Hq]);
      try (now apply elem_of_nil in Hq);
      vm_compute; congruence. }
  assert (Hplain : Forall plainRef (windows SnapshotSample.captured)).
  { vm_compute. repeat constructor. }
  assert (Hsnap : getOpenWindows (Sample.world Sample.devDesktop true)
                  = (Returned (Snapshot.onScreen Sample.devDesktop),
                     Sample.world Sample.devDesktop true)).
  { vm_compute. reflexivity. }
  split; [exact devDesktop_tame|]. split; [exact Hdistinct|].
  split; [exact devDesktop_responsive|].
  split; [exact Hplain|].
  destruct (snapshot_group_is_found SnapshotSample.captured _
              (Sample.world Sample.devDesktop true) _
              devDesktop_tame Hdistinct devDesktop_responsive Hsnap Hplain
              (fun r Hr => Hr))
    as (σ1 & Hswitch).
  eexists _, _, σ1. split; [exact Hsnap|]. split; [exact (fun r Hr => Hr)|].
  exact Hswitch.
Defined.
